(** * CT-desk streaming core: chunk cache, chunk fetcher, session pool,
      prefetch engine and range server

    Shallow embedding of the Telegram streaming module (the second document
    of [src/main/security/validators.js]): the [ChunkCache] class, the
    in-flight registry, [ensureClientPool], [downloadChunk] and
    [_downloadChunkImpl], [downloadChunksParallel], [StreamDownloader],
    [prefetchInitialChunks], the request handler of [startLocalServer],
    [stopStream] and [destroy].

    Conventions.
    - JavaScript numbers are embedded as [Z].  Every number the module
      manipulates is an integer (byte counts, chunk indices, offsets); the
      embedding is exact as long as they stay below 2^53.
    - A [Buffer] is the list of its bytes.
    - A JavaScript [Map] iterates in insertion order and the cache relies on
      it, so the cache's map is an association list; the maps where order
      is irrelevant ([inFlight], [activeStreams]) are [gmap]s, and so is the
      [results] map of [downloadChunksParallel], whose order is the order in
      which the downloads complete.
    - An [await] runs the awaited computation to completion; the transport
      (gramjs) and the file system are oracles indexed by a clock.  Where
      the interleaving of tasks matters it is modelled on its own: the
      concurrent calls of [downloadChunk] as turns of the event loop
      ([Loop]), the prefetch workers as suspended tasks ([Worker]), the
      calls of [ensureClientPool] that overlap as calls resumed from await
      to await ([Calls]). *)

From Stdlib Require Import ZArith String Ascii List Lia.
From Stdlib Require Import DecimalString DecimalZ DecimalPos.
From Stdlib Require Strings.Byte.
From stdpp Require Import gmap strings list.

Local Open Scope Z_scope.

(* ================================================================== *)
(** * Definitions *)
(* ================================================================== *)

(** ** Tunables *)

Definition CHUNK_SIZE : Z := 1024 * 1024.
Definition CLIENT_POOL_SIZE : Z := 3.
Definition WORKERS_PER_CONN : Z := 3.
Definition PARALLEL_WORKERS : Z := CLIENT_POOL_SIZE * WORKERS_PER_CONN.
Definition PREFETCH_CHUNKS : Z := 50.
Definition SEEK_PREBUF_CHUNKS : Z := 10.
Definition LOOKAHEAD_CHUNKS : Z := 250.
Definition CACHE_MAX_BYTES : Z := 700 * 1024 * 1024.
Definition MAX_CONSECUTIVE_FAILURES : Z := 5.
Definition MAX_RETRIES : Z := 4.

(** ** Buffers and keys *)

Definition Buffer := list Byte.byte.

Definition Buffer_length (b : Buffer) : Z := Z.of_nat (length b).

(** [buf.slice(from, to)] for [0 <= from <= to]. *)
Definition Buffer_slice (b : Buffer) (from to : Z) : Buffer :=
  take (Z.to_nat (to - from)) (drop (Z.to_nat from) b).

(** Number-to-string conversion of an integer, as [+] does on a string
    and a number. *)
Definition num_to_string (n : Z) : string :=
  NilZero.string_of_int (Z.to_int n).

(** [videoId + ':' + chunkIndex] *)
Definition cacheKeyOf (videoId : string) (chunkIndex : Z) : string :=
  (videoId ++ ":" ++ num_to_string chunkIndex)%string.

(** ** JavaScript [Map] with string keys, in insertion order *)

Module JsMap.
Section Ops.
Context {V : Type}.

Definition t := list (string * V).

Fixpoint get (m : t) (k : string) : option V :=
  match m with
  | [] => None
  | (k', v) :: m' => if String.eqb k' k then Some v else get m' k
  end.

Definition has (m : t) (k : string) : bool :=
  match get m k with Some _ => true | None => false end.

Fixpoint delete (m : t) (k : string) : t :=
  match m with
  | [] => []
  | (k', v) :: m' =>
      if String.eqb k' k then delete m' k else (k', v) :: delete m' k
  end.

(** [set] keeps the position of a key that is present and appends a
    new key. *)
Fixpoint set (m : t) (k : string) (v : V) : t :=
  match m with
  | [] => [(k, v)]
  | (k', v') :: m' =>
      if String.eqb k' k then (k', v) :: m' else (k', v') :: set m' k v
  end.

Definition keys (m : t) : list string := fst <$> m.

Definition size (m : t) : Z := Z.of_nat (length m).

(** [m.keys().next().value] *)
Definition first_key (m : t) : option string :=
  match m with
  | [] => None
  | (k, _) :: _ => Some k
  end.
End Ops.
Arguments t : clear implicits.
End JsMap.

(** ** LRU chunk cache (class [ChunkCache]) *)

Module ChunkCache.

Record t := mk { maxBytes : Z; usedBytes : Z; map : JsMap.t Buffer }.

(** [new ChunkCache(maxBytes)] *)
Definition new (maxBytes : Z) : t :=
  {| maxBytes := maxBytes; usedBytes := 0; map := [] |}.

(** [this.map.get(key).length] for a key of the map. *)
Definition entry_length (c : t) (key : string) : Z :=
  match JsMap.get (map c) key with
  | Some b => Buffer_length b
  | None => 0
  end.

(** [this.usedBytes -= this.map.get(key).length; this.map.delete(key)] *)
Definition drop_entry (c : t) (key : string) : t :=
  {| maxBytes := maxBytes c;
     usedBytes := usedBytes c - entry_length c key;
     map := JsMap.delete (map c) key |}.

Definition get (c : t) (key : string) : option Buffer * t :=
  match JsMap.get (map c) key with
  | None => (None, c)
  | Some buf =>
      (Some buf,
       {| maxBytes := maxBytes c;
          usedBytes := usedBytes c;
          map := JsMap.set (JsMap.delete (map c) key) key buf |})
  end.

(** The eviction loop of [set]: every round removes the first key of the
    map, so [length (map c)] rounds of fuel always suffice. *)
Fixpoint evict (fuel : nat) (c : t) (len : Z) : t :=
  match fuel with
  | O => c
  | S fuel' =>
      if (usedBytes c + len >? maxBytes c) && (JsMap.size (map c) >? 0)
      then match JsMap.first_key (map c) with
           | Some oldest => evict fuel' (drop_entry c oldest) len
           | None => c
           end
      else c
  end.

Definition set (c : t) (key : string) (buf : Buffer) : t :=
  let c1 := if JsMap.has (map c) key then drop_entry c key else c in
  let c2 := evict (length (map c1)) c1 (Buffer_length buf) in
  {| maxBytes := maxBytes c2;
     usedBytes := usedBytes c2 + Buffer_length buf;
     map := JsMap.set (map c2) key buf |}.

Definition has (c : t) (key : string) : bool := JsMap.has (map c) key.

Definition clear (c : t) : t :=
  {| maxBytes := maxBytes c; usedBytes := 0; map := [] |}.

(** The loop runs over a snapshot of the keys. *)
Definition deletePrefix (c : t) (prefix : string) : t :=
  fold_left
    (fun c key => if String.prefix prefix key then drop_entry c key else c)
    (JsMap.keys (map c)) c.

End ChunkCache.

(** Operations a client of the cache can issue, and their replay. *)
Inductive cache_op :=
| OpSet (key : string) (buf : Buffer)
| OpGet (key : string)
| OpHas (key : string)
| OpDeletePrefix (prefix : string)
| OpClear.

Definition cache_step (c : ChunkCache.t) (op : cache_op) : ChunkCache.t :=
  match op with
  | OpSet key buf => ChunkCache.set c key buf
  | OpGet key => snd (ChunkCache.get c key)
  | OpHas _ => c
  | OpDeletePrefix prefix => ChunkCache.deletePrefix c prefix
  | OpClear => ChunkCache.clear c
  end.

(** The cache after each operation of a run, in order. *)
Fixpoint cache_states (c : ChunkCache.t) (ops : list cache_op) : list ChunkCache.t :=
  match ops with
  | [] => []
  | op :: ops' => cache_step c op :: cache_states (cache_step c op) ops'
  end.

Definition cache_run (c : ChunkCache.t) (ops : list cache_op) : ChunkCache.t :=
  fold_left cache_step ops c.

Definition op_fits (maxBytes : Z) (op : cache_op) : Prop :=
  match op with
  | OpSet _ buf => Buffer_length buf <= maxBytes
  | _ => True
  end.

(** Bytes resident in a map, and the representation invariant of the
    cache: keys are unique (a [Map]) and [usedBytes] is the sum of the stored
    lengths. *)
Definition resident_bytes (m : JsMap.t Buffer) : Z :=
  foldr (λ kv acc, Buffer_length kv.2 + acc) 0 m.

Definition cache_wf (c : ChunkCache.t) : Prop :=
  NoDup (JsMap.keys (ChunkCache.map c)) ∧
  ChunkCache.usedBytes c = resident_bytes (ChunkCache.map c).

(** An operation that reads or writes the entry of [k]. *)
Definition op_touches (k : string) (op : cache_op) : Prop :=
  match op with
  | OpSet key _ => key = k
  | OpGet key => key = k
  | _ => False
  end.

Definition op_is_set_or_get (op : cache_op) : Prop :=
  match op with
  | OpSet _ _ | OpGet _ => True
  | _ => False
  end.

Definition op_of_insert (kb : string * Buffer) : cache_op := OpSet kb.1 kb.2.


(** Recency order of two keys: if [older] occurs in the key list then
    [newer] occurs behind its first occurrence. *)
Fixpoint behind (older newer : string) (l : list string) : Prop :=
  match l with
  | [] => True
  | x :: l' => if decide (x = older) then newer ∈ l' else behind older newer l'
  end.

(** ** Transport, runtime state and trace *)

(** A gramjs client of the pool: the session string it was created with
    and its [connected] flag. *)
Record Client := mkClient { session : string; connected : bool }.

(** [Api.InputDocumentFileLocation]: the handle of the remote document. *)
Record InputLocation := mkLocation {
  loc_id : Z;
  loc_accessHash : Z;
  loc_fileReference : Buffer
}.

(** What [for await (const chunk of c.iterDownload(..)) { ..; break }]
    observes: an exception, an iterator that yields nothing, or a first
    chunk. *)
Inductive download_reply :=
| DlThrow
| DlNone
| DlChunk (buf : Buffer).

(** The environment of the module.  Each transport call consumes one tick
    of [clock]; the oracles give the outcome of the call made at a tick. *)
Record World := mkWorld {
  (** [c.connect()] of the client in a slot resolves ([true]) or rejects *)
  w_connect : nat → nat → bool;
  (** [c.iterDownload({file, offset, requestSize: CHUNK_SIZE, dcId})] *)
  w_iterDownload : nat → nat → InputLocation → option Z → Z → download_reply;
  (** [res.destroyed] at the n-th test of the body loop of the handler *)
  w_destroyed : nat → bool
}.

(** Observable actions, in program order. *)
Inductive event :=
| EvConnect (slot : nat)
| EvIterDownload (slot : nat) (offset : Z)
| EvSleep (ms : Z)
| EvDownloadChunk (videoId : string) (chunkIndex : Z)
| EvSeekTo (videoId : string) (chunkIndex : Z)
| EvWriteHead (status : Z) (headers : list (string * string))
| EvWrite (data : Buffer)
| EvEnd (body : string).

(** ** Background downloader (class [StreamDownloader]) *)

Definition ceil_div (a b : Z) : Z := - ((- a) / b).

Module StreamDownloader.

Record t := mk {
  videoId : string;
  inputLocation : InputLocation;
  fileSize : Z;
  dcId : option Z;
  totalChunks : Z;
  playbackChunk : Z;
  _cursor : Z;
  _seekGeneration : Z;
  running : bool;
  (** the promises of the [_worker] invocations, by worker id *)
  _workerPromises : list nat
}.

Definition new (videoId : string) (inputLocation : InputLocation)
    (fileSize : Z) (dcId : option Z) : t :=
  {| videoId := videoId; inputLocation := inputLocation;
     fileSize := fileSize; dcId := dcId;
     totalChunks := ceil_div fileSize CHUNK_SIZE;
     playbackChunk := 0; _cursor := 0; _seekGeneration := 0;
     running := false; _workerPromises := [] |}.

(** [start(fromChunk)] where [fromChunk] lies at or behind the end of the
    file, as it does for a file of at most [PREFETCH_CHUNKS] chunks.
    [start] launches the nine [_worker] invocations, and each of them runs
    to its first await before [start] returns; there [_getNextChunk] finds
    the cursor at the end of the file, hands out nothing and leaves the
    cursor where it is, and the worker goes to sleep (the tasks of the
    runtime, see [Worker] below).  What is left of [start] are its
    assignments and the promises it keeps.  Where a worker would take a
    chunk and start its download the result is [None]: that case is not
    modelled. *)
Definition start (d : t) (fromChunk : Z) : option t :=
  if totalChunks d <=? fromChunk then
    Some {| videoId := videoId d; inputLocation := inputLocation d;
            fileSize := fileSize d; dcId := dcId d;
            totalChunks := totalChunks d;
            playbackChunk := 0; _cursor := fromChunk;
            _seekGeneration := _seekGeneration d;
            running := true;
            _workerPromises :=
              _workerPromises d ++ seq 0 (Z.to_nat PARALLEL_WORKERS) |}
  else None.

Definition stop (d : t) : t :=
  {| videoId := videoId d; inputLocation := inputLocation d;
     fileSize := fileSize d; dcId := dcId d; totalChunks := totalChunks d;
     playbackChunk := playbackChunk d; _cursor := _cursor d;
     _seekGeneration := _seekGeneration d;
     running := false;
     _workerPromises := [] |}.

Definition notifyPlayback (d : t) (chunkIndex : Z) : t :=
  let reposition :=
    (_cursor d >=? totalChunks d) || (_cursor d >? chunkIndex + LOOKAHEAD_CHUNKS) in
  {| videoId := videoId d; inputLocation := inputLocation d;
     fileSize := fileSize d; dcId := dcId d; totalChunks := totalChunks d;
     playbackChunk := chunkIndex;
     _cursor := if reposition then chunkIndex else _cursor d;
     _seekGeneration :=
       if reposition then _seekGeneration d + 1 else _seekGeneration d;
     running := running d;
     _workerPromises := _workerPromises d |}.

Definition seekTo (d : t) (chunkIndex : Z) : t :=
  {| videoId := videoId d; inputLocation := inputLocation d;
     fileSize := fileSize d; dcId := dcId d; totalChunks := totalChunks d;
     playbackChunk := chunkIndex;
     _cursor := chunkIndex;
     _seekGeneration := _seekGeneration d + 1;
     running := running d;
     _workerPromises := _workerPromises d |}.

End StreamDownloader.

(** An entry of [activeStreams].  The downloader is an object shared by the
    entry, the request handlers and its workers: the entry holds a reference
    into the store of downloaders. *)
Record StreamInfo := mkStreamInfo {
  si_inputLocation : InputLocation;
  si_fileSize : Z;
  si_mimeType : string;
  si_downloader : option nat;
  si_dcId : option Z
}.

(** Where an invocation of [_worker] is suspended: in one of its two
    [setTimeout(r, 30)] awaits, in [await downloadChunk(..)] for the index
    it reserved under the generation it saw, or not at all because its
    [while (this.running)] test has failed. *)
Inductive worker_state :=
| WSleeping
| WDownloading (gen idx : Z)
| WExited.

Record Worker := mkWorker {
  wk_downloader : nat;
  wk_id : nat;
  wk_at : worker_state
}.

(** The module-level state.  An entry of [inFlight] whose download is still
    running is represented by the value its promise settles to. *)
Record Runtime := mkRuntime {
  chunkCache : ChunkCache.t;
  inFlight : gmap string (option Buffer);
  clientPool : list Client;
  activeStreams : gmap string StreamInfo;
  downloaders : gmap nat StreamDownloader.t;
  workers : list Worker;
  clock : nat;
  trace : list event
}.

Definition with_cache (c : ChunkCache.t) (st : Runtime) : Runtime :=
  mkRuntime c (inFlight st) (clientPool st) (activeStreams st)
            (downloaders st) (workers st) (clock st) (trace st).

Definition with_inFlight (f : gmap string (option Buffer)) (st : Runtime) : Runtime :=
  mkRuntime (chunkCache st) f (clientPool st) (activeStreams st)
            (downloaders st) (workers st) (clock st) (trace st).

Definition with_pool (p : list Client) (st : Runtime) : Runtime :=
  mkRuntime (chunkCache st) (inFlight st) p (activeStreams st)
            (downloaders st) (workers st) (clock st) (trace st).

Definition with_streams (a : gmap string StreamInfo) (st : Runtime) : Runtime :=
  mkRuntime (chunkCache st) (inFlight st) (clientPool st) a
            (downloaders st) (workers st) (clock st) (trace st).

Definition with_downloaders (ds : gmap nat StreamDownloader.t) (st : Runtime)
    : Runtime :=
  mkRuntime (chunkCache st) (inFlight st) (clientPool st) (activeStreams st)
            ds (workers st) (clock st) (trace st).

Definition with_workers (ws : list Worker) (st : Runtime) : Runtime :=
  mkRuntime (chunkCache st) (inFlight st) (clientPool st) (activeStreams st)
            (downloaders st) ws (clock st) (trace st).

Definition emit (e : event) (st : Runtime) : Runtime :=
  mkRuntime (chunkCache st) (inFlight st) (clientPool st) (activeStreams st)
            (downloaders st) (workers st) (clock st) (trace st ++ [e]).

Definition tick (st : Runtime) : Runtime :=
  mkRuntime (chunkCache st) (inFlight st) (clientPool st) (activeStreams st)
            (downloaders st) (workers st) (S (clock st)) (trace st).

(** ** Connection pool lookup *)

(** [clientPool[chunkIndex % clientPool.length]], as the slot of the client
    returned; [None] stands for [undefined] (empty pool, negative index). *)
Definition getClient (pool : list Client) (chunkIndex : Z) : option nat :=
  let len := Z.of_nat (length pool) in
  if len =? 0 then None
  else let i := Z.rem chunkIndex len in
       if i <? 0 then None else Some (Z.to_nat i).

Definition mark_connected (slot : nat) (pool : list Client) : list Client :=
  match pool !! slot with
  | Some c => <[slot := mkClient (session c) true]> pool
  | None => pool
  end.

(** ** Single-chunk downloader *)

(** [200 * Math.pow(2, attempt - 1)] *)
Definition backoff (attempt : Z) : Z := 200 * 2 ^ (attempt - 1).

(** The [catch (err)] clause of an attempt. *)
Definition on_attempt_error (attempt : Z) (st : Runtime) : Runtime :=
  if attempt =? MAX_RETRIES then st else emit (EvSleep (backoff attempt)) st.

(** One round of the retry loop.  [Some buf] is [return buf]; [None] goes
    on to the next round. *)
Definition downloadAttempt (w : World) (cacheKey : string)
    (inputLocation : InputLocation) (dcId : option Z)
    (chunkIndex offset attempt : Z) (st : Runtime) : option Buffer * Runtime :=
  match getClient (clientPool st) (chunkIndex + attempt - 1) with
  | None =>
      (* [c] is undefined: [c.iterDownload] throws *)
      (None, on_attempt_error attempt st)
  | Some slot =>
      let is_connected :=
        match clientPool st !! slot with
        | Some c => connected c
        | None => true
        end in
      let '(proceed, st1) :=
        if is_connected then (true, st)
        else
          let st' := tick (emit (EvConnect slot) st) in
          if w_connect w (clock st) slot
          then (true, with_pool (mark_connected slot (clientPool st')) st')
          else if attempt <? MAX_RETRIES
               then (false, emit (EvSleep (backoff attempt)) st')
               else (true, st') in
      if proceed then
        let st2 := tick (emit (EvIterDownload slot offset) st1) in
        match w_iterDownload w (clock st1) slot inputLocation dcId offset with
        | DlThrow => (None, on_attempt_error attempt st2)
        | DlNone => (None, st2)
        | DlChunk buf =>
            if 0 <? Buffer_length buf
            then (Some buf,
                  with_cache (ChunkCache.set (chunkCache st2) cacheKey buf) st2)
            else (None, st2)
        end
      else (None, st1)
  end.

(** [for (let attempt = 1; attempt <= MAX_RETRIES; attempt++)], by the
    number of rounds that remain. *)
Fixpoint retryLoop (remaining : nat) (w : World) (cacheKey : string)
    (inputLocation : InputLocation) (dcId : option Z)
    (chunkIndex offset : Z) (st : Runtime) : option Buffer * Runtime :=
  match remaining with
  | O => (None, st)
  | S remaining' =>
      let attempt := MAX_RETRIES - Z.of_nat remaining' in
      match downloadAttempt w cacheKey inputLocation dcId chunkIndex offset attempt st with
      | (Some buf, st') => (Some buf, st')
      | (None, st') =>
          retryLoop remaining' w cacheKey inputLocation dcId chunkIndex offset st'
      end
  end.

Definition _downloadChunkImpl (w : World) (cacheKey : string)
    (inputLocation : InputLocation) (chunkIndex fileSize : Z) (dcId : option Z)
    (st : Runtime) : option Buffer * Runtime :=
  let offset := chunkIndex * CHUNK_SIZE in
  if offset >=? fileSize then (Some [], st)
  else retryLoop (Z.to_nat MAX_RETRIES) w cacheKey inputLocation dcId
         chunkIndex offset st.

(** [await inFlight.get(cacheKey)] on an entry of another task: the owner
    completes first (it has stored a non-empty result in the cache and its
    [finally] has removed the entry), then the awaiting task resumes with
    the settled value. *)
Definition awaitInFlight (cacheKey : string) (settled : option Buffer)
    (st : Runtime) : option Buffer * Runtime :=
  let cache' :=
    match settled with
    | Some buf =>
        if 0 <? Buffer_length buf
        then ChunkCache.set (chunkCache st) cacheKey buf
        else chunkCache st
    | None => chunkCache st
    end in
  (settled, with_inFlight (delete cacheKey (inFlight st)) (with_cache cache' st)).

Definition downloadChunk (w : World) (videoId : string)
    (inputLocation : InputLocation) (chunkIndex fileSize : Z) (dcId : option Z)
    (st : Runtime) : option Buffer * Runtime :=
  let st := emit (EvDownloadChunk videoId chunkIndex) st in
  let cacheKey := cacheKeyOf videoId chunkIndex in
  let '(cached, cache') := ChunkCache.get (chunkCache st) cacheKey in
  let st := with_cache cache' st in
  let hit := match cached with
             | Some b => 0 <? Buffer_length b
             | None => false
             end in
  if hit then (cached, st)
  else
    match inFlight st !! cacheKey with
    | Some settled => awaitInFlight cacheKey settled st
    | None =>
        let '(result, st') :=
          _downloadChunkImpl w cacheKey inputLocation chunkIndex fileSize dcId st in
        (* [inFlight.set(cacheKey, promise)] .. [finally inFlight.delete(cacheKey)] *)
        (result,
         with_inFlight (delete cacheKey (<[cacheKey := result]> (inFlight st'))) st')
    end.

(** ** Parallel chunk fetcher *)

(** The body of [worker()] for one index taken from the queue.  [results]
    is a [Map] from chunk index to buffer or [null], with one entry per
    index.  Its insertion order is the order in which the downloads
    complete; the model runs the downloads one after the other and does not
    fix that order, so the map is kept without it. *)
Definition fetchQueued (w : World) (videoId : string)
    (inputLocation : InputLocation) (fileSize : Z) (dcId : option Z)
    (acc : gmap Z (option Buffer) * Runtime) (idx : Z)
    : gmap Z (option Buffer) * Runtime :=
  let '(results, st) := acc in
  let cacheKey := cacheKeyOf videoId idx in
  let '(c, cache') := ChunkCache.get (chunkCache st) cacheKey in
  let st := with_cache cache' st in
  let hit := match c with
             | Some b => 0 <? Buffer_length b
             | None => false
             end in
  if hit then (<[idx := c]> results, st)
  else
    let '(buf, st') := downloadChunk w videoId inputLocation idx fileSize dcId st in
    let r := match buf with
             | Some b => if 0 <? Buffer_length b then Some b else None
             | None => None
             end in
    (<[idx := r]> results, st').

(** The workers share one queue and each takes the next index when it is
    done with the previous one; with awaits run to completion the indices
    are processed in queue order. *)
Definition downloadChunksParallel (w : World) (videoId : string)
    (inputLocation : InputLocation) (chunkIndices : list Z) (fileSize : Z)
    (dcId : option Z) (st : Runtime) : gmap Z (option Buffer) * Runtime :=
  let workerCount := Z.min PARALLEL_WORKERS (Z.of_nat (length chunkIndices)) in
  if workerCount <=? 0 then (∅, st)
  else fold_left (fetchQueued w videoId inputLocation fileSize dcId)
                 chunkIndices (∅, st).

(** ** Local HTTP streaming server: the request handler *)

Record Request := mkRequest {
  req_method : string;
  req_url : string;
  (** [req.headers.range] *)
  req_range : option string
}.

Fixpoint strip_prefix (p s : string) : option string :=
  match p, s with
  | EmptyString, _ => Some s
  | String a p', String b s' =>
      if Ascii.eqb a b then strip_prefix p' s' else None
  | String _ _, EmptyString => None
  end.

Fixpoint take_while (f : ascii → bool) (s : string) : string :=
  match s with
  | EmptyString => EmptyString
  | String a s' => if f a then String a (take_while f s') else EmptyString
  end.

Fixpoint drop_while (f : ascii → bool) (s : string) : string :=
  match s with
  | EmptyString => EmptyString
  | String a s' => if f a then drop_while f s' else s
  end.

Definition string_empty (s : string) : bool :=
  match s with EmptyString => true | String _ _ => false end.

(** [req.url.match(/^\/stream\/([^/?]+)/)], giving group 1. *)
Definition match_stream_url (url : string) : option string :=
  match strip_prefix "/stream/" url with
  | Some rest =>
      let id := take_while
                  (λ a, negb (Ascii.eqb a "/" || Ascii.eqb a "?")) rest in
      if string_empty id then None else Some id
  | None => None
  end.

(** [\d] *)
Definition is_digit (a : ascii) : bool :=
  (48 <=? nat_of_ascii a)%nat && (nat_of_ascii a <=? 57)%nat.

(** The part of the pattern behind [bytes=], anchored at the head of [s]:
    one or more digits (group 1), a dash, any number of digits (group 2).
    The match is deterministic: group 1 takes the whole run of digits, since
    a shorter run is followed by a digit and not by the dash. *)
Definition match_range_tail (s : string) : option (string * string) :=
  let d1 := take_while is_digit s in
  if string_empty d1 then None
  else match drop_while is_digit s with
       | String "-" rest => Some (d1, take_while is_digit rest)
       | _ => None
       end.

(** [rangeHeader.match(..)] with the pattern [bytes=], digits, dash,
    optional digits: the leftmost match of the unanchored pattern, giving
    groups 1 and 2. *)
Fixpoint match_range (s : string) : option (string * string) :=
  let here := match strip_prefix "bytes=" s with
              | Some tail => match_range_tail tail
              | None => None
              end in
  match here with
  | Some m => Some m
  | None => match s with
            | EmptyString => None
            | String _ s' => match_range s'
            end
  end.

(** [parseInt(s, 10)] on a string of decimal digits, as an integer.  The
    value is exact; the source has a double, which is the same number up to
    [Number.MAX_SAFE_INTEGER] = 2^53 - 1 and the nearest double beyond. *)
Fixpoint parse_digits (acc : Z) (s : string) : Z :=
  match s with
  | EmptyString => acc
  | String a s' => parse_digits (10 * acc + (Z.of_nat (nat_of_ascii a) - 48)) s'
  end.

Definition parseInt (s : string) : Z := parse_digits 0 s.

(** Truthiness of [req.headers.range]: absent and empty are falsy. *)
Definition header_present (h : option string) : bool :=
  match h with
  | Some s => negb (string_empty s)
  | None => false
  end.

(** The [start] and [end] of the handler, after the clamp of [end]. *)
Definition parseRange (rangeHeader : option string) (fileSize : Z) : Z * Z :=
  let '(start, end_) :=
    match rangeHeader with
    | Some h =>
        if string_empty h then (0, fileSize - 1)
        else match match_range h with
             | Some (m1, m2) =>
                 (parseInt m1,
                  if string_empty m2 then fileSize - 1 else parseInt m2)
             | None => (0, fileSize - 1)
             end
    | None => (0, fileSize - 1)
    end in
  (start, if end_ >=? fileSize then fileSize - 1 else end_).

Definition contentRange (start end_ fileSize : Z) : string :=
  ("bytes " ++ num_to_string start ++ "-" ++ num_to_string end_
     ++ "/" ++ num_to_string fileSize)%string.

Definition headHeaders (mimeType : string) (fileSize : Z) : list (string * string) :=
  [("Content-Type", mimeType);
   ("Content-Length", num_to_string fileSize);
   ("Accept-Ranges", "bytes");
   ("Access-Control-Allow-Origin", "*")]%string.

Definition partialHeaders (mimeType : string) (start end_ fileSize : Z)
    : list (string * string) :=
  [("Content-Type", mimeType);
   ("Content-Length", num_to_string (end_ - start + 1));
   ("Content-Range", contentRange start end_ fileSize);
   ("Accept-Ranges", "bytes");
   ("Access-Control-Allow-Origin", "*");
   ("Cache-Control", "no-cache")]%string.

Definition fullHeaders (mimeType : string) (fileSize : Z) : list (string * string) :=
  [("Content-Type", mimeType);
   ("Content-Length", num_to_string fileSize);
   ("Accept-Ranges", "bytes");
   ("Access-Control-Allow-Origin", "*");
   ("Cache-Control", "no-cache")]%string.

(** [downloader.m(..)] on the downloader object behind a reference. *)
Definition call_downloader (ref : nat)
    (m : StreamDownloader.t → StreamDownloader.t) (st : Runtime) : Runtime :=
  with_downloaders (alter m ref (downloaders st)) st.

(** Seek detection and burst pre-buffer. *)
Definition burstIndices (cache : ChunkCache.t) (videoId : string)
    (firstChunk burstEnd : Z) : list Z :=
  filter (λ bi, ChunkCache.has cache (cacheKeyOf videoId bi) = false)
         (seqZ firstChunk (burstEnd - firstChunk)).

Definition seekBurst (w : World) (videoId : string) (info : StreamInfo)
    (start : Z) (st : Runtime) : Runtime :=
  let fileSize := si_fileSize info in
  let firstChunk := start / CHUNK_SIZE in
  let totalChunks := ceil_div fileSize CHUNK_SIZE in
  if negb (ChunkCache.has (chunkCache st) (cacheKeyOf videoId firstChunk)) then
    let st :=
      match si_downloader info with
      | Some downloader =>
          call_downloader downloader
            (λ d, StreamDownloader.seekTo d firstChunk)
            (emit (EvSeekTo videoId firstChunk) st)
      | None => st
      end in
    let burstEnd := Z.min (firstChunk + SEEK_PREBUF_CHUNKS) totalChunks in
    let indices := burstIndices (chunkCache st) videoId firstChunk burstEnd in
    if (0 <? Z.of_nat (length indices))
    then (downloadChunksParallel w videoId (si_inputLocation info) indices
            fileSize (si_dcId info) st).2
    else st
  else st.

(** Cache, then in-flight await, then inline download, for one round of the
    body loop. *)
Definition obtainChunk (w : World) (videoId : string) (info : StreamInfo)
    (chunkIndex : Z) (st : Runtime) : option Buffer * Runtime :=
  let cacheKey := cacheKeyOf videoId chunkIndex in
  let '(chunkBuf, cache') := ChunkCache.get (chunkCache st) cacheKey in
  let st := with_cache cache' st in
  let '(chunkBuf, st) :=
    match chunkBuf, inFlight st !! cacheKey with
    | None, Some settled => awaitInFlight cacheKey settled st
    | _, _ => (chunkBuf, st)
    end in
  match chunkBuf with
  | None =>
      downloadChunk w videoId (si_inputLocation info) chunkIndex
        (si_fileSize info) (si_dcId info) st
  | Some _ => (chunkBuf, st)
  end.

(** The body loop.  [round] counts the tests of the loop condition; [None]
    is a run that needs more fuel. *)
Fixpoint serveLoop (fuel : nat) (w : World) (videoId : string)
    (info : StreamInfo) (targetEnd bytePos consecutiveFailures : Z)
    (round : nat) (st : Runtime) : option Runtime :=
  match fuel with
  | O => None
  | S fuel' =>
      if (bytePos <? targetEnd) && negb (w_destroyed w round) then
        let chunkIndex := bytePos / CHUNK_SIZE in
        let offsetInChunk := Z.rem bytePos CHUNK_SIZE in
        let st :=
          match si_downloader info with
          | Some downloader =>
              call_downloader downloader
                (λ d, StreamDownloader.notifyPlayback d chunkIndex) st
          | None => st
          end in
        let '(chunkBuf, st) := obtainChunk w videoId info chunkIndex st in
        let failed := match chunkBuf with
                      | Some b => Buffer_length b =? 0
                      | None => true
                      end in
        if failed then
          let consecutiveFailures := consecutiveFailures + 1 in
          if consecutiveFailures >=? MAX_CONSECUTIVE_FAILURES then Some st
          else serveLoop fuel' w videoId info targetEnd bytePos
                 consecutiveFailures (S round) (emit (EvSleep 500) st)
        else
          let buf := default [] chunkBuf in
          let remaining := targetEnd - bytePos in
          let available := Buffer_length buf - offsetInChunk in
          let toWrite := Z.min available remaining in
          if toWrite <=? 0 then Some st
          else serveLoop fuel' w videoId info targetEnd (bytePos + toWrite) 0
                 (S round)
                 (emit (EvWrite (Buffer_slice buf offsetInChunk
                                   (offsetInChunk + toWrite))) st)
      else Some st
  end.

(** Rounds the body loop can take: every round either writes at least one
    byte or counts a failure, and five failures in a row end the loop. *)
Definition serveFuel (start targetEnd : Z) : nat :=
  Z.to_nat (MAX_CONSECUTIVE_FAILURES * Z.max 0 (targetEnd - start) + 1).

(** The request listener of [http.createServer]. *)
Definition handleRequest (w : World) (req : Request) (st : Runtime)
    : option Runtime :=
  match match_stream_url (req_url req) with
  | None => Some (emit (EvEnd "Not found") (emit (EvWriteHead 404 []) st))
  | Some videoId =>
      match activeStreams st !! videoId with
      | None =>
          Some (emit (EvEnd "Stream not registered")
                  (emit (EvWriteHead 404 []) st))
      | Some info =>
          let fileSize := si_fileSize info in
          let mimeType := si_mimeType info in
          if String.eqb (req_method req) "HEAD" then
            Some (emit (EvEnd "")
                    (emit (EvWriteHead 200 (headHeaders mimeType fileSize)) st))
          else
            let '(start, end_) := parseRange (req_range req) fileSize in
            let st :=
              if header_present (req_range req)
              then emit (EvWriteHead 206
                           (partialHeaders mimeType start end_ fileSize)) st
              else emit (EvWriteHead 200 (fullHeaders mimeType fileSize)) st in
            let st := seekBurst w videoId info start st in
            let targetEnd := end_ + 1 in
            match serveLoop (serveFuel start targetEnd) w videoId info
                    targetEnd start 0 0 st with
            | Some st => Some (emit (EvEnd "") st)
            | None => None
            end
      end
  end.

(** Projections of a trace. *)
Definition writes (tr : list event) : list Buffer :=
  omap (λ e, match e with EvWrite b => Some b | _ => None end) tr.

Definition body_of (tr : list event) : Buffer := concat (writes tr).

Definition fetch_calls (tr : list event) : list Z :=
  omap (λ e, match e with EvDownloadChunk _ i => Some i | _ => None end) tr.

Definition heads (tr : list event) : list (Z * list (string * string)) :=
  omap (λ e, match e with EvWriteHead s h => Some (s, h) | _ => None end) tr.

(** Chunk [i] of a stream with the given content. *)
Definition chunk_of (content : Buffer) (i : Z) : Buffer :=
  Buffer_slice content (i * CHUNK_SIZE)
    (Z.min ((i + 1) * CHUNK_SIZE) (Buffer_length content)).

(** ** Vocabulary of the statements *)

Definition seeks (tr : list event) : list Z :=
  omap (λ e, match e with EvSeekTo _ i => Some i | _ => None end) tr.

Definition sleeps (tr : list event) : list Z :=
  omap (λ e, match e with EvSleep ms => Some ms | _ => None end) tr.

(** Slots of the clients that were asked for a download, in order. *)
Definition download_slots (tr : list event) : list nat :=
  omap (λ e, match e with EvIterDownload s _ => Some s | _ => None end) tr.

(** What the fetch path does to the runtime, whatever the transport
    answers: it appends a trace [tr] without response events, leaves the
    registered streams alone, keeps the cache well formed and adds to the
    cache no key outside [keys]. *)
Record fetch_frame (keys : list string) (st st' : Runtime) (tr : list event)
    : Prop := mkFrame {
  ff_trace : trace st' = trace st ++ tr;
  ff_writes : writes tr = [];
  ff_heads : heads tr = [];
  ff_seeks : seeks tr = [];
  ff_streams : activeStreams st' = activeStreams st;
  ff_wf : cache_wf (chunkCache st) → cache_wf (chunkCache st');
  ff_keys : cache_wf (chunkCache st) →
            ∀ k, ChunkCache.has (chunkCache st') k = true →
                 k ∈ keys ∨ ChunkCache.has (chunkCache st) k = true
}.

(** The stream served by the transport has the bytes [content]: every
    download of a chunk inside the file yields that chunk. *)
Definition serves (w : World) (content : Buffer) : Prop :=
  ∀ t slot loc dc i,
    0 <= i → i * CHUNK_SIZE < Buffer_length content →
    w_iterDownload w t slot loc dc (i * CHUNK_SIZE) = DlChunk (chunk_of content i).

(** The cache and the in-flight registry hold nothing but chunks of
    [content] under the keys of [videoId]. *)
Definition cache_coherent (videoId : string) (content : Buffer)
    (c : ChunkCache.t) : Prop :=
  ∀ i b, 0 <= i →
         JsMap.get (ChunkCache.map c) (cacheKeyOf videoId i) = Some b →
         b = chunk_of content i.

Definition inFlight_coherent (videoId : string) (content : Buffer)
    (f : gmap string (option Buffer)) : Prop :=
  ∀ i v, 0 <= i → f !! cacheKeyOf videoId i = Some v →
         v = None ∨ v = Some (chunk_of content i).

(** [Number.MAX_SAFE_INTEGER]: up to here the integers of the embedding are
    the numbers of the program. *)
Definition MAX_SAFE_INTEGER : Z := 2 ^ 53 - 1.

(** A pool in which every lookup finds a connected client. *)
Definition pool_ready (pool : list Client) : Prop :=
  pool ≠ [] ∧ Forall (λ c, connected c = true) pool.

Record healthy (videoId : string) (content : Buffer) (st : Runtime) : Prop :=
  mkHealthy {
  h_wf : cache_wf (chunkCache st);
  h_cache : cache_coherent videoId content (chunkCache st);
  h_inFlight : inFlight_coherent videoId content (inFlight st);
  h_pool : pool_ready (clientPool st)
}.

(** ** A small instance: one registered stream of eight bytes *)

Definition demo_location : InputLocation := mkLocation 1 2 [].

Definition demo_content : Buffer :=
  [Byte.x01; Byte.x02; Byte.x03; Byte.x04; Byte.x05; Byte.x06; Byte.x07;
   Byte.x08].

(** A transport that always connects and serves [demo_content], with a
    client that never closes the connection. *)
Definition demo_world : World :=
  mkWorld (λ _ _, true)
          (λ _ _ _ _ offset,
             DlChunk (Buffer_slice demo_content offset
                        (Z.min (offset + CHUNK_SIZE) (Buffer_length demo_content))))
          (λ _, false).

Definition demo_pool : list Client :=
  [mkClient "session" true; mkClient "session" true; mkClient "session" true].

Definition demo_info : StreamInfo :=
  mkStreamInfo demo_location 8 "video/mp4" (Some 0%nat) None.

(** The downloader of the stream as [startTelegramStream] makes it:
    [new StreamDownloader(..)], then [start(PREFETCH_CHUNKS)]. *)
Definition demo_downloader : StreamDownloader.t :=
  let d := StreamDownloader.new "v" demo_location 8 None in
  default d (StreamDownloader.start d PREFETCH_CHUNKS).

(** The runtime after [startTelegramStream] for the stream ["v"], with an
    empty cache and its nine workers asleep. *)
Definition demo_state : Runtime :=
  mkRuntime (ChunkCache.new CACHE_MAX_BYTES) ∅ demo_pool
            {[ "v"%string := demo_info ]}
            {[ 0%nat := demo_downloader ]}
            ((λ i, mkWorker 0 i WSleeping) <$> seq 0 (Z.to_nat PARALLEL_WORKERS))
            0 [].

Definition demo_get (range : option string) : Request :=
  mkRequest "GET" "/stream/v" range.

(** ** Workers of the background downloader *)

(** The scan of [_getNextChunk()].  [scanned] stays below
    [LOOKAHEAD_CHUNKS], so that many rounds of fuel always suffice. *)
Fixpoint scanNextChunk (fuel : nat) (cache : ChunkCache.t)
    (registry : gmap string (option Buffer)) (limit scanned : Z)
    (d : StreamDownloader.t) : option Z * StreamDownloader.t :=
  match fuel with
  | O => (None, d)
  | S fuel' =>
      if (StreamDownloader._cursor d <? StreamDownloader.totalChunks d)
         && (StreamDownloader._cursor d <=? limit)
         && (scanned <? LOOKAHEAD_CHUNKS)
      then
        let idx := StreamDownloader._cursor d in
        let d :=
          StreamDownloader.mk (StreamDownloader.videoId d)
            (StreamDownloader.inputLocation d) (StreamDownloader.fileSize d)
            (StreamDownloader.dcId d) (StreamDownloader.totalChunks d)
            (StreamDownloader.playbackChunk d) (idx + 1)
            (StreamDownloader._seekGeneration d) (StreamDownloader.running d)
            (StreamDownloader._workerPromises d) in
        let key := cacheKeyOf (StreamDownloader.videoId d) idx in
        if negb (ChunkCache.has cache key)
           && negb (bool_decide (is_Some (registry !! key)))
        then (Some idx, d)
        else scanNextChunk fuel' cache registry limit (scanned + 1) d
      else (None, d)
  end.

Definition _getNextChunk (cache : ChunkCache.t)
    (registry : gmap string (option Buffer)) (d : StreamDownloader.t)
    : option Z * StreamDownloader.t :=
  let limit := StreamDownloader.playbackChunk d + LOOKAHEAD_CHUNKS in
  scanNextChunk (Z.to_nat LOOKAHEAD_CHUNKS) cache registry limit 0 d.

(** The loop of [_worker] from its [while (this.running)] test up to its
    next await.  A download the worker starts is run to completion; when the
    generation has changed meanwhile the loop goes round again ([continue]),
    which [rounds] bounds. *)
Fixpoint workerRun (rounds : nat) (w : World) (ref : nat) (st : Runtime)
    : option (worker_state * Runtime) :=
  match rounds with
  | O => None
  | S rounds' =>
      match downloaders st !! ref with
      | None => Some (WExited, st)
      | Some d =>
          if StreamDownloader.running d then
            let gen := StreamDownloader._seekGeneration d in
            let '(idx, d') := _getNextChunk (chunkCache st) (inFlight st) d in
            let st := with_downloaders (<[ref := d']> (downloaders st)) st in
            match idx with
            | None => Some (WSleeping, st)
            | Some idx =>
                let st :=
                  (downloadChunk w (StreamDownloader.videoId d)
                     (StreamDownloader.inputLocation d) idx
                     (StreamDownloader.fileSize d) (StreamDownloader.dcId d)
                     st).2 in
                match downloaders st !! ref with
                | Some d'' =>
                    if gen =? StreamDownloader._seekGeneration d''
                    then Some (WSleeping, st)
                    else workerRun rounds' w ref st
                | None => Some (WExited, st)
                end
            end
          else Some (WExited, st)
      end
  end.

(** A suspended worker is resumed.  Out of [await downloadChunk(..)] its
    download has settled: the chunk is in the cache and the in-flight entry
    is gone. *)
Definition resumeWorker (rounds : nat) (w : World) (wk : Worker) (st : Runtime)
    : option (worker_state * Runtime) :=
  match wk_at wk with
  | WExited => Some (WExited, st)
  | WSleeping => workerRun rounds w (wk_downloader wk) st
  | WDownloading gen idx =>
      match downloaders st !! wk_downloader wk with
      | None => Some (WExited, st)
      | Some d =>
          let key := cacheKeyOf (StreamDownloader.videoId d) idx in
          let st :=
            match inFlight st !! key with
            | Some settled => (awaitInFlight key settled st).2
            | None => st
            end in
          if gen =? StreamDownloader._seekGeneration d
          then Some (WSleeping, st)
          else workerRun rounds w (wk_downloader wk) st
      end
  end.

(** The event loop resumes the [n]-th worker. *)
Definition stepWorker (rounds : nat) (w : World) (n : nat) (st : Runtime)
    : option Runtime :=
  match workers st !! n with
  | None => Some st
  | Some wk =>
      match resumeWorker rounds w wk st with
      | Some (at', st') =>
          Some (with_workers
                  (<[n := mkWorker (wk_downloader wk) (wk_id wk) at']>
                     (workers st')) st')
      | None => None
      end
  end.

(** ** Public API: [stopStream] *)

Definition stopStream (videoId : string) (st : Runtime) : Runtime :=
  let st :=
    match activeStreams st !! videoId with
    | Some streamInfo =>
        match si_downloader streamInfo with
        | Some downloader =>
            call_downloader downloader StreamDownloader.stop st
        | None => st
        end
    | None => st
    end in
  let st := with_streams (delete videoId (activeStreams st)) st in
  with_cache (ChunkCache.deletePrefix (chunkCache st) (videoId ++ ":")) st.

(** Every worker of a downloader has left its loop. *)
Definition workers_terminated (ref : nat) (st : Runtime) : Prop :=
  Forall (λ wk, wk_downloader wk = ref → wk_at wk = WExited) (workers st).

(** The small instance with worker 0 suspended in the download of chunk 0,
    which will settle with the chunk. *)
Definition demo_busy_state : Runtime :=
  with_inFlight {[ cacheKeyOf "v" 0 := Some demo_content ]}
    (with_workers (<[0%nat := mkWorker 0 0 (WDownloading 0 0)]>
                     (workers demo_state)) demo_state).

(** A transport whose first download yields no chunk and whose later
    downloads serve [demo_content]. *)
Definition demo_empty_once_world : World :=
  mkWorld (λ _ _, true)
          (λ t _ _ _ offset,
             match t with
             | O => DlNone
             | S _ =>
                 DlChunk (Buffer_slice demo_content offset
                            (Z.min (offset + CHUNK_SIZE)
                               (Buffer_length demo_content)))
             end)
          (λ _, false).

(** ** Concurrent calls of [downloadChunk] on the event loop

    JavaScript runs a task without interruption up to its next [await].
    The calls of [downloadChunk] are therefore interleaved at three points
    only: the synchronous prefix of a call (cache lookup, registry lookup,
    start of [_downloadChunkImpl], [inFlight.set]); the end of the download
    behind a promise (where [_downloadChunkImpl] stores a non-empty result in
    the cache); and the continuation of a call behind its [await] (where the
    call that created the promise runs its [finally]). *)

Inductive promise_state :=
| Pending
| Settled (result : option Buffer).

(** A promise returned by [_downloadChunkImpl]; [pr_remote] tells whether
    the invocation entered the retry loop, that is, whether a download from
    the remote store stands behind it. *)
Record Promise := mkPromise {
  pr_key : string;
  pr_state : promise_state;
  pr_remote : bool
}.

(** Where a call of [downloadChunk] is. *)
Inductive call_state :=
| Returned (result : option Buffer)
| AwaitingOwn (p : nat)
| AwaitingOther (p : nat).

Record Call := mkCall { cl_key : string; cl_at : call_state }.

Record Loop := mkLoop {
  lp_cache : ChunkCache.t;
  (** [inFlight]: cache key to promise *)
  lp_inFlight : gmap string nat;
  lp_promises : list Promise;
  lp_calls : list Call
}.

Definition loop_init (cache : ChunkCache.t) : Loop := mkLoop cache ∅ [] [].

(** The synchronous prefix of [downloadChunk(videoId, .., chunkIndex,
    fileSize, ..)]. *)
Definition arrive (videoId : string) (chunkIndex fileSize : Z) (s : Loop) : Loop :=
  let cacheKey := cacheKeyOf videoId chunkIndex in
  let '(cached, cache') := ChunkCache.get (lp_cache s) cacheKey in
  let hit := match cached with
             | Some b => 0 <? Buffer_length b
             | None => false
             end in
  if hit then
    mkLoop cache' (lp_inFlight s) (lp_promises s)
           (lp_calls s ++ [mkCall cacheKey (Returned cached)])
  else
    match lp_inFlight s !! cacheKey with
    | Some p =>
        (* piggy-back on the download that is under way *)
        mkLoop cache' (lp_inFlight s) (lp_promises s)
               (lp_calls s ++ [mkCall cacheKey (AwaitingOther p)])
    | None =>
        let offset := chunkIndex * CHUNK_SIZE in
        let p := length (lp_promises s) in
        let promise :=
          if offset >=? fileSize
          then mkPromise cacheKey (Settled (Some [])) false
          else mkPromise cacheKey Pending true in
        mkLoop cache' (<[cacheKey := p]> (lp_inFlight s))
               (lp_promises s ++ [promise])
               (lp_calls s ++ [mkCall cacheKey (AwaitingOwn p)])
    end.

(** What [_downloadChunkImpl] can return out of its retry loop: a
    non-empty buffer or [null]. *)
Definition download_result_ok (result : option Buffer) : bool :=
  match result with
  | Some buf => 0 <? Buffer_length buf
  | None => true
  end.

(** The download behind promise [p] ends with [result]. *)
Definition settle (p : nat) (result : option Buffer) (s : Loop) : option Loop :=
  match lp_promises s !! p with
  | Some (mkPromise key Pending remote) =>
      if download_result_ok result then
        let cache' :=
          match result with
          | Some buf => ChunkCache.set (lp_cache s) key buf
          | None => lp_cache s
          end in
        Some (mkLoop cache' (lp_inFlight s)
                (<[p := mkPromise key (Settled result) remote]> (lp_promises s))
                (lp_calls s))
      else None
  | _ => None
  end.

(** The call [c] continues behind its [await]; the call that owns the
    promise runs [finally { inFlight.delete(cacheKey) }]. *)
Definition resume (c : nat) (s : Loop) : option Loop :=
  match lp_calls s !! c with
  | Some (mkCall key (AwaitingOwn p)) =>
      match lp_promises s !! p with
      | Some (mkPromise _ (Settled result) _) =>
          Some (mkLoop (lp_cache s) (delete key (lp_inFlight s)) (lp_promises s)
                  (<[c := mkCall key (Returned result)]> (lp_calls s)))
      | _ => None
      end
  | Some (mkCall key (AwaitingOther p)) =>
      match lp_promises s !! p with
      | Some (mkPromise _ (Settled result) _) =>
          Some (mkLoop (lp_cache s) (lp_inFlight s) (lp_promises s)
                  (<[c := mkCall key (Returned result)]> (lp_calls s)))
      | _ => None
      end
  | _ => None
  end.

(** The turns of the event loop that matter here; [UseCache] is a use of
    the cache by another component (promotion, purge, eviction). *)
Inductive turn :=
| Arrive (videoId : string) (chunkIndex fileSize : Z)
| Settle (p : nat) (result : option Buffer)
| Resume (c : nat)
| UseCache (op : cache_op).

Definition loop_step (s : Loop) (t : turn) : option Loop :=
  match t with
  | Arrive videoId chunkIndex fileSize =>
      Some (arrive videoId chunkIndex fileSize s)
  | Settle p result => settle p result s
  | Resume c => resume c s
  | UseCache op =>
      Some (mkLoop (cache_step (lp_cache s) op) (lp_inFlight s)
              (lp_promises s) (lp_calls s))
  end.

Fixpoint loop_run (s : Loop) (ts : list turn) : option Loop :=
  match ts with
  | [] => Some s
  | t :: ts' =>
      match loop_step s t with
      | Some s' => loop_run s' ts'
      | None => None
      end
  end.

(** Downloads from the remote store started so far for a key. *)
Definition fetches (key : string) (s : Loop) : nat :=
  length (filter (λ pr, pr_key pr = key ∧ pr_remote pr = true) (lp_promises s)).

(** [downloadChunk] misses the cache on a key. *)
Definition cache_miss (c : ChunkCache.t) (key : string) : Prop :=
  match JsMap.get (ChunkCache.map c) key with
  | Some b => Buffer_length b = 0
  | None => True
  end.

(** The registry invariant: a call that awaits its own promise is the one
    registered under its key, a promise has one such call at most, and a
    pending promise has one. *)
Record registry_ok (s : Loop) : Prop := mkRegistryOk {
  ro_wf : cache_wf (lp_cache s);
  ro_owner : ∀ c key p,
    lp_calls s !! c = Some (mkCall key (AwaitingOwn p)) →
    lp_inFlight s !! key = Some p ∧
    ∃ pr, lp_promises s !! p = Some pr ∧ pr_key pr = key;
  ro_unique : ∀ c c' key key' p,
    lp_calls s !! c = Some (mkCall key (AwaitingOwn p)) →
    lp_calls s !! c' = Some (mkCall key' (AwaitingOwn p)) →
    c = c';
  ro_pending : ∀ p pr,
    lp_promises s !! p = Some pr → pr_state pr = Pending →
    ∃ c, lp_calls s !! c = Some (mkCall (pr_key pr) (AwaitingOwn p))
}.

(** [n + 1] calls of [downloadChunk] for one chunk made in a row. *)
Fixpoint arrivals (n : nat) (videoId : string) (chunkIndex fileSize : Z)
    (s : Loop) : Loop :=
  match n with
  | O => arrive videoId chunkIndex fileSize s
  | S n' =>
      arrive videoId chunkIndex fileSize
        (arrivals n' videoId chunkIndex fileSize s)
  end.

(** ** Connection pool: [ensureClientPool] *)

(** What [c.start({ botAuthToken })] observes of its authentication
    exchange ([auth.ImportBotAuthorization]): accepted with a session,
    rejected with a FLOOD error that carries [seconds], or failed in another
    way. *)
Inductive start_reply :=
| StartOk (session : string)
| StartFlood (seconds : Z)
| StartError.

(** The transport and the file system as the pool sees them; every call
    consumes one tick of the clock of the pool. *)
Record PoolWorld := mkPoolWorld {
  pw_start : nat → start_reply;
  (** [c.connect()] of a client made from a stored session resolves *)
  pw_connect : nat → string → bool;
  (** [c.session.save()] of such a client once it is connected *)
  pw_session : nat → string → string;
  (** [test.getMe()] resolves *)
  pw_getMe : nat → bool;
  (** [fs.writeFileSync(SESSION_FILE, ..)] succeeds *)
  pw_write : nat → bool
}.

(** Which client a call of [createClientWithSession] is for: slot 0 of the
    pool, or one of the clones. *)
Inductive role := Primary | Clone.

Inductive pool_event :=
| PeStart (r : role) (reply : start_reply)
| PeConnect (r : role) (session : string) (ok : bool)
| PeGetMe (ok : bool)
| PeWait (seconds : Z)
| PeSave (session : string) (ok : bool).

(** [clientPool], the [session] field of [tg-session.json] when the file
    exists and parses, the clock and the log of the pool. *)
Record PoolState := mkPoolState {
  ps_clientPool : list Client;
  ps_sessionFile : option string;
  ps_clock : nat;
  ps_log : list pool_event
}.

Definition pool_emit (e : pool_event) (st : PoolState) : PoolState :=
  mkPoolState (ps_clientPool st) (ps_sessionFile st) (S (ps_clock st))
              (ps_log st ++ [e]).

Definition pool_set (pool : list Client) (st : PoolState) : PoolState :=
  mkPoolState pool (ps_sessionFile st) (ps_clock st) (ps_log st).

(** An exception on the way: a FLOOD error with its [seconds], or any
    other error. *)
Inductive failure :=
| Flood (seconds : Z)
| OtherError.

(** [loadSavedSession()]; the empty string stands for [null], which the
    callers do not tell apart from it. *)
Definition loadSavedSession (st : PoolState) : string :=
  match ps_sessionFile st with
  | Some s => s
  | None => ""
  end.

(** [saveSession(sessionStr)]; a failure to write is logged and swallowed. *)
Definition saveSession (w : PoolWorld) (sessionStr : string) (st : PoolState)
    : PoolState :=
  let ok := pw_write w (ps_clock st) in
  let st' := pool_emit (PeSave sessionStr ok) st in
  if ok
  then mkPoolState (ps_clientPool st') (Some sessionStr) (ps_clock st') (ps_log st')
  else st'.

Definition createClientWithSession (w : PoolWorld) (r : role)
    (sessionStr : string) (st : PoolState) : (Client + failure) * PoolState :=
  if negb (string_empty sessionStr) then
    (* the session holds the auth key: connect, no auth RPC *)
    let ok := pw_connect w (ps_clock st) sessionStr in
    let st' := pool_emit (PeConnect r sessionStr ok) st in
    if ok
    then (inl (mkClient (pw_session w (ps_clock st) sessionStr) true), st')
    else (inr OtherError, st')
  else
    (* fresh authentication *)
    let reply := pw_start w (ps_clock st) in
    let st' := pool_emit (PeStart r reply) st in
    match reply with
    | StartOk s => (inl (mkClient s true), st')
    | StartFlood seconds => (inr (Flood seconds), st')
    | StartError => (inr OtherError, st')
    end.

(** [while (!primary)]: authenticate, and after a FLOOD error wait
    [seconds + 5] (in slices of at most 30 s) and try again.  The loop runs
    as long as the server answers FLOOD, hence the fuel. *)
Fixpoint authenticate (fuel : nat) (w : PoolWorld) (st : PoolState)
    : option ((Client + failure) * PoolState) :=
  match fuel with
  | O => None
  | S fuel' =>
      match createClientWithSession w Primary "" st with
      | (inl primary, st') => Some (inl primary, st')
      | (inr (Flood seconds), st') =>
          if seconds =? 0 then Some (inr (Flood seconds), st')
          else
            let waitSec := seconds + 5 in
            authenticate fuel' w
              (if 0 <? waitSec then pool_emit (PeWait waitSec) st' else st')
      | (inr OtherError, st') => Some (inr OtherError, st')
      end
  end.

(** The clones of slots [clientPool.length .. CLIENT_POOL_SIZE - 1]; a
    clone that fails is left out. *)
Fixpoint cloneClients (n : nat) (w : PoolWorld) (masterSession : string)
    (st : PoolState) : list Client * PoolState :=
  match n with
  | O => ([], st)
  | S n' =>
      match createClientWithSession w Clone masterSession st with
      | (inl c, st') =>
          let '(cs, st'') := cloneClients n' w masterSession st' in
          (c :: cs, st'')
      | (inr _, st') => cloneClients n' w masterSession st'
      end
  end.

Definition alive (pool : list Client) : Z :=
  Z.of_nat (length (filter (λ c, connected c = true) pool)).

Inductive outcome := Resolved | Rejected.

Definition ensureClientPool (fuel : nat) (w : PoolWorld) (st : PoolState)
    : option (outcome * PoolState) :=
  if alive (ps_clientPool st) >=? CLIENT_POOL_SIZE then Some (Resolved, st)
  else
    let saved := loadSavedSession st in
    (* try the saved session first *)
    let '(masterSession, st) :=
      if negb (string_empty saved) then
        match createClientWithSession w Primary saved st with
        | (inl test, st1) =>
            let ok := pw_getMe w (ps_clock st1) in
            let st2 := pool_emit (PeGetMe ok) st1 in
            if ok then
              let updatedSession := session test in
              let st3 :=
                if String.eqb updatedSession saved then st2
                else saveSession w updatedSession st2 in
              (updatedSession, pool_set [test] st3)
            else ("", pool_set [] st2)
        | (inr _, st1) => ("", pool_set [] st1)
        end
      else (saved, st) in
    (* no saved session, or a stale one: authenticate once *)
    let authenticated :=
      if string_empty masterSession then
        match authenticate fuel w st with
        | Some (inl primary, st1) =>
            let masterSession := session primary in
            Some (inl (masterSession,
                       pool_set [primary] (saveSession w masterSession st1)))
        | Some (inr e, st1) => Some (inr st1)
        | None => None
        end
      else Some (inl (masterSession, st)) in
    match authenticated with
    | None => None
    | Some (inr st) => Some (Rejected, st)
    | Some (inl (masterSession, st)) =>
        let n := Z.to_nat (CLIENT_POOL_SIZE - Z.of_nat (length (ps_clientPool st))) in
        let '(clones, st') := cloneClients n w masterSession st in
        Some (Resolved, pool_set (ps_clientPool st' ++ clones) st')
    end.

(** What happens to the pool during a process run in which the calls are
    awaited one after the other: a caller calls [ensureClientPool] and the
    call runs to its end before anything else happens, the connection of a
    client goes down or comes back, or [destroy()] empties the pool.  Calls
    that overlap are the matter of [calls_step] below. *)
Inductive pool_action :=
| Ensure
| SetConnected (slot : nat) (up : bool)
| Destroy.

Definition pool_step (fuel : nat) (w : PoolWorld) (st : PoolState)
    (a : pool_action) : option PoolState :=
  match a with
  | Ensure =>
      match ensureClientPool fuel w st with
      | Some (_, st') => Some st'
      | None => None
      end
  | SetConnected slot up =>
      Some (pool_set
              (match ps_clientPool st !! slot with
               | Some c => <[slot := mkClient (session c) up]> (ps_clientPool st)
               | None => ps_clientPool st
               end) st)
  | Destroy => Some (pool_set [] st)
  end.

Fixpoint pool_run (fuel : nat) (w : PoolWorld) (st : PoolState)
    (actions : list pool_action) : option PoolState :=
  match actions with
  | [] => Some st
  | a :: actions' =>
      match pool_step fuel w st a with
      | Some st' => pool_run fuel w st' actions'
      | None => None
      end
  end.

(** The process starts with an empty pool. *)
Definition pool_init (file : option string) : PoolState :=
  mkPoolState [] file 0 [].

(** Authentication exchanges in a log: all of them, and the accepted
    ones. *)
Definition auth_exchanges (log : list pool_event) : list (role * start_reply) :=
  omap (λ e, match e with PeStart r reply => Some (r, reply) | _ => None end) log.

Definition is_accepted (x : role * start_reply) : bool :=
  match x.2 with StartOk _ => true | _ => false end.

Definition accepted (log : list pool_event) : nat :=
  length (List.filter is_accepted (auth_exchanges log)).

Definition by_clone (x : role * start_reply) : bool :=
  match x.1 with Clone => true | Primary => false end.

(** A transport on which credentials in [valid] stay usable, and a
    credential file that can be written. *)
Record reliable (w : PoolWorld) (valid : string → Prop) : Prop := mkReliable {
  rel_nonempty : ∀ s, valid s → string_empty s = false;
  rel_start : ∀ t s, pw_start w t = StartOk s → valid s;
  rel_connect : ∀ t s, valid s → pw_connect w t s = true;
  rel_session : ∀ t s, valid s → valid (pw_session w t s);
  rel_getMe : ∀ t, pw_getMe w t = true;
  rel_write : ∀ t, pw_write w t = true
}.

(** A step that performs no authentication exchange and leaves the
    credential file alone. *)
Definition no_auth (st st' : PoolState) : Prop :=
  ps_sessionFile st' = ps_sessionFile st ∧
  auth_exchanges (ps_log st') = auth_exchanges (ps_log st).

(** A transport that rejects the first authentication with FLOOD and then
    accepts, with the credential ["k"]. *)
Definition demo_pool_world : PoolWorld :=
  mkPoolWorld (λ t, match t with O => StartFlood 2 | S _ => StartOk "k" end)
              (λ _ _, true) (λ _ s, s) (λ _, true) (λ _, true).

(** ** Calls of [ensureClientPool] that overlap *)

(** [ensureClientPool] is an async function and nothing guards it: a call
    is suspended at each of its awaits, and until the event loop resumes it
    other calls can start or go on, on the same [clientPool] and the same
    credential file.  Where a call is suspended, with the local variables it
    still needs: *)
Inductive call_point :=
| AtConnect (masterSession : string)
    (** [await c.connect()] of the test client made from the saved session *)
| AtGetMe (test : Client) (masterSession : string)
    (** [await test.getMe()] *)
| AtStart
    (** [await c.start(..)] in [while (!primary)] *)
| AtWait (waitSec : Z)
    (** the countdown behind a FLOOD error; its timers touch no state *)
| AtClones (n : nat) (masterSession : string)
    (** [await Promise.all(clonePromises)], with [n] clones on their way *)
| Finished (o : outcome).

(** A call: whether it found no saved session when it started, so that it
    went to authenticate, and where it is. *)
Record pool_call := mkPoolCall {
  pc_fresh : bool;
  pc_at : call_point
}.

(** A call from its first line to its first await.  Nothing is written
    before that await. *)
Definition call_start (st : PoolState) : pool_call :=
  if alive (ps_clientPool st) >=? CLIENT_POOL_SIZE
  then mkPoolCall false (Finished Resolved)
  else
    let saved := loadSavedSession st in
    if negb (string_empty saved) then mkPoolCall false (AtConnect saved)
    else mkPoolCall true AtStart.

(** The clones to make once [clientPool] holds the primary. *)
Definition clones_needed (st : PoolState) : nat :=
  Z.to_nat (CLIENT_POOL_SIZE - Z.of_nat (length (ps_clientPool st))).

(** A call from the await it is suspended at to its next await or to its
    end, on the state as it is when the call is resumed.  The transport
    answers at the tick at which the call is resumed.  What runs between two
    awaits runs in one piece; the awaits inside [createClientWithSession]
    and the timers of the countdown touch neither [clientPool] nor the
    credential file, so each of them is part of the await of the call around
    it. *)
Definition call_resume (w : PoolWorld) (p : call_point) (st : PoolState)
    : call_point * PoolState :=
  match p with
  | AtConnect saved =>
      match createClientWithSession w Primary saved st with
      | (inl test, st1) => (AtGetMe test saved, st1)
      | (inr _, st1) => (AtStart, pool_set [] st1)
      end
  | AtGetMe test saved =>
      let ok := pw_getMe w (ps_clock st) in
      let st2 := pool_emit (PeGetMe ok) st in
      if ok then
        let updatedSession := session test in
        let st3 :=
          if String.eqb updatedSession saved then st2
          else saveSession w updatedSession st2 in
        let st4 := pool_set [test] st3 in
        if string_empty updatedSession then (AtStart, st4)
        else (AtClones (clones_needed st4) updatedSession, st4)
      else (AtStart, pool_set [] st2)
  | AtStart =>
      match createClientWithSession w Primary "" st with
      | (inl primary, st1) =>
          let masterSession := session primary in
          let st2 := pool_set [primary] (saveSession w masterSession st1) in
          (AtClones (clones_needed st2) masterSession, st2)
      | (inr (Flood seconds), st1) =>
          if seconds =? 0 then (Finished Rejected, st1)
          else
            let waitSec := seconds + 5 in
            if 0 <? waitSec then (AtWait waitSec, pool_emit (PeWait waitSec) st1)
            else (AtStart, st1)
      | (inr OtherError, st1) => (Finished Rejected, st1)
      end
  | AtWait _ => (AtStart, st)
  | AtClones n masterSession =>
      let '(clones, st') := cloneClients n w masterSession st in
      (Finished Resolved, pool_set (ps_clientPool st' ++ clones) st')
  | Finished o => (Finished o, st)
  end.

(** The pool with the calls of [ensureClientPool] made so far. *)
Record Calls := mkCalls {
  cs_pool : PoolState;
  cs_calls : list pool_call
}.

(** What the event loop does next: a caller calls [ensureClientPool], which
    runs to its first await; the call number [i] is resumed; the connection
    of a client goes down or comes back; [destroy()] empties the pool. *)
Inductive calls_action :=
| NewCall
| ResumeCall (i : nat)
| Connection (slot : nat) (up : bool)
| DestroyPool.

Definition calls_step (w : PoolWorld) (cs : Calls) (a : calls_action) : Calls :=
  let st := cs_pool cs in
  match a with
  | NewCall => mkCalls st (cs_calls cs ++ [call_start st])
  | ResumeCall i =>
      match cs_calls cs !! i with
      | Some c =>
          let '(p', st') := call_resume w (pc_at c) st in
          mkCalls st' (<[i := mkPoolCall (pc_fresh c) p']> (cs_calls cs))
      | None => cs
      end
  | Connection slot up =>
      mkCalls (pool_set
                 (match ps_clientPool st !! slot with
                  | Some c => <[slot := mkClient (session c) up]> (ps_clientPool st)
                  | None => ps_clientPool st
                  end) st)
              (cs_calls cs)
  | DestroyPool => mkCalls (pool_set [] st) (cs_calls cs)
  end.

Definition calls_run (w : PoolWorld) (cs : Calls) (actions : list calls_action)
    : Calls :=
  fold_left (calls_step w) actions cs.

(** The process starts with an empty pool and no call. *)
Definition calls_init (file : option string) : Calls :=
  mkCalls (pool_init file) [].

Definition returned (c : pool_call) : bool :=
  match pc_at c with Finished _ => true | _ => false end.

(** A call that is about to authenticate. *)
Definition authenticating (c : pool_call) : bool :=
  match pc_at c with AtStart | AtWait _ => true | _ => false end.

(** The calls do not overlap: each one is made when the ones before it have
    returned, as when every caller awaits its call and there is one caller
    at a time. *)
Fixpoint awaited (w : PoolWorld) (cs : Calls) (actions : list calls_action)
    : bool :=
  match actions with
  | [] => true
  | a :: actions' =>
      match a with
      | NewCall => forallb returned (cs_calls cs)
      | _ => true
      end && awaited w (calls_step w cs a) actions'
  end.

(** A call resumed again and again with nothing in between, until it
    returns. *)
Fixpoint call_finish (n : nat) (w : PoolWorld) (p : call_point)
    (st : PoolState) : option (outcome * PoolState) :=
  match p with
  | Finished o => Some (o, st)
  | _ =>
      match n with
      | O => None
      | S n' =>
          let '(p', st') := call_resume w p st in
          call_finish n' w p' st'
      end
  end.

(** What a suspended call holds on a reliable transport: a call that is to
    connect holds a valid credential, and a call that is to authenticate
    found no saved session. *)
Definition point_ok (valid : string → Prop) (c : pool_call) : Prop :=
  match pc_at c with
  | AtConnect s => valid s
  | AtGetMe test _ => valid (session test)
  | AtStart | AtWait _ => pc_fresh c = true
  | AtClones _ s => valid s
  | Finished _ => True
  end.

(** A call that has not got hold of a credential. *)
Definition early (c : pool_call) : bool :=
  match pc_at c with AtStart | AtWait _ | Finished _ => true | _ => false end.

(** The invariant of a process run with overlapping calls that started with
    the credential file [file0], on a reliable transport: the file holds a
    valid credential if any; no clone has authenticated; the suspended calls
    hold what they should; every accepted exchange belongs to a call that
    found no saved session and is past its authentication; and either
    nothing has been persisted yet, or a credential is. *)
Definition calls_inv (valid : string → Prop) (file0 : option string)
    (cs : Calls) : Prop :=
  let st := cs_pool cs in
  let calls := cs_calls cs in
  (∀ s, ps_sessionFile st = Some s → valid s) ∧
  List.filter by_clone (auth_exchanges (ps_log st)) = [] ∧
  Forall (point_ok valid) calls ∧
  (accepted (ps_log st) + length (List.filter authenticating calls)
     <= length (List.filter pc_fresh calls))%nat ∧
  ((ps_sessionFile st = None ∧ ps_clientPool st = [] ∧
    accepted (ps_log st) = 0%nat ∧ file0 = None ∧
    Forall (λ c, early c = true) calls) ∨
   (is_Some (ps_sessionFile st) ∧
    (file0 = None → (1 <= accepted (ps_log st))%nat) ∧
    (is_Some file0 →
     auth_exchanges (ps_log st) = [] ∧ List.filter pc_fresh calls = []))).

(** ** The rest of the streaming module *)

(** Slots of the clients that were reconnected, and the offsets that were
    asked for, in order. *)
Definition connects (tr : list event) : list nat :=
  omap (λ e, match e with EvConnect s => Some s | _ => None end) tr.

Definition download_offsets (tr : list event) : list Z :=
  omap (λ e, match e with EvIterDownload _ off => Some off | _ => None end) tr.

(** What a stretch of the retry loop does, whatever the transport answers:
    it appends [tr], in which the clients asked are among [clients] and the
    pauses among [pauses], in this order; every download asks for [offset];
    the pool keeps its size and the in-flight registry is left alone. *)
Record attempt_shape (st st' : Runtime) (clients : list nat)
    (offset : Z) (pauses : list Z) (tr : list event) : Prop := mkAttemptShape {
  as_trace : trace st' = trace st ++ tr;
  as_slots : sublist (download_slots tr) clients;
  as_connects : sublist (connects tr) clients;
  as_sleeps : sublist (sleeps tr) pauses;
  as_offsets : Forall (eq offset) (download_offsets tr);
  as_calls : fetch_calls tr = [];
  as_pool : length (clientPool st') = length (clientPool st);
  as_inFlight : inFlight st' = inFlight st
}.

(** The clients of the attempts [first .. first + n - 1] for a chunk, and
    the pauses behind them (the last attempt has none). *)
Definition rotation (pool : list Client) (chunkIndex first : Z) (n : nat)
    : list nat :=
  omap (λ attempt, getClient pool (chunkIndex + attempt - 1))
       (seqZ first (Z.of_nat n)).

Definition pauses (first : Z) (n : nat) : list Z :=
  backoff <$> filter (λ attempt, attempt < MAX_RETRIES) (seqZ first (Z.of_nat n)).

(** [getAnyClient()], as the slot of the client returned: the first
    connected client, else [clientPool[0]] ([None] is [undefined], for an
    empty pool). *)
Fixpoint first_connected (pool : list Client) (slot : nat) : option nat :=
  match pool with
  | [] => None
  | c :: pool' =>
      if connected c then Some slot else first_connected pool' (S slot)
  end.

Definition getAnyClient (pool : list Client) : option nat :=
  match first_connected pool 0 with
  | Some slot => Some slot
  | None => match pool with [] => None | _ :: _ => Some 0%nat end
  end.

(** ** Vocabulary for the routes of the server *)

(** A character of the class [[^/?]]. *)
Definition id_char (a : ascii) : bool :=
  negb (Ascii.eqb a "/" || Ascii.eqb a "?").

Fixpoint string_all (f : ascii → bool) (s : string) : bool :=
  match s with
  | EmptyString => true
  | String a s' => f a && string_all f s'
  end.

(** The answer to a request for a stream that is not registered. *)
Definition notRegistered (st : Runtime) : Runtime :=
  emit (EvEnd "Stream not registered") (emit (EvWriteHead 404 []) st).

(** ** Vocabulary for the background downloader *)

(** A downloader with another [_cursor]. *)
Definition with_cursor (d : StreamDownloader.t) (cursor : Z) : StreamDownloader.t :=
  StreamDownloader.mk (StreamDownloader.videoId d)
    (StreamDownloader.inputLocation d) (StreamDownloader.fileSize d)
    (StreamDownloader.dcId d) (StreamDownloader.totalChunks d)
    (StreamDownloader.playbackChunk d) cursor
    (StreamDownloader._seekGeneration d) (StreamDownloader.running d)
    (StreamDownloader._workerPromises d).

(** A chunk that [_getNextChunk] may hand out: neither cached nor in
    flight. *)
Definition free_chunk (cache : ChunkCache.t)
    (registry : gmap string (option Buffer)) (videoId : string) (idx : Z)
    : Prop :=
  ChunkCache.has cache (cacheKeyOf videoId idx) = false ∧
  registry !! cacheKeyOf videoId idx = None.

(** ** Pre-buffer: [prefetchInitialChunks] *)

Definition TAIL_CHUNKS : Z := 3.

(** The [indices] array: the first [PREFETCH_CHUNKS] chunks, then the last
    [TAIL_CHUNKS] that are not among them. *)
Definition prefetchIndices (fileSize : Z) : list Z :=
  let totalChunks := ceil_div fileSize CHUNK_SIZE in
  let startCount := Z.min PREFETCH_CHUNKS totalChunks in
  let tailFrom := Z.max startCount (totalChunks - TAIL_CHUNKS) in
  seqZ 0 startCount ++ seqZ tailFrom (totalChunks - tailFrom).

Definition prefetchInitialChunks (w : World) (videoId : string)
    (inputLocation : InputLocation) (fileSize : Z) (dcId : option Z)
    (st : Runtime) : Runtime :=
  (downloadChunksParallel w videoId inputLocation (prefetchIndices fileSize)
     fileSize dcId st).2.

(** A value of the [results] map of [downloadChunksParallel]: [null] or a
    buffer with at least one byte. *)
Definition result_ok (v : option Buffer) : Prop :=
  match v with
  | Some b => 0 < Buffer_length b
  | None => True
  end.

(** How a run of fetches that evicts nothing takes the runtime from [st0]
    to [st]: the runtime is still healthy, every entry of the cache is still
    there, at most [n] chunks of bytes were added, and no download of the
    stream is in flight. *)
Definition filled (videoId : string) (content : Buffer) (st0 st : Runtime)
    (n : Z) : Prop :=
  healthy videoId content st ∧
  (∀ k b, JsMap.get (ChunkCache.map (chunkCache st0)) k = Some b →
          JsMap.get (ChunkCache.map (chunkCache st)) k = Some b) ∧
  ChunkCache.usedBytes (chunkCache st) <=
    ChunkCache.usedBytes (chunkCache st0) + n * CHUNK_SIZE ∧
  ChunkCache.maxBytes (chunkCache st) = ChunkCache.maxBytes (chunkCache st0) ∧
  (∀ j, inFlight st !! cacheKeyOf videoId j = None).

(** ** Public API: [destroy] *)

(** The module with its HTTP server: [localServer] beside the rest of the
    state.  [None] is [null]; [Some port] is a server that listens on
    [localPort = port]. *)
Record Service := mkService {
  localServer : option Z;
  runtime : Runtime
}.

(** What becomes of a request of a client that connects to the port of the
    module: with no server listening the connection is refused and no code
    of the module runs; else the request handler runs. *)
Inductive delivery :=
| Refused
| Handled (st : option Runtime).

Definition deliver (w : World) (req : Request) (sv : Service) : delivery :=
  match localServer sv with
  | Some _ => Handled (handleRequest w req (runtime sv))
  | None => Refused
  end.

(** [destroy()]: stop the downloader of every registered stream, forget the
    streams, clear the cache, close the server and forget it, and drop the
    pool.  Disconnecting the clients leaves no mark on the state that is
    modelled, since the pool is dropped; the in-flight registry is not
    touched. *)
Definition destroy (sv : Service) : Service :=
  let st := runtime sv in
  let ds :=
    map_fold
      (λ (_ : string) info ds,
         match si_downloader info with
         | Some downloader => alter StreamDownloader.stop downloader ds
         | None => ds
         end)
      (downloaders st) (activeStreams st) in
  let st := with_downloaders ds st in
  let st := with_streams ∅ st in
  let st := with_cache (ChunkCache.clear (chunkCache st)) st in
  (* localServer.close(); localServer = null; localPort = null *)
  let server := None in
  mkService server (with_pool [] st).

(** ** The connection pool after a rebuild *)

(** What a pool that was rebuilt looks like: a primary client in slot 0
    and at most two clones behind it, all of them connected; and with a
    file that can be written, the credential on disk is the session of
    slot 0. *)
Definition rebuilt (w : PoolWorld) (st' : PoolState) : Prop :=
  ∃ primary clones,
    ps_clientPool st' = primary :: clones ∧
    (length clones <= 2)%nat ∧
    Forall (λ c, connected c = true) (primary :: clones) ∧
    ((∀ t, pw_write w t = true) →
     ps_sessionFile st' = Some (session primary)).

(** ** A transport that is down *)

(** No download yields a byte: every [iterDownload] throws, yields nothing
    or yields an empty chunk. *)
Definition transport_down (w : World) : Prop :=
  ∀ t slot loc dc offset,
    match w_iterDownload w t slot loc dc offset with
    | DlChunk buf => Buffer_length buf = 0
    | _ => True
    end.

(** Nothing of a stream is cached or in flight. *)
Definition cold (videoId : string) (st : Runtime) : Prop :=
  (∀ i, ChunkCache.has (chunkCache st) (cacheKeyOf videoId i) = false) ∧
  (∀ i, inFlight st !! cacheKeyOf videoId i = None).

(** A transport on which every download throws. *)
Definition dead_world : World :=
  mkWorld (λ _ _, false) (λ _ _ _ _ _, DlThrow) (λ _, false).
(* ================================================================== *)
(** * Properties *)
(* ================================================================== *)

(** ** The JavaScript map *)

Section JsMapFacts.
Context {V : Type}.
Implicit Types (m : JsMap.t V) (k : string) (v : V).

Lemma eqb_decide k k' : String.eqb k k' = bool_decide (k = k').
Proof.
  destruct (String.eqb_spec k k') as [->|Hne].
  - by rewrite bool_decide_eq_true_2.
  - by rewrite bool_decide_eq_false_2.
Qed.

Lemma JsMap_get_None m k : JsMap.get m k = None ↔ k ∉ JsMap.keys m.
Proof.
  induction m as [|[k' v] m IH]; simpl.
  - split; [intros _; apply not_elem_of_nil | done].
  - rewrite not_elem_of_cons. destruct (String.eqb_spec k' k) as [->|Hne].
    + split; [done | intros [? _]; done].
    + rewrite IH. split; [intros ?; split; congruence | tauto].
Qed.

Lemma JsMap_has_true m k : JsMap.has m k = true ↔ k ∈ JsMap.keys m.
Proof.
  unfold JsMap.has. destruct (JsMap.get m k) eqn:E.
  - split; [intros _ | done].
    destruct (decide (k ∈ JsMap.keys m)) as [|Hn]; [done|].
    apply JsMap_get_None in Hn. congruence.
  - apply JsMap_get_None in E. split; [done | tauto].
Qed.

Lemma JsMap_has_false m k : JsMap.has m k = false ↔ k ∉ JsMap.keys m.
Proof.
  rewrite <- JsMap_has_true. destruct (JsMap.has m k); split; congruence.
Qed.

Lemma JsMap_delete_absent m k : k ∉ JsMap.keys m → JsMap.delete m k = m.
Proof.
  induction m as [|[k' v] m IH]; simpl; [done|].
  rewrite not_elem_of_cons. intros [Hne Hni].
  destruct (String.eqb_spec k' k); [congruence|]. by rewrite IH.
Qed.

Lemma JsMap_keys_delete m k :
  JsMap.keys (JsMap.delete m k) = filter (λ x, x ≠ k) (JsMap.keys m).
Proof.
  induction m as [|[k' v] m IH]; simpl; [done|].
  destruct (String.eqb_spec k' k) as [->|Hne].
  - rewrite filter_cons_False by tauto. apply IH.
  - rewrite filter_cons_True by done. simpl. by rewrite IH.
Qed.

Lemma JsMap_get_delete m k k' :
  JsMap.get (JsMap.delete m k) k' = if decide (k = k') then None else JsMap.get m k'.
Proof.
  induction m as [|[k0 v] m IH]; simpl.
  - by destruct (decide (k = k')).
  - destruct (String.eqb_spec k0 k) as [->|Hne].
    + rewrite IH. destruct (decide (k = k')) as [->|Hkk]; [done|].
      destruct (String.eqb_spec k k'); [congruence | done].
    + simpl. rewrite IH. destruct (String.eqb_spec k0 k') as [->|Hne'].
      * destruct (decide (k = k')); [congruence | done].
      * done.
Qed.

Lemma JsMap_set_absent m k v :
  k ∉ JsMap.keys m → JsMap.set m k v = m ++ [(k, v)].
Proof.
  induction m as [|[k' v'] m IH]; simpl; [done|].
  rewrite not_elem_of_cons. intros [Hne Hni].
  destruct (String.eqb_spec k' k); [congruence|]. by rewrite IH.
Qed.

Lemma JsMap_keys_app m1 m2 :
  JsMap.keys (m1 ++ m2) = JsMap.keys m1 ++ JsMap.keys m2.
Proof. unfold JsMap.keys. apply fmap_app. Qed.

Lemma JsMap_get_app m1 m2 k :
  JsMap.get (m1 ++ m2) k =
  match JsMap.get m1 k with Some v => Some v | None => JsMap.get m2 k end.
Proof.
  induction m1 as [|[k' v] m1 IH]; simpl; [done|].
  by destruct (String.eqb k' k).
Qed.

Lemma JsMap_keys_drop j m : JsMap.keys (drop j m) = drop j (JsMap.keys m).
Proof. unfold JsMap.keys. by rewrite fmap_drop. Qed.

Lemma JsMap_delete_not_in m k : k ∉ JsMap.keys (JsMap.delete m k).
Proof.
  rewrite JsMap_keys_delete. intros [Hne _]%list_elem_of_filter. done.
Qed.

Lemma JsMap_NoDup_delete m k :
  NoDup (JsMap.keys m) → NoDup (JsMap.keys (JsMap.delete m k)).
Proof. rewrite JsMap_keys_delete. apply NoDup_filter. Qed.
End JsMapFacts.

(** ** The chunk cache *)

Section CacheFacts.
Implicit Types (c : ChunkCache.t) (m : JsMap.t Buffer) (k key : string)
  (buf : Buffer).

Lemma Buffer_length_nonneg buf : 0 <= Buffer_length buf.
Proof. unfold Buffer_length. lia. Qed.

Lemma resident_bytes_nonneg m : 0 <= resident_bytes m.
Proof.
  induction m as [|[k b] m IH]; simpl; [lia|].
  pose proof (Buffer_length_nonneg b). lia.
Qed.

Lemma resident_bytes_app m1 m2 :
  resident_bytes (m1 ++ m2) = resident_bytes m1 + resident_bytes m2.
Proof. induction m1 as [|[k b] m1 IH]; simpl; lia. Qed.

Lemma resident_bytes_delete m k :
  NoDup (JsMap.keys m) →
  resident_bytes (JsMap.delete m k) =
  resident_bytes m - match JsMap.get m k with
                     | Some b => Buffer_length b
                     | None => 0
                     end.
Proof.
  induction m as [|[k' b] m IH]; simpl; [lia|].
  intros [Hni Hnd]%NoDup_cons.
  destruct (String.eqb_spec k' k) as [->|Hne].
  - rewrite JsMap_delete_absent by done. lia.
  - simpl. rewrite IH by done. lia.
Qed.

Lemma drop_entry_wf c k : cache_wf c → cache_wf (ChunkCache.drop_entry c k).
Proof.
  intros [Hnd Hused]. split; simpl.
  - by apply JsMap_NoDup_delete.
  - rewrite resident_bytes_delete by done.
    unfold ChunkCache.entry_length. lia.
Qed.

Lemma drop_entry_head c k b m :
  cache_wf c → ChunkCache.map c = (k, b) :: m →
  ChunkCache.map (ChunkCache.drop_entry c k) = m.
Proof.
  intros [Hnd _] Hm. simpl. rewrite Hm in *. simpl in *.
  rewrite String.eqb_refl. apply JsMap_delete_absent.
  by apply NoDup_cons in Hnd as [? _].
Qed.

(** The eviction loop removes a prefix of the map, keeps the invariant,
    and with enough fuel stops only when the new entry fits or the map is
    empty. *)
Lemma evict_spec fuel c len :
  cache_wf c →
  let c' := ChunkCache.evict fuel c len in
  cache_wf c' ∧
  ChunkCache.maxBytes c' = ChunkCache.maxBytes c ∧
  (∃ j, ChunkCache.map c' = drop j (ChunkCache.map c)) ∧
  ((length (ChunkCache.map c) <= fuel)%nat →
   ChunkCache.usedBytes c' + len <= ChunkCache.maxBytes c ∨
   ChunkCache.map c' = []).
Proof.
  revert c. induction fuel as [|fuel IH]; intros c Hwf; simpl.
  - repeat split; [apply Hwf.. | by exists 0%nat |].
    intros Hlen. right. destruct (ChunkCache.map c); [done | simpl in Hlen; lia].
  - destruct (ChunkCache.usedBytes c + len >? ChunkCache.maxBytes c) eqn:Hgt; simpl.
    2: { repeat split; [apply Hwf.. | by exists 0%nat | intros _; left; lia]. }
    destruct (ChunkCache.map c) as [|[k b] m] eqn:Hm; simpl.
    { rewrite Hm. repeat split; [by rewrite Hm; apply NoDup_nil_2 | | by exists 0%nat | by right].
      destruct Hwf as [_ Hu]. by rewrite Hu, Hm. }
    replace (JsMap.size ((k, b) :: m) >? 0) with true
      by (unfold JsMap.size; simpl length; symmetry; apply Z.gtb_lt; lia).
    pose proof (drop_entry_wf c k Hwf) as Hwf'.
    pose proof (drop_entry_head c k b m Hwf Hm) as Hm'.
    destruct (IH _ Hwf') as (IH1 & IH2 & [j IH3] & IH4).
    repeat split; [apply IH1.. | done | |].
    + exists (S j). rewrite IH3, Hm'. done.
    + intros Hlen. apply IH4.
      rewrite Hm'. simpl in Hlen. lia.
Qed.

Lemma new_wf maxBytes : cache_wf (ChunkCache.new maxBytes).
Proof. split; simpl; [apply NoDup_nil_2 | done]. Qed.

Lemma clear_wf c : cache_wf (ChunkCache.clear c).
Proof. split; simpl; [apply NoDup_nil_2 | done]. Qed.

(** Shape of the cache after [set]: the remaining old entries are a
    suffix of the old map without [key], and [key] is the newest. *)
Lemma set_spec c key buf :
  cache_wf c →
  let c' := ChunkCache.set c key buf in
  cache_wf c' ∧
  ChunkCache.maxBytes c' = ChunkCache.maxBytes c ∧
  (∃ j, ChunkCache.map c' =
        drop j (JsMap.delete (ChunkCache.map c) key) ++ [(key, buf)]) ∧
  (Buffer_length buf <= ChunkCache.maxBytes c →
   ChunkCache.usedBytes c' <= ChunkCache.maxBytes c).
Proof.
  intros Hwf. unfold ChunkCache.set.
  set (c1 := if JsMap.has _ _ then _ else _).
  assert (cache_wf c1 ∧ ChunkCache.maxBytes c1 = ChunkCache.maxBytes c ∧
          ChunkCache.map c1 = JsMap.delete (ChunkCache.map c) key)
    as (Hwf1 & Hmax1 & Hmap1).
  { subst c1. destruct (JsMap.has (ChunkCache.map c) key) eqn:Hhas.
    - split; [by apply drop_entry_wf | done].
    - apply JsMap_has_false in Hhas.
      by rewrite JsMap_delete_absent. }
  destruct (evict_spec (length (ChunkCache.map c1)) c1 (Buffer_length buf) Hwf1)
    as ([Hnd2 Hu2] & Hmax2 & [j Hj] & Hfit).
  set (c2 := ChunkCache.evict _ _ _) in *. simpl.
  assert (key ∉ JsMap.keys (ChunkCache.map c2)) as Hni.
  { rewrite Hj, Hmap1, JsMap_keys_drop. intros Hin%subseteq_drop.
    by apply JsMap_delete_not_in in Hin. }
  rewrite JsMap_set_absent by done.
  repeat split; simpl.
  - rewrite JsMap_keys_app. simpl. apply NoDup_app. repeat split; [done | | apply NoDup_singleton].
    intros x Hx ->%list_elem_of_singleton. done.
  - rewrite resident_bytes_app. simpl. lia.
  - congruence.
  - exists j. by rewrite Hj, Hmap1.
  - intros Hlen. destruct (Hfit ltac:(lia)) as [Hle | Hnil]; [lia|].
    rewrite Hu2, Hnil. simpl. lia.
Qed.

Lemma get_spec c key :
  cache_wf c →
  match JsMap.get (ChunkCache.map c) key with
  | None => ChunkCache.get c key = (None, c)
  | Some buf =>
      ∃ c', ChunkCache.get c key = (Some buf, c') ∧
            cache_wf c' ∧
            ChunkCache.maxBytes c' = ChunkCache.maxBytes c ∧
            ChunkCache.usedBytes c' = ChunkCache.usedBytes c ∧
            ChunkCache.map c' = JsMap.delete (ChunkCache.map c) key ++ [(key, buf)]
  end.
Proof.
  intros [Hnd Hu]. unfold ChunkCache.get.
  destruct (JsMap.get (ChunkCache.map c) key) as [buf|] eqn:Hget; [|done].
  eexists; split; [done|]. simpl.
  rewrite JsMap_set_absent by apply JsMap_delete_not_in.
  repeat split; simpl.
  - rewrite JsMap_keys_app. simpl. apply NoDup_app.
    repeat split; [by apply JsMap_NoDup_delete | | apply NoDup_singleton].
    intros x Hx ->%list_elem_of_singleton. by apply JsMap_delete_not_in in Hx.
  - rewrite resident_bytes_app, resident_bytes_delete, Hget by done. simpl. lia.
Qed.

Lemma get_wf c key : cache_wf c → cache_wf (ChunkCache.get c key).2.
Proof.
  intros Hwf. pose proof (get_spec c key Hwf) as H.
  destruct (JsMap.get (ChunkCache.map c) key).
  - destruct H as (c' & -> & ? & _). done.
  - by rewrite H.
Qed.

Lemma get_bounds c key :
  cache_wf c →
  ChunkCache.maxBytes (ChunkCache.get c key).2 = ChunkCache.maxBytes c ∧
  ChunkCache.usedBytes (ChunkCache.get c key).2 = ChunkCache.usedBytes c.
Proof.
  intros Hwf. pose proof (get_spec c key Hwf) as H.
  destruct (JsMap.get (ChunkCache.map c) key).
  - destruct H as (c' & -> & ? & ? & ? & _). done.
  - by rewrite H.
Qed.

(** One round of the [deletePrefix] loop, and the loop itself. *)
Lemma deletePrefix_fold_spec prefix ks c :
  cache_wf c →
  let c' := fold_left
              (λ c key, if String.prefix prefix key
                        then ChunkCache.drop_entry c key else c) ks c in
  cache_wf c' ∧
  ChunkCache.maxBytes c' = ChunkCache.maxBytes c ∧
  ChunkCache.usedBytes c' <= ChunkCache.usedBytes c ∧
  (∀ k, k ∈ JsMap.keys (ChunkCache.map c') →
        k ∈ JsMap.keys (ChunkCache.map c) ∧
        ¬ (k ∈ ks ∧ String.prefix prefix k = true)).
Proof.
  revert c. induction ks as [|k0 ks IH]; intros c Hwf; simpl.
  - repeat split; [apply Hwf.. | lia | done |].
    intros [Hin _]. by apply not_elem_of_nil in Hin.
  - set (c1 := if String.prefix prefix k0 then _ else _).
    assert (cache_wf c1 ∧ ChunkCache.maxBytes c1 = ChunkCache.maxBytes c ∧
            ChunkCache.usedBytes c1 <= ChunkCache.usedBytes c ∧
            (∀ k, k ∈ JsMap.keys (ChunkCache.map c1) →
                  k ∈ JsMap.keys (ChunkCache.map c) ∧
                  ¬ (k = k0 ∧ String.prefix prefix k = true)))
      as (Hwf1 & Hmax1 & Hu1 & Hk1).
    { subst c1. destruct (String.prefix prefix k0) eqn:Hp.
      - split; [by apply drop_entry_wf|]. split; [done|]. split.
        + simpl. unfold ChunkCache.entry_length.
          destruct (JsMap.get _ _) as [b|]; [|lia].
          pose proof (Buffer_length_nonneg b). lia.
        + simpl. intros k. rewrite JsMap_keys_delete.
          intros [Hne Hin]%list_elem_of_filter. split; [done | tauto].
      - repeat split; [apply Hwf.. | lia | done |]. intros [-> ?]. congruence. }
    destruct (IH c1 Hwf1) as (IHwf & IHmax & IHu & IHk).
    repeat split; [apply IHwf.. | congruence | lia | |].
    + by apply Hk1, IHk.
    + intros [Hin Hp]. apply IHk in H as [H1 H2].
      apply Hk1 in H1 as [_ H1].
      apply elem_of_cons in Hin as [->|Hin]; tauto.
Qed.

Lemma deletePrefix_spec c prefix :
  cache_wf c →
  let c' := ChunkCache.deletePrefix c prefix in
  cache_wf c' ∧
  ChunkCache.maxBytes c' = ChunkCache.maxBytes c ∧
  ChunkCache.usedBytes c' <= ChunkCache.usedBytes c ∧
  (∀ k, String.prefix prefix k = true → ChunkCache.has c' k = false).
Proof.
  intros Hwf.
  destruct (deletePrefix_fold_spec prefix (JsMap.keys (ChunkCache.map c)) c Hwf)
    as (H1 & H2 & H3 & H4).
  repeat split; [apply H1.. | done | done |].
  intros k Hp. apply JsMap_has_false. intros Hin.
  apply H4 in Hin as [Hin Hn]. tauto.
Qed.

Lemma cache_step_wf c op : cache_wf c → cache_wf (cache_step c op).
Proof.
  intros Hwf. destruct op as [key buf|key|key|p|]; simpl.
  - apply set_spec, Hwf.
  - by apply get_wf.
  - done.
  - apply deletePrefix_spec, Hwf.
  - apply clear_wf.
Qed.

Lemma cache_step_maxBytes c op :
  cache_wf c → ChunkCache.maxBytes (cache_step c op) = ChunkCache.maxBytes c.
Proof.
  intros Hwf. destruct op as [key buf|key|key|p|]; simpl; [| |done| |done].
  - apply set_spec, Hwf.
  - by apply get_bounds.
  - apply deletePrefix_spec, Hwf.
Qed.

Lemma cache_step_budget c op :
  cache_wf c → 0 <= ChunkCache.maxBytes c →
  op_fits (ChunkCache.maxBytes c) op →
  ChunkCache.usedBytes c <= ChunkCache.maxBytes c →
  ChunkCache.usedBytes (cache_step c op) <= ChunkCache.maxBytes c.
Proof.
  intros Hwf Hmax Hfit Hle.
  destruct op as [key buf|key|key|p|]; simpl in *; [| |done| |lia].
  - by apply set_spec.
  - destruct (get_bounds c key Hwf) as [_ ->]. done.
  - destruct (deletePrefix_spec c p Hwf) as (_ & _ & ? & _). lia.
Qed.
End CacheFacts.

(** ** Budget of the cache *)

Section CacheBudget.
Implicit Types (c : ChunkCache.t) (ops : list cache_op).

Lemma cache_states_budget c ops :
  cache_wf c → 0 <= ChunkCache.maxBytes c →
  ChunkCache.usedBytes c <= ChunkCache.maxBytes c →
  Forall (op_fits (ChunkCache.maxBytes c)) ops →
  Forall (λ c', ChunkCache.usedBytes c' <= ChunkCache.maxBytes c)
         (cache_states c ops).
Proof.
  intros Hwf Hmax Hle Hfit. revert c Hwf Hmax Hle Hfit.
  induction ops as [|op ops IH]; intros c Hwf Hmax Hle Hfit; simpl.
  - constructor.
  - apply Forall_cons in Hfit as [Hop Hfit].
    pose proof (cache_step_maxBytes c op Hwf) as Hsame.
    pose proof (cache_step_budget c op Hwf Hmax Hop Hle) as Hle'.
    constructor; [done|].
    rewrite <- Hsame. apply IH; rewrite ?Hsame; auto using cache_step_wf.
Qed.

Lemma cache_run_wf c ops : cache_wf c → cache_wf (cache_run c ops).
Proof.
  revert c. induction ops as [|op ops IH]; intros c Hwf; simpl; [done|].
  apply IH, cache_step_wf, Hwf.
Qed.

Lemma cache_run_maxBytes c ops :
  cache_wf c → ChunkCache.maxBytes (cache_run c ops) = ChunkCache.maxBytes c.
Proof.
  revert c. induction ops as [|op ops IH]; intros c Hwf; simpl; [done|].
  rewrite IH by (by apply cache_step_wf). by apply cache_step_maxBytes.
Qed.

(** What [set] does with an entry that cannot fit: the loop empties the
    map and the entry is stored all the same. *)
Lemma set_oversized c key buf :
  cache_wf c → ChunkCache.maxBytes c < Buffer_length buf →
  ChunkCache.set c key buf =
  {| ChunkCache.maxBytes := ChunkCache.maxBytes c;
     ChunkCache.usedBytes := Buffer_length buf;
     ChunkCache.map := [(key, buf)] |}.
Proof.
  intros Hwf Hbig. unfold ChunkCache.set.
  set (c1 := if JsMap.has _ _ then _ else _).
  assert (cache_wf c1 ∧ ChunkCache.maxBytes c1 = ChunkCache.maxBytes c)
    as [Hwf1 Hmax1].
  { subst c1. destruct (JsMap.has _ _); [|done].
    split; [by apply drop_entry_wf | done]. }
  destruct (evict_spec (length (ChunkCache.map c1)) c1 (Buffer_length buf) Hwf1)
    as ([Hnd2 Hu2] & Hmax2 & _ & Hfit).
  set (c2 := ChunkCache.evict _ _ _) in *.
  pose proof (resident_bytes_nonneg (ChunkCache.map c2)).
  destruct (Hfit ltac:(lia)) as [Hle | Hnil]; [lia|].
  rewrite Hu2, Hnil. simpl. f_equal; (congruence || lia).
Qed.
End CacheBudget.

(** C1 (as amended).  In every run of [set], [get], [has], [deletePrefix]
    and [clear] on a fresh cache in which no inserted buffer is longer than
    [maxBytes], [usedBytes] is at most [maxBytes] after every operation.  A
    buffer longer than [maxBytes] is not rejected: [set] stores it alone and
    [usedBytes] becomes its length. *)
Theorem C1_budget_invariant (maxBytes : Z) (ops : list cache_op) :
  0 <= maxBytes →
  Forall (op_fits maxBytes) ops →
  Forall (λ c, ChunkCache.usedBytes c <= maxBytes)
         (cache_states (ChunkCache.new maxBytes) ops) ∧
  (∀ key buf,
     maxBytes < Buffer_length buf →
     let c' := ChunkCache.set (cache_run (ChunkCache.new maxBytes) ops) key buf in
     ChunkCache.has c' key = true ∧
     ChunkCache.usedBytes c' = Buffer_length buf ∧
     JsMap.keys (ChunkCache.map c') = [key]).
Proof.
  intros Hmax Hfit. split.
  - apply (cache_states_budget (ChunkCache.new maxBytes));
      [apply new_wf | done | simpl; lia | done].
  - intros key buf Hbig c'. subst c'.
    rewrite set_oversized.
    + unfold ChunkCache.has, JsMap.has. simpl. by rewrite String.eqb_refl.
    + apply cache_run_wf, new_wf.
    + rewrite cache_run_maxBytes by apply new_wf. done.
Qed.

Lemma C1_budget_invariant_witness :
  Forall (λ c, ChunkCache.usedBytes c <= 2)
    (cache_states (ChunkCache.new 2)
       [OpSet "v:0" [Byte.x01; Byte.x02]; OpGet "v:0";
        OpSet "v:1" [Byte.x03]; OpDeletePrefix "v:"; OpClear]).
Proof.
  apply (C1_budget_invariant 2
           [OpSet "v:0" [Byte.x01; Byte.x02]; OpGet "v:0";
            OpSet "v:1" [Byte.x03]; OpDeletePrefix "v:"; OpClear]).
  - lia.
  - repeat constructor; simpl; unfold Buffer_length; simpl; lia.
Defined.

(** C1 (as stated) fails: one [set] of a buffer of [CACHE_MAX_BYTES + 1]
    bytes on the empty cache is stored and leaves [usedBytes] above the
    budget. *)
Lemma C1_oversized_entry_breaks_budget :
  let buf := replicate (Z.to_nat (CACHE_MAX_BYTES + 1)) Byte.x00 in
  let c := ChunkCache.set (ChunkCache.new CACHE_MAX_BYTES) "v:0" buf in
  ChunkCache.has c "v:0" = true ∧
  ¬ Forall (λ c, ChunkCache.usedBytes c <= CACHE_MAX_BYTES)
      (cache_states (ChunkCache.new CACHE_MAX_BYTES) [OpSet "v:0" buf]).
Proof.
  intros buf c.
  assert (Buffer_length buf = CACHE_MAX_BYTES + 1) as Hlen.
  { unfold Buffer_length, buf. rewrite length_replicate.
    apply Z2Nat.id. unfold CACHE_MAX_BYTES. lia. }
  assert (c = {| ChunkCache.maxBytes := CACHE_MAX_BYTES;
                 ChunkCache.usedBytes := Buffer_length buf;
                 ChunkCache.map := [("v:0"%string, buf)] |}) as Hc.
  { subst c. apply set_oversized; [apply new_wf|].
    rewrite Hlen. change (ChunkCache.maxBytes (ChunkCache.new CACHE_MAX_BYTES))
      with CACHE_MAX_BYTES. lia. }
  split.
  - rewrite Hc. reflexivity.
  - intros HF. change (cache_states (ChunkCache.new CACHE_MAX_BYTES) [OpSet "v:0" buf])
      with [c] in HF.
    apply Forall_cons in HF as [HF _]. rewrite Hc in HF.
    change (Buffer_length buf <= CACHE_MAX_BYTES) in HF. lia.
Qed.

(** ** Recency order of the cache *)

Section CacheOrder.
Implicit Types (c : ChunkCache.t) (k key older newer : string)
  (l : list string).

Lemma behind_absent older newer l : older ∉ l → behind older newer l.
Proof.
  induction l as [|x l IH]; simpl; [done|].
  rewrite not_elem_of_cons. intros [Hne Hni].
  destruct (decide (x = older)); [congruence | auto].
Qed.

Lemma behind_snoc_newer older newer l :
  older ≠ newer → behind older newer (l ++ [newer]).
Proof.
  intros Hne. induction l as [|x l IH]; simpl.
  - destruct (decide (newer = older)); [congruence | done].
  - destruct (decide (x = older)); [|done].
    apply elem_of_app. right. apply list_elem_of_singleton. done.
Qed.

Lemma behind_snoc older newer l x :
  x ≠ older → behind older newer l → behind older newer (l ++ [x]).
Proof.
  intros Hne. induction l as [|y l IH]; simpl.
  - destruct (decide (x = older)); [congruence | done].
  - destruct (decide (y = older)); [|done].
    intros Hin. apply elem_of_app. by left.
Qed.

Lemma behind_filter older newer l x :
  x ≠ older → x ≠ newer →
  behind older newer l → behind older newer (filter (λ y, y ≠ x) l).
Proof.
  intros Hne1 Hne2. induction l as [|y l IH]; simpl; [done|].
  destruct (decide (y = older)) as [->|Hy].
  - intros Hin. rewrite filter_cons_True by done. simpl.
    rewrite decide_True by done. apply list_elem_of_filter. done.
  - intros Hb. destruct (decide (y = x)) as [->|Hyx].
    + rewrite filter_cons_False by tauto. auto.
    + rewrite filter_cons_True by done. simpl.
      rewrite decide_False by done. auto.
Qed.

Lemma behind_drop older newer l j :
  NoDup l → behind older newer l → behind older newer (drop j l).
Proof.
  revert l. induction j as [|j IH]; intros l Hnd Hb; [by rewrite drop_0|].
  destruct l as [|y l]; [done|]. simpl.
  apply NoDup_cons in Hnd as [Hni Hnd]. apply IH; [done|].
  simpl in Hb. destruct (decide (y = older)) as [->|Hy]; [|done].
  by apply behind_absent.
Qed.

Lemma behind_gone older newer l :
  behind older newer l → newer ∉ l → older ∉ l.
Proof.
  induction l as [|y l IH]; simpl; [intros _ _; apply not_elem_of_nil|].
  rewrite !not_elem_of_cons. intros Hb [Hne Hni].
  destruct (decide (y = older)) as [->|Hy]; [done|].
  split; [congruence | auto].
Qed.

Lemma filter_ne_absent k l : k ∉ l → filter (λ y, y ≠ k) l = l.
Proof.
  induction l as [|x l IH]; [done|].
  rewrite not_elem_of_cons. intros [Hne Hni].
  rewrite filter_cons_True by congruence. by rewrite IH.
Qed.

(** Keys of the cache after one operation. *)
Lemma set_keys c key buf :
  cache_wf c →
  ∃ j, JsMap.keys (ChunkCache.map (ChunkCache.set c key buf)) =
       drop j (filter (λ y, y ≠ key) (JsMap.keys (ChunkCache.map c))) ++ [key].
Proof.
  intros Hwf. destruct (set_spec c key buf Hwf) as (_ & _ & [j Hj] & _).
  exists j. rewrite Hj, JsMap_keys_app, JsMap_keys_drop, JsMap_keys_delete. done.
Qed.

Lemma get_keys_hit c key buf :
  cache_wf c → JsMap.get (ChunkCache.map c) key = Some buf →
  ChunkCache.get c key = (Some buf, (ChunkCache.get c key).2) ∧
  JsMap.keys (ChunkCache.map (ChunkCache.get c key).2) =
  filter (λ y, y ≠ key) (JsMap.keys (ChunkCache.map c)) ++ [key].
Proof.
  intros Hwf Hget. pose proof (get_spec c key Hwf) as H. rewrite Hget in H.
  destruct H as (c' & -> & _ & _ & _ & Hmap). simpl. split; [done|].
  rewrite Hmap, JsMap_keys_app, JsMap_keys_delete. done.
Qed.

Lemma get_miss c key :
  JsMap.get (ChunkCache.map c) key = None → ChunkCache.get c key = (None, c).
Proof. intros H. unfold ChunkCache.get. by rewrite H. Qed.

(** A [set] or [get] of another key keeps [newer] behind [older]. *)
Lemma cache_step_behind c op older newer :
  cache_wf c → older ≠ newer →
  op_is_set_or_get op → ¬ op_touches older op →
  behind older newer (JsMap.keys (ChunkCache.map c)) →
  behind older newer (JsMap.keys (ChunkCache.map (cache_step c op))).
Proof.
  intros Hwf Hne Hsg Hnt Hb.
  assert (∀ x, x ≠ older →
            behind older newer
              (filter (λ y, y ≠ x) (JsMap.keys (ChunkCache.map c)) ++ [x]) ∧
            ∀ j, behind older newer
              (drop j (filter (λ y, y ≠ x) (JsMap.keys (ChunkCache.map c))) ++ [x]))
    as Hmove.
  { intros x Hx. destruct (decide (x = newer)) as [->|Hxn].
    - split; [|intros j]; by apply behind_snoc_newer.
    - split; [|intros j]; apply behind_snoc; try done.
      + by apply behind_filter.
      + apply behind_drop; [apply NoDup_filter, Hwf | by apply behind_filter]. }
  destruct op as [key buf|key|key|p|]; try done.
  - change (cache_step c (OpSet key buf)) with (ChunkCache.set c key buf).
    destruct (set_keys c key buf Hwf) as [j ->]. apply Hmove.
    intros ->. by apply Hnt.
  - change (cache_step c (OpGet key)) with (ChunkCache.get c key).2.
    destruct (JsMap.get (ChunkCache.map c) key) as [buf|] eqn:Hget.
    + destruct (get_keys_hit c key buf Hwf Hget) as [_ ->]. apply Hmove.
      intros ->. by apply Hnt.
    + by rewrite (get_miss c key Hget).
Qed.

Lemma cache_run_behind c ops older newer :
  cache_wf c → older ≠ newer →
  Forall op_is_set_or_get ops → Forall (λ op, ¬ op_touches older op) ops →
  behind older newer (JsMap.keys (ChunkCache.map c)) →
  behind older newer (JsMap.keys (ChunkCache.map (cache_run c ops))).
Proof.
  revert c. induction ops as [|op ops IH]; intros c Hwf Hne Hsg Hnt Hb; [done|].
  apply Forall_cons in Hsg as [Hsg1 Hsg]. apply Forall_cons in Hnt as [Hnt1 Hnt].
  simpl. apply IH; auto using cache_step_wf, cache_step_behind.
Qed.

(** Inserting fresh, pairwise distinct keys leaves a suffix of the old
    keys followed by the new ones. *)
Lemma inserts_keys c (kbs : list (string * Buffer)) :
  cache_wf c → NoDup (JsMap.keys (ChunkCache.map c) ++ kbs.*1) →
  ∃ j, JsMap.keys (ChunkCache.map (cache_run c (op_of_insert <$> kbs))) =
       drop j (JsMap.keys (ChunkCache.map c) ++ kbs.*1).
Proof.
  revert c. induction kbs as [|[k b] kbs IH]; intros c Hwf Hnd.
  - exists 0%nat. simpl. by rewrite app_nil_r.
  - destruct (set_keys c k b Hwf) as [j0 Hj0].
    assert (k ∉ JsMap.keys (ChunkCache.map c)) as Hni.
    { apply NoDup_app in Hnd as (_ & Hdis & _). intros Hin.
      apply (Hdis k Hin). simpl. apply elem_of_cons. by left. }
    assert (filter (λ y, y ≠ k) (JsMap.keys (ChunkCache.map c)) =
            JsMap.keys (ChunkCache.map c)) as Hfil.
    { by apply filter_ne_absent. }
    rewrite Hfil in Hj0.
    set (ks := JsMap.keys (ChunkCache.map c)) in *.
    assert (JsMap.keys (ChunkCache.map (ChunkCache.set c k b)) ++ kbs.*1 =
            drop (j0 `min` length ks) (ks ++ k :: kbs.*1)) as Hshape.
    { rewrite Hj0. rewrite drop_app_le by lia. rewrite <- app_assoc. simpl.
      f_equal. destruct (decide (j0 ≤ length ks)%nat).
      - by rewrite Nat.min_l.
      - rewrite Nat.min_r by lia. by rewrite !drop_ge by lia. }
    destruct (IH (ChunkCache.set c k b)) as [j Hj].
    + apply set_spec, Hwf.
    + rewrite Hshape. apply (sublist_NoDup _ (ks ++ k :: kbs.*1)); [done|].
      apply sublist_drop.
    + change (cache_run c (op_of_insert <$> (k, b) :: kbs))
        with (cache_run (ChunkCache.set c k b) (op_of_insert <$> kbs)).
      exists (j0 `min` length ks + j)%nat. rewrite Hj, Hshape, drop_drop. done.
Qed.
End CacheOrder.

(** C6.  (1) After [set]s of pairwise distinct keys [k1 .. kn] on the empty
    cache the resident keys are [k(j+1) .. kn] for some [j], in that order:
    the keys evicted so far are the first [j] inserted ones.  (2) A [set]
    evicts from the front of the recency order and makes its key the last.
    (3) A [get] that hits returns the stored bytes, keeps the other keys in
    order and makes its key the last.  (4) After such a [get] of [k], in
    every later run of [set]s and [get]s that does not touch [older], when
    [k] is no longer resident neither is [older]. *)
Theorem C6_lru_order (c : ChunkCache.t) (k : string) (buf : Buffer) :
  cache_wf c →
  JsMap.get (ChunkCache.map c) k = Some buf →
  (∀ maxBytes (kbs : list (string * Buffer)),
     NoDup kbs.*1 →
     ∃ j, JsMap.keys (ChunkCache.map
            (cache_run (ChunkCache.new maxBytes) (op_of_insert <$> kbs))) =
          drop j kbs.*1) ∧
  (∀ key b,
     ∃ j, JsMap.keys (ChunkCache.map (ChunkCache.set c key b)) =
          drop j (filter (λ y, y ≠ key) (JsMap.keys (ChunkCache.map c))) ++ [key]) ∧
  (ChunkCache.get c k).1 = Some buf ∧
  JsMap.keys (ChunkCache.map (ChunkCache.get c k).2) =
    filter (λ y, y ≠ k) (JsMap.keys (ChunkCache.map c)) ++ [k] ∧
  (∀ older ops,
     older ≠ k →
     Forall op_is_set_or_get ops →
     Forall (λ op, ¬ op_touches older op) ops →
     let c' := cache_run (ChunkCache.get c k).2 ops in
     ChunkCache.has c' k = false → ChunkCache.has c' older = false).
Proof.
  intros Hwf Hget.
  destruct (get_keys_hit c k buf Hwf Hget) as [Hres Hkeys].
  split; [|split; [|split; [|split]]].
  - intros maxBytes kbs Hnd.
    apply (inserts_keys (ChunkCache.new maxBytes) kbs); [apply new_wf | done].
  - intros key b. by apply set_keys.
  - by rewrite Hres.
  - done.
  - intros older ops Hne Hsg Hnt c' Hk.
    apply JsMap_has_false. apply JsMap_has_false in Hk.
    apply (behind_gone older k); [|done].
    apply cache_run_behind; [by apply get_wf | done..|].
    rewrite Hkeys. by apply behind_snoc_newer.
Qed.

Lemma C6_lru_order_witness :
  let c := cache_run (ChunkCache.new 3)
             [OpSet "a" [Byte.x01]; OpSet "b" [Byte.x02]; OpSet "c" [Byte.x03]] in
  JsMap.keys (ChunkCache.map (ChunkCache.get c "a").2) = ["b"; "c"; "a"]%string ∧
  (ChunkCache.get c "a").1 = Some [Byte.x01].
Proof.
  intros c.
  destruct (C6_lru_order c "a" [Byte.x01]) as (_ & _ & Hres & Hkeys & _).
  - apply cache_run_wf, new_wf.
  - reflexivity.
  - split; [|exact Hres]. rewrite Hkeys. reflexivity.
Defined.

(** ** Cache keys *)

Section Keys.
Lemma num_to_string_inj n m : num_to_string n = num_to_string m → n = m.
Proof.
  unfold num_to_string. intros H. apply DecimalZ.to_int_inj.
  assert (∀ z, Z.to_int z ≠ Decimal.Pos Decimal.Nil ∧
               Z.to_int z ≠ Decimal.Neg Decimal.Nil) as Hnn.
  { intros [|p|p]; simpl; split; try discriminate;
      intros [=E]; by apply Unsigned.to_uint_nonnil in E. }
  destruct (Hnn n) as [Hn1 Hn2]. destruct (Hnn m) as [Hm1 Hm2].
  pose proof (NilZero.isi _ Hn1 Hn2) as En.
  pose proof (NilZero.isi _ Hm1 Hm2) as Em.
  rewrite H in En. congruence.
Qed.

Lemma cacheKeyOf_inj videoId i j :
  cacheKeyOf videoId i = cacheKeyOf videoId j → i = j.
Proof.
  unfold cacheKeyOf. intros H.
  apply String.app_inj in H. apply String.app_inj in H.
  by apply num_to_string_inj.
Qed.

Lemma prefix_app p s : String.prefix p (p ++ s) = true.
Proof.
  induction p as [|a p IH]; simpl; [by destruct s|].
  destruct (ascii_dec a a); [done | congruence].
Qed.

Lemma append_cons a (s1 s2 : string) :
  (String a s1 ++ s2 = String a (s1 ++ s2))%string.
Proof. reflexivity. Qed.

Lemma append_assoc (s1 s2 s3 : string) :
  ((s1 ++ s2) ++ s3 = s1 ++ s2 ++ s3)%string.
Proof.
  induction s1 as [|a s1 IH]; [done|].
  by rewrite !append_cons, IH.
Qed.

Lemma cacheKeyOf_prefix videoId i :
  String.prefix (videoId ++ ":") (cacheKeyOf videoId i) = true.
Proof.
  unfold cacheKeyOf. rewrite <- append_assoc. apply prefix_app.
Qed.
End Keys.

(** ** Contents of the cache *)

Section CacheContents.
Implicit Types (c : ChunkCache.t) (m : JsMap.t Buffer) (k key : string)
  (buf : Buffer).

Lemma JsMap_get_elem m k buf :
  NoDup (JsMap.keys m) → JsMap.get m k = Some buf ↔ (k, buf) ∈ m.
Proof.
  induction m as [|[k' b] m IH]; simpl.
  - intros _. split; [done | intros H; by apply not_elem_of_nil in H].
  - intros [Hni Hnd]%NoDup_cons. rewrite elem_of_cons.
    destruct (String.eqb_spec k' k) as [->|Hne].
    + split; [intros [= ->]; by left|].
      intros [[= ->]|Hin]; [done|]. exfalso. apply Hni.
      apply list_elem_of_fmap. by exists (k, buf).
    + rewrite IH by done. split; [by right|].
      intros [[= ? ?]|Hin]; [congruence | done].
Qed.

Lemma JsMap_elem_delete m k k' buf :
  (k', buf) ∈ JsMap.delete m k → (k', buf) ∈ m ∧ k' ≠ k.
Proof.
  induction m as [|[k0 b] m IH]; simpl; [intros H; by apply not_elem_of_nil in H|].
  destruct (String.eqb_spec k0 k) as [->|Hne].
  - intros [Hin Hn]%IH. split; [by apply elem_of_cons; right | done].
  - rewrite !elem_of_cons. intros [[= -> ->]|[Hin Hn]%IH]; [by split; [left|]|].
    split; [by right | done].
Qed.

(** An entry found after [set] is the new one or was there before. *)
Lemma set_get c key buf k b :
  cache_wf c →
  JsMap.get (ChunkCache.map (ChunkCache.set c key buf)) k = Some b →
  (k = key ∧ b = buf) ∨ (k ≠ key ∧ JsMap.get (ChunkCache.map c) k = Some b).
Proof.
  intros Hwf Hget.
  destruct (set_spec c key buf Hwf) as ([Hnd' _] & _ & [j Hj] & _).
  apply JsMap_get_elem in Hget; [|done]. rewrite Hj in Hget.
  apply elem_of_app in Hget as [Hin|Hin].
  - right. apply subseteq_drop in Hin.
    apply JsMap_elem_delete in Hin as [Hin Hne]. split; [done|].
    apply JsMap_get_elem; [apply Hwf | done].
  - left. apply list_elem_of_singleton in Hin. by injection Hin.
Qed.

Lemma set_has c key buf k :
  cache_wf c →
  ChunkCache.has (ChunkCache.set c key buf) k = true →
  k = key ∨ ChunkCache.has c k = true.
Proof.
  intros Hwf. unfold ChunkCache.has, JsMap.has.
  destruct (JsMap.get (ChunkCache.map (ChunkCache.set c key buf)) k) as [b|] eqn:E;
    [|done].
  intros _. apply set_get in E as [[-> _]|[_ ->]]; auto.
Qed.

Lemma set_has_key c key buf :
  cache_wf c → ChunkCache.has (ChunkCache.set c key buf) key = true.
Proof.
  intros Hwf. destruct (set_spec c key buf Hwf) as (_ & _ & [j Hj] & _).
  apply JsMap_has_true. rewrite Hj, JsMap_keys_app. apply elem_of_app. right.
  simpl. apply list_elem_of_singleton. done.
Qed.

(** [get] moves an entry and changes no content. *)
Lemma get_get c key k :
  cache_wf c →
  JsMap.get (ChunkCache.map (ChunkCache.get c key).2) k =
  JsMap.get (ChunkCache.map c) k.
Proof.
  intros Hwf. pose proof (get_spec c key Hwf) as H.
  destruct (JsMap.get (ChunkCache.map c) key) as [buf|] eqn:Hget.
  - destruct H as (c' & -> & _ & _ & _ & Hmap). simpl.
    rewrite Hmap, JsMap_get_app, JsMap_get_delete.
    destruct (decide (key = k)) as [->|Hne]; simpl.
    + by rewrite String.eqb_refl.
    + destruct (JsMap.get (ChunkCache.map c) k); [done|].
      destruct (String.eqb_spec key k); [congruence | done].
  - by rewrite H.
Qed.

Lemma get_result c key :
  (ChunkCache.get c key).1 = JsMap.get (ChunkCache.map c) key.
Proof. unfold ChunkCache.get. by destruct (JsMap.get _ _). Qed.

Lemma get_has c key k :
  cache_wf c →
  ChunkCache.has (ChunkCache.get c key).2 k = ChunkCache.has c k.
Proof. intros Hwf. unfold ChunkCache.has, JsMap.has. by rewrite get_get. Qed.
End CacheContents.

(** ** What the fetch path leaves alone *)

Section Frames.
Implicit Types (st : Runtime) (tr : list event) (keys : list string).

Lemma writes_app tr1 tr2 : writes (tr1 ++ tr2) = writes tr1 ++ writes tr2.
Proof. apply omap_app. Qed.

Lemma heads_app tr1 tr2 : heads (tr1 ++ tr2) = heads tr1 ++ heads tr2.
Proof. apply omap_app. Qed.

Lemma seeks_app tr1 tr2 : seeks (tr1 ++ tr2) = seeks tr1 ++ seeks tr2.
Proof. apply omap_app. Qed.

Lemma fetch_calls_app tr1 tr2 :
  fetch_calls (tr1 ++ tr2) = fetch_calls tr1 ++ fetch_calls tr2.
Proof. apply omap_app. Qed.

Lemma body_of_app tr1 tr2 : body_of (tr1 ++ tr2) = body_of tr1 ++ body_of tr2.
Proof. unfold body_of. by rewrite writes_app, concat_app. Qed.

Lemma body_of_write (b : Buffer) : body_of [EvWrite b] = b.
Proof. unfold body_of. simpl. apply app_nil_r. Qed.

Lemma body_of_quiet tr : writes tr = [] → body_of tr = [].
Proof. unfold body_of. by intros ->. Qed.

Lemma frame_refl keys st : fetch_frame keys st st [].
Proof. split; auto. by rewrite app_nil_r. Qed.

Lemma frame_trans keys st st' st'' tr tr' :
  fetch_frame keys st st' tr → fetch_frame keys st' st'' tr' →
  fetch_frame keys st st'' (tr ++ tr').
Proof.
  intros [] []. split.
  - rewrite app_assoc. congruence.
  - rewrite writes_app. by rewrite ff_writes0, ff_writes1.
  - rewrite heads_app. by rewrite ff_heads0, ff_heads1.
  - rewrite seeks_app. by rewrite ff_seeks0, ff_seeks1.
  - congruence.
  - auto.
  - intros Hwf k Hk. apply ff_keys1 in Hk as [?|Hk]; auto.
Qed.

Lemma frame_weaken keys keys' st st' tr :
  keys ⊆ keys' → fetch_frame keys st st' tr → fetch_frame keys' st st' tr.
Proof.
  intros Hsub []. split; auto.
  intros Hwf k Hk. apply ff_keys0 in Hk as [?|?]; auto.
Qed.

(** Elementary steps. *)
Lemma frame_same keys st st' :
  trace st' = trace st → activeStreams st' = activeStreams st →
  chunkCache st' = chunkCache st → fetch_frame keys st st' [].
Proof.
  intros Ht Ha Hc. split; auto.
  - by rewrite app_nil_r.
  - by rewrite Hc.
  - intros _ k. rewrite Hc. auto.
Qed.

Lemma frame_emit keys st e :
  writes [e] = [] → heads [e] = [] → seeks [e] = [] →
  fetch_frame keys st (emit e st) [e].
Proof. intros. split; auto. Qed.

Lemma frame_cache_set keys st key buf :
  key ∈ keys →
  fetch_frame keys st
    (with_cache (ChunkCache.set (chunkCache st) key buf) st) [].
Proof.
  intros Hin. split; simpl; auto.
  - by rewrite app_nil_r.
  - intros Hwf. by apply set_spec.
  - intros Hwf k Hk. apply set_has in Hk as [->|Hk]; auto.
Qed.

Lemma frame_cache_get keys st key :
  fetch_frame keys st
    (with_cache (ChunkCache.get (chunkCache st) key).2 st) [].
Proof.
  split; simpl; auto.
  - by rewrite app_nil_r.
  - intros Hwf. by apply get_wf.
  - intros Hwf k. rewrite get_has by done. auto.
Qed.

Lemma frame_on_attempt_error keys attempt st :
  ∃ tr, fetch_frame keys st (on_attempt_error attempt st) tr ∧
        fetch_calls tr = [].
Proof.
  unfold on_attempt_error. destruct (attempt =? MAX_RETRIES).
  - exists []. split; [apply frame_refl | done].
  - eexists. split; [by apply frame_emit | done].
Qed.

Lemma downloadAttempt_frame w cacheKey loc dcId chunkIndex offset attempt st :
  ∃ tr,
    fetch_frame [cacheKey] st
      (downloadAttempt w cacheKey loc dcId chunkIndex offset attempt st).2 tr ∧
    fetch_calls tr = [].
Proof.
  unfold downloadAttempt.
  destruct (getClient (clientPool st) (chunkIndex + attempt - 1)) as [slot|];
    [|apply frame_on_attempt_error].
  set (is_connected := match clientPool st !! slot with
                       | Some c => connected c | None => true end).
  (* the reconnect *)
  assert (∃ tr1,
    let '(_, st1) :=
      (if is_connected then (true, st)
       else
         let st' := tick (emit (EvConnect slot) st) in
         if w_connect w (clock st) slot
         then (true, with_pool (mark_connected slot (clientPool st')) st')
         else if attempt <? MAX_RETRIES
              then (false, emit (EvSleep (backoff attempt)) st')
              else (true, st')) in
    fetch_frame [cacheKey] st st1 tr1 ∧ fetch_calls tr1 = []) as [tr1 H1].
  { destruct is_connected; [exists []; split; [apply frame_refl | done]|].
    assert (fetch_frame [cacheKey] st (tick (emit (EvConnect slot) st))
              ([EvConnect slot] ++ [])) as Hc.
    { eapply frame_trans; [by apply frame_emit | by apply frame_same]. }
    destruct (w_connect w (clock st) slot).
    - eexists. split; [|shelve].
      eapply frame_trans; [apply Hc | by apply frame_same].
      Unshelve. done.
    - destruct (attempt <? MAX_RETRIES).
      + eexists. split; [eapply frame_trans; [apply Hc | by apply frame_emit]|done].
      + eexists. split; [apply Hc | done]. }
  destruct (if is_connected then _ else _) as [proceed st1].
  destruct H1 as [Hf1 Hc1].
  destruct proceed; [|by exists tr1].
  set (st2 := tick (emit (EvIterDownload slot offset) st1)).
  assert (fetch_frame [cacheKey] st st2 (tr1 ++ ([EvIterDownload slot offset] ++ [])))
    as Hf2.
  { eapply frame_trans; [apply Hf1|].
    eapply frame_trans; [by apply frame_emit | by apply frame_same]. }
  assert (fetch_calls (tr1 ++ ([EvIterDownload slot offset] ++ [])) = []) as Hc2.
  { by rewrite fetch_calls_app, Hc1. }
  destruct (w_iterDownload w (clock st1) slot loc dcId offset) as [| |buf];
    cbn [snd].
  - destruct (frame_on_attempt_error [cacheKey] attempt st2) as (tr3 & Hf3 & Hc3).
    eexists. split; [eapply frame_trans; [apply Hf2 | apply Hf3]|].
    by rewrite fetch_calls_app, Hc2, Hc3.
  - eexists. split; [apply Hf2 | apply Hc2].
  - destruct (0 <? Buffer_length buf); cbn [snd];
      [|eexists; split; [apply Hf2 | apply Hc2]].
    eexists. split; [eapply frame_trans; [apply Hf2|]|].
    + apply frame_cache_set. apply list_elem_of_singleton. done.
    + by rewrite app_nil_r.
Qed.

Lemma retryLoop_frame remaining w cacheKey loc dcId chunkIndex offset st :
  ∃ tr,
    fetch_frame [cacheKey] st
      (retryLoop remaining w cacheKey loc dcId chunkIndex offset st).2 tr ∧
    fetch_calls tr = [].
Proof.
  revert st. induction remaining as [|r IH]; intros st; simpl.
  - exists []. split; [apply frame_refl | done].
  - destruct (downloadAttempt_frame w cacheKey loc dcId chunkIndex offset
                (MAX_RETRIES - Z.of_nat r) st) as (tr1 & Hf1 & Hc1).
    destruct (downloadAttempt _ _ _ _ _ _ _ _) as [[buf|] st1]; simpl in *.
    + eauto.
    + destruct (IH st1) as (tr2 & Hf2 & Hc2).
      exists (tr1 ++ tr2). split; [by eapply frame_trans|].
      by rewrite fetch_calls_app, Hc1, Hc2.
Qed.

Lemma _downloadChunkImpl_frame w cacheKey loc chunkIndex fileSize dcId st :
  ∃ tr,
    fetch_frame [cacheKey] st
      (_downloadChunkImpl w cacheKey loc chunkIndex fileSize dcId st).2 tr ∧
    fetch_calls tr = [].
Proof.
  unfold _downloadChunkImpl. destruct (_ >=? _); cbn [snd].
  - exists []. split; [apply frame_refl | done].
  - apply retryLoop_frame.
Qed.

Lemma awaitInFlight_frame cacheKey settled st :
  fetch_frame [cacheKey] st (awaitInFlight cacheKey settled st).2 [].
Proof.
  unfold awaitInFlight. cbn [snd].
  set (cache' := match settled with Some _ => _ | None => _ end).
  apply (frame_trans [cacheKey] st (with_cache cache' st) _ [] []);
    [|by apply frame_same].
  subst cache'. destruct settled as [buf|]; [|by apply frame_same].
  destruct (0 <? Buffer_length buf); [|by apply frame_same].
  apply frame_cache_set, list_elem_of_singleton. done.
Qed.

Lemma downloadChunk_frame w videoId loc chunkIndex fileSize dcId st :
  ∃ tr,
    fetch_frame [cacheKeyOf videoId chunkIndex] st
      (downloadChunk w videoId loc chunkIndex fileSize dcId st).2 tr ∧
    fetch_calls tr = [chunkIndex].
Proof.
  unfold downloadChunk.
  set (key := cacheKeyOf videoId chunkIndex).
  set (st0 := emit (EvDownloadChunk videoId chunkIndex) st).
  assert (fetch_frame [key] st st0 [EvDownloadChunk videoId chunkIndex]) as H0
    by (by apply frame_emit).
  pose proof (frame_cache_get [key] st0 key) as H1.
  destruct (ChunkCache.get (chunkCache st0) key) as [cached cache'] eqn:Hget.
  cbn [snd] in H1. set (st1 := with_cache cache' st0) in *.
  pose proof (frame_trans _ _ _ _ _ _ H0 H1) as H01.
  destruct (match cached with Some b => _ | None => false end); cbn [snd].
  { eexists. split; [apply H01 | done]. }
  destruct (inFlight st1 !! key) as [settled|] eqn:Hfl.
  - pose proof (awaitInFlight_frame key settled st1) as H2.
    eexists. split; [eapply frame_trans; [apply H01 | apply H2] | done].
  - destruct (_downloadChunkImpl_frame w key loc chunkIndex fileSize dcId st1)
      as (tr2 & H2 & Hc2).
    destruct (_downloadChunkImpl _ _ _ _ _ _ _) as [result st2]. cbn [snd] in *.
    eexists. split.
    + eapply frame_trans; [apply H01|].
      eapply frame_trans; [apply H2 | by apply frame_same].
    + rewrite !fetch_calls_app, Hc2. done.
Qed.
End Frames.

(** ** The burst and the body loop, whatever the transport answers *)

Section ServerFrames.
Implicit Types (st : Runtime) (tr : list event) (info : StreamInfo).

Lemma get_miss_of_has c key :
  ChunkCache.has c key = false → ChunkCache.get c key = (None, c).
Proof.
  unfold ChunkCache.has, JsMap.has. intros H. apply get_miss.
  by destruct (JsMap.get (ChunkCache.map c) key).
Qed.

(** A queued index that is not cached goes through [downloadChunk]. *)
Lemma fetchQueued_frame w videoId loc fileSize dcId results st idx :
  ChunkCache.has (chunkCache st) (cacheKeyOf videoId idx) = false →
  ∃ tr,
    fetch_frame [cacheKeyOf videoId idx] st
      (fetchQueued w videoId loc fileSize dcId (results, st) idx).2 tr ∧
    fetch_calls tr = [idx].
Proof.
  intros Hmiss. unfold fetchQueued.
  rewrite (get_miss_of_has _ _ Hmiss).
  assert (with_cache (chunkCache st) st = st) as -> by by destruct st.
  destruct (downloadChunk_frame w videoId loc idx fileSize dcId st)
    as (tr & Hf & Hc).
  destruct (downloadChunk _ _ _ _ _ _ _) as [buf st']. cbn [snd] in *.
  eauto.
Qed.

Lemma fetchQueued_fold_frame w videoId loc fileSize dcId indices results st :
  cache_wf (chunkCache st) → NoDup indices →
  (∀ i, i ∈ indices →
        ChunkCache.has (chunkCache st) (cacheKeyOf videoId i) = false) →
  ∃ tr,
    fetch_frame (cacheKeyOf videoId <$> indices) st
      (fold_left (fetchQueued w videoId loc fileSize dcId) indices
                 (results, st)).2 tr ∧
    fetch_calls tr = indices.
Proof.
  revert results st. induction indices as [|idx indices IH];
    intros results st Hwf Hnd Hmiss.
  - exists []. split; [apply frame_refl | done].
  - apply NoDup_cons in Hnd as [Hni Hnd].
    destruct (fetchQueued_frame w videoId loc fileSize dcId results st idx)
      as (tr1 & Hf1 & Hc1).
    { apply Hmiss. by left. }
    cbn [fold_left].
    destruct (fetchQueued w videoId loc fileSize dcId (results, st) idx)
      as [results1 st1]. cbn [snd] in Hf1.
    destruct (IH results1 st1) as (tr2 & Hf2 & Hc2).
    + by apply Hf1.
    + done.
    + intros i Hi.
      destruct (ChunkCache.has (chunkCache st1) (cacheKeyOf videoId i)) eqn:E;
        [|done].
      apply (ff_keys _ _ _ _ Hf1 Hwf) in E as [E|E].
      * apply list_elem_of_singleton, cacheKeyOf_inj in E. congruence.
      * rewrite Hmiss in E; [done | by right].
    + exists (tr1 ++ tr2). split.
      * eapply frame_trans.
        -- eapply frame_weaken; [|apply Hf1].
           intros k ->%list_elem_of_singleton. rewrite fmap_cons. by left.
        -- eapply frame_weaken; [|apply Hf2].
           intros k Hk. rewrite fmap_cons. by right.
      * by rewrite fetch_calls_app, Hc1, Hc2.
Qed.

Lemma downloadChunksParallel_frame w videoId loc indices fileSize dcId st :
  cache_wf (chunkCache st) → NoDup indices →
  (∀ i, i ∈ indices →
        ChunkCache.has (chunkCache st) (cacheKeyOf videoId i) = false) →
  ∃ tr,
    fetch_frame (cacheKeyOf videoId <$> indices) st
      (downloadChunksParallel w videoId loc indices fileSize dcId st).2 tr ∧
    fetch_calls tr = indices.
Proof.
  intros Hwf Hnd Hmiss. unfold downloadChunksParallel.
  destruct indices as [|idx indices].
  - exists []. split; [apply frame_refl | done].
  - replace (Z.min PARALLEL_WORKERS (Z.of_nat (length (idx :: indices))) <=? 0)
      with false.
    + by apply fetchQueued_fold_frame.
    + symmetry. apply Z.leb_gt. unfold PARALLEL_WORKERS, CLIENT_POOL_SIZE,
        WORKERS_PER_CONN. simpl length. lia.
Qed.

Lemma burstIndices_spec cache videoId firstChunk burstEnd :
  NoDup (burstIndices cache videoId firstChunk burstEnd) ∧
  ∀ i, i ∈ burstIndices cache videoId firstChunk burstEnd ↔
       ChunkCache.has cache (cacheKeyOf videoId i) = false ∧
       firstChunk <= i < burstEnd.
Proof.
  unfold burstIndices. split.
  - apply NoDup_filter, NoDup_seqZ.
  - intros i. rewrite list_elem_of_filter, elem_of_seqZ. intuition lia.
Qed.

(** [downloader.seekTo] and [downloader.notifyPlayback] touch nothing but
    the downloader. *)
Lemma call_downloader_same ref m st :
  trace (call_downloader ref m st) = trace st ∧
  chunkCache (call_downloader ref m st) = chunkCache st ∧
  inFlight (call_downloader ref m st) = inFlight st ∧
  clientPool (call_downloader ref m st) = clientPool st ∧
  activeStreams (call_downloader ref m st) = activeStreams st.
Proof. done. Qed.

(** The burst: a seek when there is a downloader, then one
    [downloadChunk] per index of the burst, and no response event. *)
Lemma seekBurst_cold w videoId info start st :
  cache_wf (chunkCache st) →
  let firstChunk := start / CHUNK_SIZE in
  let burstEnd := Z.min (firstChunk + SEEK_PREBUF_CHUNKS)
                    (ceil_div (si_fileSize info) CHUNK_SIZE) in
  ChunkCache.has (chunkCache st) (cacheKeyOf videoId firstChunk) = false →
  ∃ tr,
    trace (seekBurst w videoId info start st) =
      trace st ++
      match si_downloader info with
      | Some _ => [EvSeekTo videoId firstChunk]
      | None => []
      end ++ tr ∧
    writes tr = [] ∧ heads tr = [] ∧ seeks tr = [] ∧
    fetch_calls tr = burstIndices (chunkCache st) videoId firstChunk burstEnd ∧
    cache_wf (chunkCache (seekBurst w videoId info start st)).
Proof.
  intros Hwf firstChunk burstEnd Hcold. unfold seekBurst.
  fold firstChunk. rewrite Hcold. cbn [negb].
  set (st1 := match si_downloader info with Some _ => _ | None => st end).
  assert (trace st1 = trace st ++
            match si_downloader info with
            | Some _ => [EvSeekTo videoId firstChunk] | None => [] end ∧
          chunkCache st1 = chunkCache st) as [Ht1 Hc1].
  { subst st1. destruct (si_downloader info); [done|].
    by rewrite app_nil_r. }
  fold burstEnd. rewrite Hc1.
  set (indices := burstIndices (chunkCache st) videoId firstChunk burstEnd).
  destruct (burstIndices_spec (chunkCache st) videoId firstChunk burstEnd)
    as [Hnd Hin]. fold indices in Hnd, Hin.
  destruct (0 <? Z.of_nat (length indices)) eqn:Hlen.
  - destruct (downloadChunksParallel_frame w videoId (si_inputLocation info)
                indices (si_fileSize info) (si_dcId info) st1)
      as (tr & Hf & Hcalls).
    { by rewrite Hc1. }
    { done. }
    { intros i Hi. rewrite Hc1. by apply Hin. }
    exists tr. destruct Hf. rewrite ff_trace0, Ht1, <- app_assoc.
    split_and!; auto. apply ff_wf0. by rewrite Hc1.
  - exists []. rewrite app_nil_r. split_and!; auto; [|by rewrite Hc1].
    apply Z.ltb_ge in Hlen.
    destruct indices; [done | simpl length in Hlen; lia].
Qed.

(** Whether or not the first chunk is cached, the burst produces no
    response event. *)
Lemma seekBurst_quiet w videoId info start st :
  cache_wf (chunkCache st) →
  ∃ tr,
    trace (seekBurst w videoId info start st) = trace st ++ tr ∧
    writes tr = [] ∧ heads tr = [] ∧
    cache_wf (chunkCache (seekBurst w videoId info start st)).
Proof.
  intros Hwf.
  destruct (ChunkCache.has (chunkCache st)
              (cacheKeyOf videoId (start / CHUNK_SIZE))) eqn:Hhas.
  - exists []. unfold seekBurst. rewrite Hhas. cbn [negb].
    by rewrite app_nil_r.
  - destruct (seekBurst_cold w videoId info start st Hwf Hhas)
      as (tr & Ht & Hw & Hh & _ & _ & Hwf').
    eexists. split; [apply Ht|].
    rewrite writes_app, heads_app, Hw, Hh.
    by destruct (si_downloader info).
Qed.
End ServerFrames.

(** ** Slices of a buffer *)

Section Slices.
Implicit Types (b content : Buffer).

Lemma Buffer_slice_length b from to :
  0 <= from → from <= to → to <= Buffer_length b →
  Buffer_length (Buffer_slice b from to) = to - from.
Proof.
  unfold Buffer_length, Buffer_slice. intros H1 H2 H3.
  rewrite length_take, length_drop. lia.
Qed.

Lemma Buffer_slice_nil b from : Buffer_slice b from from = [].
Proof. unfold Buffer_slice. by rewrite Z.sub_diag. Qed.

Lemma Buffer_slice_app b s m e :
  0 <= s → s <= m → m <= e →
  Buffer_slice b s m ++ Buffer_slice b m e = Buffer_slice b s e.
Proof.
  unfold Buffer_slice. intros H1 H2 H3.
  replace (Z.to_nat m) with (Z.to_nat s + Z.to_nat (m - s))%nat by lia.
  rewrite <- drop_drop, take_take_drop. f_equal. lia.
Qed.

Lemma Buffer_slice_slice b a c x y :
  0 <= a → 0 <= x → x <= y → a + y <= c →
  Buffer_slice (Buffer_slice b a c) x y = Buffer_slice b (a + x) (a + y).
Proof.
  unfold Buffer_slice. intros H1 H2 H3 H4.
  rewrite skipn_firstn_comm, take_take, drop_drop.
  f_equal; [lia | f_equal; lia].
Qed.

Lemma Buffer_slice_all b : Buffer_slice b 0 (Buffer_length b) = b.
Proof.
  unfold Buffer_slice, Buffer_length. rewrite Z.sub_0_r, Nat2Z.id.
  simpl. apply firstn_all.
Qed.

Lemma chunk_of_length content i :
  0 <= i → i * CHUNK_SIZE < Buffer_length content →
  Buffer_length (chunk_of content i) =
  Z.min ((i + 1) * CHUNK_SIZE) (Buffer_length content) - i * CHUNK_SIZE.
Proof.
  intros Hi Hlt. unfold chunk_of. apply Buffer_slice_length;
    unfold CHUNK_SIZE in *; lia.
Qed.
End Slices.

(** ** Pool lookup *)

Lemma getClient_ready pool idx :
  pool_ready pool → 0 <= idx →
  ∃ slot c, getClient pool idx = Some slot ∧ pool !! slot = Some c ∧
            connected c = true ∧
            Z.of_nat slot = idx `mod` Z.of_nat (length pool).
Proof.
  intros [Hne Hall] Hidx. unfold getClient.
  assert (0 < Z.of_nat (length pool)) as Hlen by (destruct pool; simpl; [done|lia]).
  destruct (Z.eqb_spec (Z.of_nat (length pool)) 0) as [|_]; [lia|].
  pose proof (Z.rem_bound_pos idx _ Hidx Hlen) as [Hr1 Hr2].
  destruct (Z.ltb_spec (Z.rem idx (Z.of_nat (length pool))) 0) as [|_]; [lia|].
  destruct (lookup_lt_is_Some_2 pool (Z.to_nat (Z.rem idx (Z.of_nat (length pool)))))
    as [c Hc]; [lia|].
  eexists. exists c. split_and!; [done | done | |].
  - rewrite Forall_forall in Hall. apply Hall. by eapply list_elem_of_lookup_2.
  - rewrite Z2Nat.id by done. apply Z.rem_mod_nonneg; lia.
Qed.

(** ** The body loop terminates *)

Section BodyLoop.
Implicit Types (st : Runtime) (tr : list event) (info : StreamInfo).

Lemma obtainChunk_frame w videoId info chunkIndex st :
  ∃ tr, fetch_frame [cacheKeyOf videoId chunkIndex] st
          (obtainChunk w videoId info chunkIndex st).2 tr.
Proof.
  unfold obtainChunk. set (key := cacheKeyOf videoId chunkIndex).
  pose proof (frame_cache_get [key] st key) as H1.
  destruct (ChunkCache.get (chunkCache st) key) as [chunkBuf cache'].
  cbn [snd] in H1. set (st1 := with_cache cache' st) in *.
  assert (∃ tr2,
            fetch_frame [key] st
              (match chunkBuf, inFlight st1 !! key with
               | None, Some settled => awaitInFlight key settled st1
               | _, _ => (chunkBuf, st1)
               end).2 tr2) as [tr2 H2].
  { destruct chunkBuf as [b|]; [by exists []|].
    destruct (inFlight st1 !! key) as [settled|]; [|by exists []].
    eexists. eapply frame_trans; [apply H1 | apply awaitInFlight_frame]. }
  destruct (match chunkBuf, inFlight st1 !! key with
            | None, Some settled => _ | _, _ => _ end) as [chunkBuf2 st2].
  cbn [snd] in H2. destruct chunkBuf2 as [b|]; [by exists tr2|].
  destruct (downloadChunk_frame w videoId (si_inputLocation info) chunkIndex
              (si_fileSize info) (si_dcId info) st2) as (tr3 & H3 & _).
  eexists. eapply frame_trans; [apply H2 | apply H3].
Qed.

Lemma notify_same info chunkIndex st :
  let st' := match si_downloader info with
             | Some downloader =>
                 call_downloader downloader
                   (λ d, StreamDownloader.notifyPlayback d chunkIndex) st
             | None => st
             end in
  trace st' = trace st ∧ chunkCache st' = chunkCache st ∧
  inFlight st' = inFlight st ∧ clientPool st' = clientPool st.
Proof. by destruct (si_downloader info). Qed.

(** Every round either writes at least one byte or counts a failure, so
    five rounds per outstanding byte and one more always suffice. *)
Lemma serveLoop_total w videoId info targetEnd fuel :
  ∀ bytePos consecutiveFailures round st,
    0 <= consecutiveFailures < MAX_CONSECUTIVE_FAILURES →
    Z.max 0 (MAX_CONSECUTIVE_FAILURES * (targetEnd - bytePos) - consecutiveFailures)
      < Z.of_nat fuel →
    ∃ st' tr,
      serveLoop fuel w videoId info targetEnd bytePos consecutiveFailures
        round st = Some st' ∧
      trace st' = trace st ++ tr ∧ heads tr = [] ∧ seeks tr = [].
Proof.
  unfold MAX_CONSECUTIVE_FAILURES.
  induction fuel as [|fuel IH]; intros bytePos cf round st Hcf Hfuel; [lia|].
  cbn [serveLoop].
  destruct ((bytePos <? targetEnd) && negb (w_destroyed w round)) eqn:Hcond.
  2: { exists st, []. by rewrite app_nil_r. }
  apply andb_true_iff in Hcond as [Hlt%Z.ltb_lt _].
  set (st0 := match si_downloader info with Some _ => _ | None => st end).
  destruct (notify_same info (bytePos / CHUNK_SIZE) st) as (Ht0 & _).
  fold st0 in Ht0.
  destruct (obtainChunk_frame w videoId info (bytePos / CHUNK_SIZE) st0)
    as [tr1 Hf1].
  destruct (obtainChunk w videoId info (bytePos / CHUNK_SIZE) st0)
    as [chunkBuf st1]. cbn [snd] in Hf1. destruct Hf1.
  destruct (match chunkBuf with Some b => _ | None => true end).
  - unfold MAX_CONSECUTIVE_FAILURES.
    destruct (Z.geb_spec (cf + 1) 5).
    + exists st1, tr1. split_and!; [done | congruence | done | done].
    + destruct (IH bytePos (cf + 1) (S round) (emit (EvSleep 500) st1))
        as (st' & tr & Hrun & Htr & Hh & Hs); [lia | lia |].
      exists st', (tr1 ++ [EvSleep 500] ++ tr). split_and!; [done | | |].
      * rewrite Htr. simpl. rewrite ff_trace0, Ht0, <- !app_assoc. done.
      * rewrite !heads_app, ff_heads0, Hh. done.
      * rewrite !seeks_app, ff_seeks0, Hs. done.
  - set (toWrite := Z.min _ _).
    destruct (Z.leb_spec toWrite 0).
    + exists st1, tr1. split_and!; [done | congruence | done | done].
    + match goal with
      | |- context [emit ?e st1] =>
          destruct (IH (bytePos + toWrite) 0 (S round) (emit e st1))
            as (st' & tr & Hrun & Htr & Hh & Hs); [lia | lia |];
          exists st', (tr1 ++ [e] ++ tr)
      end.
      split_and!; [done | | |].
      * rewrite Htr. simpl. rewrite ff_trace0, Ht0, <- !app_assoc. done.
      * rewrite !heads_app, ff_heads0, Hh. done.
      * rewrite !seeks_app, ff_seeks0, Hs. done.
Qed.

Lemma serveFuel_enough start targetEnd :
  Z.max 0 (MAX_CONSECUTIVE_FAILURES * (targetEnd - start) - 0)
    < Z.of_nat (serveFuel start targetEnd).
Proof. unfold serveFuel, MAX_CONSECUTIVE_FAILURES. lia. Qed.

(** A request other than HEAD for a registered stream: the head, the
    burst, the body loop and the end of the response, in this order. *)
Lemma handleRequest_get w req st videoId info :
  match_stream_url (req_url req) = Some videoId →
  activeStreams st !! videoId = Some info →
  req_method req ≠ "HEAD"%string →
  let fileSize := si_fileSize info in
  let range := parseRange (req_range req) fileSize in
  let head :=
    if header_present (req_range req)
    then EvWriteHead 206
           (partialHeaders (si_mimeType info) range.1 range.2 fileSize)
    else EvWriteHead 200 (fullHeaders (si_mimeType info) fileSize) in
  let st1 := seekBurst w videoId info range.1 (emit head st) in
  ∃ st2 tr,
    serveLoop (serveFuel range.1 (range.2 + 1)) w videoId info
      (range.2 + 1) range.1 0 0 st1 = Some st2 ∧
    trace st2 = trace st1 ++ tr ∧ heads tr = [] ∧ seeks tr = [] ∧
    handleRequest w req st = Some (emit (EvEnd "") st2).
Proof.
  intros Hurl Hreg Hmeth fileSize range head st1.
  destruct (serveLoop_total w videoId info (range.2 + 1)
              (serveFuel range.1 (range.2 + 1)) range.1 0 0 st1)
    as (st2 & tr & Hrun & Htr & Hh & Hs).
  { unfold MAX_CONSECUTIVE_FAILURES. lia. }
  { apply serveFuel_enough. }
  exists st2, tr. split_and!; try done.
  unfold handleRequest. rewrite Hurl, Hreg.
  destruct (String.eqb_spec (req_method req) "HEAD"); [done|].
  fold fileSize. subst st1 head range.
  destruct (parseRange (req_range req) fileSize) as [start end_].
  cbn [fst snd] in *.
  destruct (header_present (req_range req)); by rewrite Hrun.
Qed.
End BodyLoop.

(** ** Fetching from a transport that serves the stream *)

Section HealthyFetch.
Context (w : World) (videoId : string) (content : Buffer).
Context (Hserves : serves w content).
Implicit Types (st : Runtime) (tr : list event) (info : StreamInfo) (i : Z).

Lemma chunk_of_nonempty i :
  0 <= i → i * CHUNK_SIZE < Buffer_length content →
  (0 <? Buffer_length (chunk_of content i)) = true.
Proof.
  intros Hi Hlt. apply Z.ltb_lt. rewrite chunk_of_length by done.
  unfold CHUNK_SIZE in *. lia.
Qed.

Lemma coherent_get c key :
  cache_wf c → cache_coherent videoId content c →
  cache_coherent videoId content (ChunkCache.get c key).2.
Proof. intros Hwf Hco i b Hi. rewrite get_get by done. by apply Hco. Qed.

Lemma coherent_set c i :
  cache_wf c → 0 <= i → cache_coherent videoId content c →
  cache_coherent videoId content
    (ChunkCache.set c (cacheKeyOf videoId i) (chunk_of content i)).
Proof.
  intros Hwf Hi Hco j b Hj Hget.
  apply set_get in Hget; [|done].
  destruct Hget as [[Hk ->]|[_ Hget]]; [|by apply Hco].
  by apply cacheKeyOf_inj in Hk as ->.
Qed.

Lemma inFlight_coherent_delete (f : gmap string (option Buffer)) key :
  inFlight_coherent videoId content f →
  inFlight_coherent videoId content (delete key f).
Proof.
  intros Hco i v Hi Hl. apply lookup_delete_Some in Hl as [_ Hl]. eauto.
Qed.

Lemma healthy_streams st a :
  healthy videoId content st → healthy videoId content (with_streams a st).
Proof. by intros []. Qed.

Lemma healthy_call_downloader st ref m :
  healthy videoId content st →
  healthy videoId content (call_downloader ref m st).
Proof. by intros []. Qed.

Lemma healthy_emit st e :
  healthy videoId content st → healthy videoId content (emit e st).
Proof. by intros []. Qed.

Lemma healthy_tick st :
  healthy videoId content st → healthy videoId content (tick st).
Proof. by intros []. Qed.

Lemma healthy_get st key :
  healthy videoId content st →
  healthy videoId content
    (with_cache (ChunkCache.get (chunkCache st) key).2 st).
Proof.
  intros []. split; cbn; auto using get_wf, coherent_get.
Qed.

Lemma healthy_set st i :
  0 <= i → healthy videoId content st →
  healthy videoId content
    (with_cache (ChunkCache.set (chunkCache st) (cacheKeyOf videoId i)
                   (chunk_of content i)) st).
Proof.
  intros Hi []. split; cbn; auto using coherent_set.
  by apply set_spec.
Qed.

Lemma healthy_inFlight_delete st key :
  healthy videoId content st →
  healthy videoId content (with_inFlight (delete key (inFlight st)) st).
Proof. intros []. split; cbn; auto using inFlight_coherent_delete. Qed.

(** A hit of the cache on a key of the stream is the chunk. *)
Lemma healthy_hit st i b :
  healthy videoId content st → 0 <= i →
  (ChunkCache.get (chunkCache st) (cacheKeyOf videoId i)).1 = Some b →
  b = chunk_of content i.
Proof. intros [] Hi. rewrite get_result. by apply h_cache0. Qed.

(** With a ready pool the first attempt reaches the transport, which
    answers with the chunk. *)
Lemma downloadAttempt_ok loc dcId i attempt st :
  healthy videoId content st →
  0 <= i → i * CHUNK_SIZE < Buffer_length content → 1 <= attempt →
  ∃ slot,
    Z.of_nat slot = (i + attempt - 1) `mod` Z.of_nat (length (clientPool st)) ∧
    downloadAttempt w (cacheKeyOf videoId i) loc dcId i (i * CHUNK_SIZE)
      attempt st =
    (Some (chunk_of content i),
     with_cache (ChunkCache.set (chunkCache st) (cacheKeyOf videoId i)
                   (chunk_of content i))
       (tick (emit (EvIterDownload slot (i * CHUNK_SIZE)) st))).
Proof.
  intros Hh Hi Hlt Hatt. unfold downloadAttempt.
  destruct (getClient_ready (clientPool st) (i + attempt - 1))
    as (slot & c & -> & -> & -> & Hslot); [apply Hh | lia |].
  exists slot. split; [done|].
  rewrite Hserves by done. by rewrite chunk_of_nonempty.
Qed.

Lemma _downloadChunkImpl_ok loc dcId i fileSize st :
  healthy videoId content st → fileSize = Buffer_length content → 0 <= i →
  let r := _downloadChunkImpl w (cacheKeyOf videoId i) loc i fileSize dcId st in
  healthy videoId content r.2 ∧
  (i * CHUNK_SIZE < fileSize → r.1 = Some (chunk_of content i)).
Proof.
  intros Hh -> Hi. unfold _downloadChunkImpl.
  destruct (Z.geb_spec (i * CHUNK_SIZE) (Buffer_length content)) as [Hge|Hlt];
    cbn zeta; [split; [done | lia]|].
  change (Z.to_nat MAX_RETRIES) with 4%nat. cbn [retryLoop].
  destruct (downloadAttempt_ok loc dcId i (MAX_RETRIES - Z.of_nat 3) st)
    as (slot & _ & ->); [done | done | done | unfold MAX_RETRIES; lia |].
  cbn [fst snd]. split; [|done].
  apply (healthy_set (tick (emit (EvIterDownload slot (i * CHUNK_SIZE)) st)));
    [done|].
  by apply healthy_tick, healthy_emit.
Qed.

Lemma awaitInFlight_ok i settled st :
  healthy videoId content st → 0 <= i →
  inFlight st !! cacheKeyOf videoId i = Some settled →
  let r := awaitInFlight (cacheKeyOf videoId i) settled st in
  healthy videoId content r.2 ∧
  (r.1 = None ∨ r.1 = Some (chunk_of content i)) ∧
  inFlight r.2 !! cacheKeyOf videoId i = None.
Proof.
  intros Hh Hi Hl. unfold awaitInFlight. cbn [fst snd].
  destruct (h_inFlight _ _ _ Hh i settled Hi Hl) as [->| ->].
  - split_and!; [|by left|cbn; apply lookup_delete_eq].
    apply healthy_inFlight_delete with (st := with_cache (chunkCache st) st).
    by destruct Hh.
  - split_and!; [|by right|cbn; apply lookup_delete_eq].
    destruct (0 <? Buffer_length (chunk_of content i)).
    + apply healthy_inFlight_delete
        with (st := with_cache (ChunkCache.set (chunkCache st)
                                  (cacheKeyOf videoId i) (chunk_of content i)) st).
      by apply healthy_set.
    + apply healthy_inFlight_delete with (st := with_cache (chunkCache st) st).
      by destruct Hh.
Qed.

Lemma downloadChunk_ok loc dcId i fileSize st :
  healthy videoId content st → fileSize = Buffer_length content → 0 <= i →
  let r := downloadChunk w videoId loc i fileSize dcId st in
  healthy videoId content r.2 ∧
  (inFlight st !! cacheKeyOf videoId i = None → i * CHUNK_SIZE < fileSize →
   r.1 = Some (chunk_of content i)).
Proof.
  intros Hh Hfs Hi. unfold downloadChunk.
  set (key := cacheKeyOf videoId i).
  set (st0 := emit (EvDownloadChunk videoId i) st).
  assert (healthy videoId content st0) as Hh0 by by apply healthy_emit.
  pose proof (healthy_hit st0 i) as Hhit.
  pose proof (healthy_get st0 key Hh0) as Hh1.
  fold key in Hhit.
  destruct (ChunkCache.get (chunkCache st0) key) as [cached cache'].
  cbn [fst snd] in Hhit, Hh1. set (st1 := with_cache cache' st0) in *.
  destruct cached as [b|].
  - rewrite (Hhit b) by done.
    destruct (0 <? Buffer_length (chunk_of content i)) eqn:Hne; [done|].
    change (inFlight st1) with (inFlight st).
    destruct (inFlight st !! key) as [settled|] eqn:Hl.
    + destruct (awaitInFlight_ok i settled st1 Hh1 Hi Hl) as (? & _ & _).
      split; [done|]. intros; congruence.
    + pose proof (_downloadChunkImpl_ok loc dcId i fileSize st1 Hh1 Hfs Hi)
        as [Hh2 Hr2]. fold key in Hh2, Hr2.
      destruct (_downloadChunkImpl w key loc i fileSize dcId st1)
        as [result st2]. cbn [fst snd] in *.
      split; [|auto]. rewrite delete_insert_eq.
      by apply healthy_inFlight_delete.
  - change (inFlight st1) with (inFlight st).
    destruct (inFlight st !! key) as [settled|] eqn:Hl.
    + destruct (awaitInFlight_ok i settled st1 Hh1 Hi Hl) as (? & _ & _).
      split; [done|]. intros; congruence.
    + pose proof (_downloadChunkImpl_ok loc dcId i fileSize st1 Hh1 Hfs Hi)
        as [Hh2 Hr2]. fold key in Hh2, Hr2.
      destruct (_downloadChunkImpl w key loc i fileSize dcId st1)
        as [result st2]. cbn [fst snd] in *.
      split; [|auto]. rewrite delete_insert_eq.
      by apply healthy_inFlight_delete.
Qed.

(** One round of the body loop obtains the chunk. *)
Lemma obtainChunk_ok info i st :
  healthy videoId content st →
  si_fileSize info = Buffer_length content →
  0 <= i → i * CHUNK_SIZE < Buffer_length content →
  let r := obtainChunk w videoId info i st in
  healthy videoId content r.2 ∧ r.1 = Some (chunk_of content i).
Proof.
  intros Hh Hfs Hi Hlt. unfold obtainChunk.
  set (key := cacheKeyOf videoId i).
  pose proof (healthy_hit st i) as Hhit.
  pose proof (healthy_get st key Hh) as Hh1. fold key in Hhit.
  destruct (ChunkCache.get (chunkCache st) key) as [chunkBuf cache'].
  cbn [fst snd] in Hhit, Hh1. set (st1 := with_cache cache' st) in *.
  destruct chunkBuf as [b|].
  { rewrite (Hhit b) by done. by destruct (inFlight st1 !! key). }
  assert (∀ st2, healthy videoId content st2 →
                 inFlight st2 !! key = None →
                 let r := downloadChunk w videoId (si_inputLocation info) i
                            (si_fileSize info) (si_dcId info) st2 in
                 healthy videoId content r.2 ∧ r.1 = Some (chunk_of content i))
    as Hdl.
  { intros st2 Hh2 Hnone.
    destruct (downloadChunk_ok (si_inputLocation info) (si_dcId info) i
                (si_fileSize info) st2 Hh2 Hfs Hi) as [? Hr].
    split; [done|]. apply Hr; [done | lia]. }
  destruct (inFlight st1 !! key) as [settled|] eqn:Hl.
  - destruct (awaitInFlight_ok i settled st1 Hh1 Hi Hl) as (Hh2 & Hr & Hnone).
    fold key in Hh2, Hr, Hnone.
    destruct (awaitInFlight key settled st1) as [chunkBuf st2].
    cbn [fst snd] in *. destruct Hr as [->| ->]; [by apply Hdl | done].
  - by apply Hdl.
Qed.
End HealthyFetch.

(** ** Serving from a transport that serves the stream *)

Section HealthyServer.
Context (w : World) (videoId : string) (content : Buffer).
Context (Hserves : serves w content).
Context (Halive : ∀ n, w_destroyed w n = false).
Implicit Types (st : Runtime) (tr : list event) (info : StreamInfo) (i : Z).

Lemma fetchQueued_healthy loc dcId fileSize results st idx :
  healthy videoId content st → fileSize = Buffer_length content → 0 <= idx →
  healthy videoId content
    (fetchQueued w videoId loc fileSize dcId (results, st) idx).2.
Proof.
  intros Hh Hfs Hi. unfold fetchQueued.
  pose proof (healthy_get videoId content st (cacheKeyOf videoId idx) Hh) as Hh1.
  destruct (ChunkCache.get (chunkCache st) (cacheKeyOf videoId idx))
    as [c cache']. cbn [snd] in Hh1.
  destruct (match c with Some b => _ | None => false end); [done|].
  destruct (downloadChunk_ok w videoId content Hserves loc dcId idx fileSize
              (with_cache cache' st) Hh1 Hfs Hi) as [Hh2 _].
  by destruct (downloadChunk _ _ _ _ _ _ _).
Qed.

Lemma downloadChunksParallel_healthy loc dcId fileSize indices st :
  healthy videoId content st → fileSize = Buffer_length content →
  Forall (λ i, 0 <= i) indices →
  healthy videoId content
    (downloadChunksParallel w videoId loc indices fileSize dcId st).2.
Proof.
  intros Hh Hfs Hall. unfold downloadChunksParallel.
  destruct (_ <=? _); [done|].
  generalize (∅ : gmap Z (option Buffer)). revert st Hh.
  induction Hall as [|idx indices Hidx Hall IH]; intros st Hh results; [done|].
  cbn [fold_left].
  pose proof (fetchQueued_healthy loc dcId fileSize results st idx Hh Hfs Hidx)
    as Hh1.
  destruct (fetchQueued w videoId loc fileSize dcId (results, st) idx)
    as [results1 st1]. by apply IH.
Qed.

Lemma seekBurst_healthy info start st :
  healthy videoId content st → si_fileSize info = Buffer_length content →
  0 <= start →
  healthy videoId content (seekBurst w videoId info start st).
Proof.
  intros Hh Hfs Hstart. unfold seekBurst.
  destruct (negb _); [|done].
  set (st1 := match si_downloader info with Some _ => _ | None => st end).
  assert (healthy videoId content st1) as Hh1.
  { subst st1. destruct (si_downloader info); [|done].
    by apply healthy_call_downloader, healthy_emit. }
  destruct (0 <? _); [|done].
  apply downloadChunksParallel_healthy; [done | done |].
  apply Forall_forall. intros i Hi.
  apply burstIndices_spec in Hi as [_ [Hi _]].
  pose proof (Z.div_pos start CHUNK_SIZE). unfold CHUNK_SIZE in *. lia.
Qed.

(** The body loop writes the bytes from [bytePos] up to [targetEnd]. *)
Lemma serveLoop_ok info targetEnd fuel :
  si_fileSize info = Buffer_length content →
  targetEnd <= Buffer_length content →
  ∀ bytePos consecutiveFailures round st,
    healthy videoId content st →
    0 <= bytePos → bytePos <= targetEnd →
    targetEnd - bytePos < Z.of_nat fuel →
    ∃ st' tr,
      serveLoop fuel w videoId info targetEnd bytePos consecutiveFailures
        round st = Some st' ∧
      trace st' = trace st ++ tr ∧
      body_of tr = Buffer_slice content bytePos targetEnd ∧
      healthy videoId content st'.
Proof.
  intros Hfs HT.
  induction fuel as [|fuel IH]; intros bytePos cf round st Hh H0 HleT Hfuel;
    [lia|].
  cbn [serveLoop]. rewrite Halive. cbn [negb]. rewrite andb_true_r.
  destruct (Z.ltb_spec bytePos targetEnd) as [Hlt|Hge].
  2: { exists st, []. rewrite app_nil_r.
       replace targetEnd with bytePos by lia.
       by rewrite Buffer_slice_nil. }
  set (i := bytePos / CHUNK_SIZE).
  assert (0 <= i ∧ i * CHUNK_SIZE <= bytePos ∧ bytePos < (i + 1) * CHUNK_SIZE ∧
          Z.rem bytePos CHUNK_SIZE = bytePos - i * CHUNK_SIZE)
    as (Hi & Hlo & Hhi & Hrem).
  { subst i. unfold CHUNK_SIZE.
    rewrite Z.rem_mod_nonneg by lia.
    pose proof (Z.div_mod bytePos (1024 * 1024)).
    pose proof (Z.mod_pos_bound bytePos (1024 * 1024)).
    pose proof (Z.div_pos bytePos (1024 * 1024)). lia. }
  set (st0 := match si_downloader info with Some _ => _ | None => st end).
  destruct (notify_same info i st) as (Ht0 & _). fold st0 in Ht0.
  assert (healthy videoId content st0) as Hh0.
  { subst st0. destruct (si_downloader info); [|done].
    by apply healthy_call_downloader. }
  destruct (obtainChunk_frame w videoId info i st0) as [tr1 Hf1].
  destruct (obtainChunk_ok w videoId content Hserves info i st0)
    as [Hh1 Hr1]; [done | done | done | lia |].
  destruct (obtainChunk w videoId info i st0) as [chunkBuf st1].
  cbn [fst snd] in *. subst chunkBuf.
  pose proof (chunk_of_length content i Hi ltac:(lia)) as Hlen.
  destruct (Z.eqb_spec (Buffer_length (chunk_of content i)) 0) as [Hz|_];
    [unfold CHUNK_SIZE in *; lia|].
  cbn [default from_option id]. rewrite Hrem. set (toWrite := Z.min _ _).
  assert (0 < toWrite ∧ bytePos + toWrite <= targetEnd ∧
          bytePos + toWrite <=
            Z.min ((i + 1) * CHUNK_SIZE) (Buffer_length content))
    as (Hpos & HwT & Hwc).
  { subst toWrite. rewrite Hlen. unfold CHUNK_SIZE in *. lia. }
  destruct (Z.leb_spec toWrite 0) as [|_]; [lia|].
  match goal with
  | |- context [emit ?e st1] =>
      destruct (IH (bytePos + toWrite) 0 (S round) (emit e st1))
        as (st' & tr & Hrun & Htr & Hbody & Hh');
        [by apply healthy_emit | lia | lia | lia |];
      exists st', (tr1 ++ [e] ++ tr)
  end.
  destruct Hf1. split_and!; [done | | | done].
  - rewrite Htr. cbn [emit trace]. rewrite ff_trace0, Ht0, <- !app_assoc. done.
  - rewrite !body_of_app, Hbody, body_of_write, (body_of_quiet tr1) by done.
    cbn [app]. unfold chunk_of at 1.
    rewrite Buffer_slice_slice by (unfold CHUNK_SIZE in *; lia).
    replace (i * CHUNK_SIZE + (bytePos - i * CHUNK_SIZE)) with bytePos by lia.
    replace (i * CHUNK_SIZE + (bytePos - i * CHUNK_SIZE + toWrite))
      with (bytePos + toWrite) by lia.
    apply Buffer_slice_app; lia.
Qed.

(** A request for a range inside the file is answered with its bytes. *)
Lemma handleRequest_ok req st info :
  healthy videoId content st →
  match_stream_url (req_url req) = Some videoId →
  activeStreams st !! videoId = Some info →
  req_method req ≠ "HEAD"%string →
  si_fileSize info = Buffer_length content →
  let fileSize := si_fileSize info in
  let range := parseRange (req_range req) fileSize in
  let head :=
    if header_present (req_range req)
    then EvWriteHead 206
           (partialHeaders (si_mimeType info) range.1 range.2 fileSize)
    else EvWriteHead 200 (fullHeaders (si_mimeType info) fileSize) in
  0 <= range.1 → range.1 <= range.2 + 1 → range.2 < fileSize →
  ∃ st' rest,
    handleRequest w req st = Some st' ∧
    trace st' = trace st ++ [head] ++ rest ++ [EvEnd ""] ∧
    heads rest = [] ∧
    body_of rest = Buffer_slice content range.1 (range.2 + 1).
Proof.
  intros Hh Hurl Hreg Hmeth Hfs fileSize range head H0 Hle Hlt.
  destruct (handleRequest_get w req st videoId info Hurl Hreg Hmeth)
    as (st2 & tr & Hrun & Htr & Hhd & _ & Hres).
  fold fileSize range head in Hrun, Htr, Hres.
  set (st1 := seekBurst w videoId info range.1 (emit head st)) in *.
  destruct (seekBurst_quiet w videoId info range.1 (emit head st))
    as (burst & Hb & Hbw & Hbh & _); [apply Hh|].
  fold st1 in Hb.
  assert (healthy videoId content st1) as Hh1.
  { apply seekBurst_healthy; [by apply healthy_emit | done | done]. }
  destruct (serveLoop_ok info (range.2 + 1) (serveFuel range.1 (range.2 + 1))
              Hfs ltac:(fold fileSize; lia) range.1 0 0 st1 Hh1 H0 Hle)
    as (st2' & tr' & Hrun' & Htr' & Hbody & _).
  { unfold serveFuel, MAX_CONSECUTIVE_FAILURES. lia. }
  rewrite Hrun in Hrun'. injection Hrun' as <-.
  rewrite Htr in Htr'. apply app_inv_head in Htr'. subst tr'.
  exists (emit (EvEnd "") st2), (burst ++ tr). split_and!; [done | | |].
  - cbn [emit trace]. rewrite Htr, Hb. cbn [emit trace].
    rewrite <- !app_assoc. done.
  - by rewrite heads_app, Hbh, Hhd.
  - rewrite body_of_app, Hbody. unfold body_of. by rewrite Hbw.
Qed.
End HealthyServer.

(** ** Parsing of the Range header *)

Section RangeParsing.
Implicit Types (h : string) (fileSize : Z).

Lemma match_range_nonempty h m : match_range h = Some m → string_empty h = false.
Proof. by destruct h. Qed.

Lemma parseRange_unmatched h fileSize :
  match_range h = None → parseRange (Some h) fileSize = (0, fileSize - 1).
Proof.
  intros Hm. unfold parseRange. rewrite Hm.
  destruct (string_empty h);
    (destruct (Z.geb_spec (fileSize - 1) fileSize); [lia | done]).
Qed.

Lemma parseRange_open h (m1 : string) fileSize :
  match_range h = Some (m1, ""%string) →
  parseRange (Some h) fileSize = (parseInt m1, fileSize - 1).
Proof.
  intros Hm. unfold parseRange.
  rewrite (match_range_nonempty _ _ Hm), Hm. simpl string_empty. cbn iota.
  destruct (Z.geb_spec (fileSize - 1) fileSize); [lia | done].
Qed.

Lemma parseRange_closed h (m1 m2 : string) fileSize :
  match_range h = Some (m1, m2) → string_empty m2 = false →
  parseRange (Some h) fileSize =
  (parseInt m1, Z.min (parseInt m2) (fileSize - 1)).
Proof.
  intros Hm Hm2. unfold parseRange.
  rewrite (match_range_nonempty _ _ Hm), Hm, Hm2.
  destruct (Z.geb_spec (parseInt m2) fileSize); f_equal; lia.
Qed.

Lemma header_present_matched h m :
  match_range h = Some m → header_present (Some h) = true.
Proof. intros Hm. simpl. by rewrite (match_range_nonempty _ _ Hm). Qed.
End RangeParsing.






(** ** The small instance is healthy *)

Lemma demo_serves : serves demo_world demo_content.
Proof.
  intros t slot loc dc i Hi Hlt. simpl. unfold chunk_of.
  by replace (i * CHUNK_SIZE + CHUNK_SIZE) with ((i + 1) * CHUNK_SIZE) by lia.
Qed.

Lemma demo_healthy : healthy "v" demo_content demo_state.
Proof.
  split.
  - apply new_wf.
  - intros i b _ Hget. discriminate Hget.
  - intros i v _ Hl. simpl in Hl. by rewrite lookup_empty in Hl.
  - split; [discriminate | repeat constructor].
Qed.





(** ** Stopping a stream *)

Section StopStream.
Implicit Types (st : Runtime) (videoId : string).

Lemma stopStream_cache videoId st :
  chunkCache (stopStream videoId st) =
  ChunkCache.deletePrefix (chunkCache st) (videoId ++ ":").
Proof.
  unfold stopStream. destruct (activeStreams st !! videoId) as [info|]; [|done].
  by destruct (si_downloader info).
Qed.

Lemma stopStream_workers videoId st :
  workers (stopStream videoId st) = workers st.
Proof.
  unfold stopStream. destruct (activeStreams st !! videoId) as [info|]; [|done].
  by destruct (si_downloader info).
Qed.

Lemma stopStream_streams videoId st :
  activeStreams (stopStream videoId st) = delete videoId (activeStreams st).
Proof.
  unfold stopStream. destruct (activeStreams st !! videoId) as [info|]; [|done].
  by destruct (si_downloader info).
Qed.

Lemma stopStream_downloader videoId st info ref :
  activeStreams st !! videoId = Some info → si_downloader info = Some ref →
  downloaders (stopStream videoId st) =
  alter StreamDownloader.stop ref (downloaders st).
Proof. intros Hreg Hd. unfold stopStream. by rewrite Hreg, Hd. Qed.
End StopStream.

(** C5 (as amended).  When [stopStream(s)] returns, the cache has no entry
    under any key [s:i], the stream is no longer registered, and the
    downloader of the stream has [running = false] and an empty list of
    worker promises.  The workers themselves are not awaited: they are where
    they were, and a worker that is asleep leaves its loop when it next
    wakes up. *)
Theorem C5_stop_stream (w : World) (videoId : string) (st : Runtime) :
  cache_wf (chunkCache st) →
  let st' := stopStream videoId st in
  (∀ i, ChunkCache.has (chunkCache st') (cacheKeyOf videoId i) = false) ∧
  activeStreams st' !! videoId = None ∧
  workers st' = workers st ∧
  (∀ info ref d,
     activeStreams st !! videoId = Some info →
     si_downloader info = Some ref →
     downloaders st !! ref = Some d →
     (∃ d', downloaders st' !! ref = Some d' ∧
            StreamDownloader.running d' = false ∧
            StreamDownloader._workerPromises d' = []) ∧
     (∀ wk rounds,
        wk_downloader wk = ref → wk_at wk = WSleeping →
        resumeWorker (S rounds) w wk st' = Some (WExited, st'))).
Proof.
  intros Hwf st'. subst st'. split_and!.
  - intros i. rewrite stopStream_cache.
    apply deletePrefix_spec; [done | apply cacheKeyOf_prefix].
  - rewrite stopStream_streams. apply lookup_delete_eq.
  - apply stopStream_workers.
  - intros info ref d Hreg Hd Hlook.
    assert (downloaders (stopStream videoId st) !! ref =
            Some (StreamDownloader.stop d)) as Hstopped.
    { rewrite (stopStream_downloader _ _ _ _ Hreg Hd), lookup_alter_eq.
      by rewrite Hlook. }
    split; [by exists (StreamDownloader.stop d)|].
    intros wk rounds Hwk Hat. unfold resumeWorker. rewrite Hat, Hwk.
    cbn [workerRun]. by rewrite Hstopped.
Qed.

Lemma C5_stop_stream_witness :
  let st' := stopStream "v" demo_state in
  ChunkCache.has (chunkCache st') (cacheKeyOf "v" 0) = false ∧
  activeStreams st' !! "v"%string = None.
Proof.
  destruct (C5_stop_stream demo_world "v" demo_state) as (Hcache & Hreg & _).
  - apply new_wf.
  - split; [apply Hcache | exact Hreg].
Defined.

(** C5 (as stated) fails.  In the small instance with worker 0 in the
    middle of the download of chunk 0: when [stopStream] returns the workers
    have not terminated, and when worker 0 is resumed its chunk is stored in
    the cache of the stopped stream. *)
Lemma C5_workers_outlive_stop :
  let st' := stopStream "v" demo_busy_state in
  ¬ workers_terminated 0 st' ∧
  ∃ st'', stepWorker 2 demo_world 0 st' = Some st'' ∧
          ChunkCache.has (chunkCache st'') (cacheKeyOf "v" 0) = true.
Proof.
  split.
  - intros Hall. apply Forall_cons in Hall as [Hw0 _].
    specialize (Hw0 eq_refl). discriminate Hw0.
  - eexists. split; [vm_compute; reflexivity | vm_compute; reflexivity].
Qed.

(** ** The retry loop without back-off *)

(** C7, at the failing input.  The pool has three connected clients; the
    first download of chunk 0 yields no chunk and no exception, the second
    one yields the chunk.  The fetch returns the chunk after two attempts, on
    the clients of slots 0 and 1, and does not sleep between them: the
    back-off of 200 ms is missing on this path. *)
Theorem C7_no_backoff_after_empty_result :
  let r := downloadChunk demo_empty_once_world "v" demo_location 0 8 None
             demo_state in
  r.1 = Some demo_content ∧
  trace r.2 = [EvDownloadChunk "v" 0; EvIterDownload 0 0; EvIterDownload 1 0] ∧
  download_slots (trace r.2) = [0; 1]%nat ∧
  sleeps (trace r.2) = [] ∧
  inFlight r.2 !! cacheKeyOf "v" 0 = None ∧
  ChunkCache.has (chunkCache r.2) (cacheKeyOf "v" 0) = true.
Proof. vm_compute. by split_and!. Qed.

(** ** The in-flight registry under interleaving *)

Section Registry.
Implicit Types (s : Loop) (key videoId : string) (p c : nat).

Lemma registry_ok_init cache : cache_wf cache → registry_ok (loop_init cache).
Proof.
  intros Hwf. split; cbn; [done|..]; intros *; rewrite lookup_nil; done.
Qed.

Lemma lookup_snoc_Some {A} (l : list A) (x y : A) i :
  (l ++ [x]) !! i = Some y →
  l !! i = Some y ∨ (i = length l ∧ y = x).
Proof.
  intros H. apply lookup_app_Some in H as [H|[Hge H]]; [by left|].
  right. apply list_lookup_singleton_Some in H as [Hi ->]. split; [lia|done].
Qed.

(** A call that does not start a download keeps the invariant. *)
Lemma registry_ok_join s cache' key at' :
  registry_ok s → cache_wf cache' →
  (∀ p, at' ≠ AwaitingOwn p) →
  registry_ok (mkLoop cache' (lp_inFlight s) (lp_promises s)
                 (lp_calls s ++ [mkCall key at'])).
Proof.
  intros [Hwf Hown Huni Hpend] Hwf' Hat. split; cbn; [done | | |].
  - intros c k p [H|[_ [= _ H]]]%lookup_snoc_Some; [eauto | by destruct (Hat p)].
  - intros c c' k k' p [H|[_ [= _ H]]]%lookup_snoc_Some;
      [|by destruct (Hat p)].
    intros [H'|[_ [= _ H']]]%lookup_snoc_Some; [eauto | by destruct (Hat p)].
  - intros p pr Hp Hst. destruct (Hpend p pr Hp Hst) as [c Hc].
    exists c. by apply lookup_app_l_Some.
Qed.

Lemma registry_ok_arrive videoId chunkIndex fileSize s :
  registry_ok s → registry_ok (arrive videoId chunkIndex fileSize s).
Proof.
  intros Hok. pose proof Hok as [Hwf Hown Huni Hpend]. unfold arrive.
  set (key := cacheKeyOf videoId chunkIndex).
  pose proof (get_wf (lp_cache s) key Hwf) as Hwf'.
  destruct (ChunkCache.get (lp_cache s) key) as [cached cache'].
  cbn [snd] in Hwf'.
  destruct (match cached with Some b => _ | None => false end);
    [by apply registry_ok_join|].
  destruct (lp_inFlight s !! key) as [p|] eqn:Hfl;
    [by apply registry_ok_join|].
  assert (∀ c k p, lp_calls s !! c = Some (mkCall k (AwaitingOwn p)) →
                   k ≠ key ∧ (p < length (lp_promises s))%nat) as Hold.
  { intros c k p Hc. destruct (Hown c k p Hc) as [Hk (pr & Hp & _)].
    split; [congruence | by eapply lookup_lt_Some]. }
  split; cbn; [done | | |].
  - intros c k p [H|[_ [= -> ->]]]%lookup_snoc_Some.
    + destruct (Hold _ _ _ H) as [Hne _].
      destruct (Hown _ _ _ H) as [Hk (pr & Hp & Hkey)].
      rewrite lookup_insert_ne by done. split; [done|].
      exists pr. split; [by apply lookup_app_l_Some | done].
    + rewrite lookup_insert_eq. split; [done|].
      eexists. split; [apply list_lookup_middle; done|].
      by destruct (_ >=? _).
  - intros c c' k k' p H H'.
    apply lookup_snoc_Some in H as [H|[-> E]];
      apply lookup_snoc_Some in H' as [H'|[-> E']]; simplify_eq.
    + eauto.
    + destruct (Hold _ _ _ H) as [_ ?]. lia.
    + destruct (Hold _ _ _ H') as [_ ?]. lia.
    + done.
  - intros p pr [Hp|[-> ->]]%lookup_snoc_Some Hst.
    + destruct (Hpend p pr Hp Hst) as [c Hc].
      exists c. by apply lookup_app_l_Some.
    + exists (length (lp_calls s)).
      destruct (_ >=? _); [done|]. cbn. by apply list_lookup_middle.
Qed.

Lemma registry_ok_settle p result s s' :
  registry_ok s → settle p result s = Some s' → registry_ok s'.
Proof.
  intros [Hwf Hown Huni Hpend]. unfold settle.
  destruct (lp_promises s !! p) as [[key [|r] remote]|] eqn:Hp; [|done..].
  destruct (download_result_ok result); [|done]. intros [= <-].
  split; cbn.
  - destruct result; [by apply set_spec | done].
  - intros c k p' Hc. destruct (Hown c k p' Hc) as [Hk (pr & Hp' & Hkey)].
    split; [done|]. destruct (decide (p' = p)) as [->|Hne].
    + eexists. split; [apply list_lookup_insert_eq; by eapply lookup_lt_Some|].
      rewrite Hp in Hp'. injection Hp' as <-. exact Hkey.
    + exists pr. by rewrite list_lookup_insert_ne.
  - done.
  - intros p' pr Hp' Hst. destruct (decide (p' = p)) as [->|Hne].
    + rewrite list_lookup_insert_eq in Hp' by (by eapply lookup_lt_Some).
      by injection Hp' as <-.
    + rewrite list_lookup_insert_ne in Hp' by done. eauto.
Qed.

Lemma registry_ok_resume c s s' :
  registry_ok s → resume c s = Some s' → registry_ok s'.
Proof.
  intros [Hwf Hown Huni Hpend]. unfold resume.
  destruct (lp_calls s !! c) as [[key [r|p|p]]|] eqn:Hc; [done| | |done].
  - (* the owner: [finally] removes the entry *)
    destruct (lp_promises s !! p) as [[k [|result] remote]|] eqn:Hp; [done| |done].
    intros [= <-]. split; cbn; [done | | |].
    + intros c' k' p' Hc'. destruct (decide (c' = c)) as [->|Hne].
      { rewrite list_lookup_insert_eq in Hc' by (by eapply lookup_lt_Some).
        done. }
      rewrite list_lookup_insert_ne in Hc' by done.
      destruct (Hown c' k' p' Hc') as [Hk Hpr]. split; [|done].
      rewrite lookup_delete_ne; [done|]. intros Heq. subst k'.
      destruct (Hown c key p Hc) as [Hk' _].
      assert (p' = p) as -> by congruence. apply Hne. by eapply Huni.
    + intros c1 c2 k1 k2 p' H1 H2.
      destruct (decide (c1 = c)) as [->|Hne1].
      { rewrite list_lookup_insert_eq in H1 by (by eapply lookup_lt_Some).
        done. }
      destruct (decide (c2 = c)) as [->|Hne2].
      { rewrite list_lookup_insert_eq in H2 by (by eapply lookup_lt_Some).
        done. }
      rewrite list_lookup_insert_ne in H1, H2 by done. eauto.
    + intros p' pr Hp' Hst. destruct (Hpend p' pr Hp' Hst) as [c' Hc'].
      exists c'. rewrite list_lookup_insert_ne; [done|]. intros <-.
      rewrite Hc in Hc'. injection Hc' as _ <-. rewrite Hp in Hp'.
      injection Hp' as <-. done.
  - (* a call that piggy-backed *)
    destruct (lp_promises s !! p) as [[k [|result] remote]|] eqn:Hp; [done| |done].
    intros [= <-]. split; cbn; [done | | |].
    + intros c' k' p' Hc'. destruct (decide (c' = c)) as [->|Hne].
      { rewrite list_lookup_insert_eq in Hc' by (by eapply lookup_lt_Some).
        done. }
      rewrite list_lookup_insert_ne in Hc' by done. eauto.
    + intros c1 c2 k1 k2 p' H1 H2.
      destruct (decide (c1 = c)) as [->|Hne1].
      { rewrite list_lookup_insert_eq in H1 by (by eapply lookup_lt_Some).
        done. }
      destruct (decide (c2 = c)) as [->|Hne2].
      { rewrite list_lookup_insert_eq in H2 by (by eapply lookup_lt_Some).
        done. }
      rewrite list_lookup_insert_ne in H1, H2 by done. eauto.
    + intros p' pr Hp' Hst. destruct (Hpend p' pr Hp' Hst) as [c' Hc'].
      exists c'. rewrite list_lookup_insert_ne; [done|]. intros <-.
      rewrite Hc in Hc'. done.
Qed.

Lemma registry_ok_step s t s' :
  registry_ok s → loop_step s t = Some s' → registry_ok s'.
Proof.
  intros Hok. destruct t as [v i fs|p r|c|op]; cbn.
  - intros [= <-]. by apply registry_ok_arrive.
  - by apply registry_ok_settle.
  - by apply registry_ok_resume.
  - intros [= <-]. destruct Hok. split; cbn; auto using cache_step_wf.
Qed.

Lemma registry_ok_run ts s s' :
  registry_ok s → loop_run s ts = Some s' → registry_ok s'.
Proof.
  revert s. induction ts as [|t ts IH]; intros s Hok; cbn.
  - by intros [= <-].
  - destruct (loop_step s t) as [s1|] eqn:Hstep; [|done].
    apply IH. by eapply registry_ok_step.
Qed.

(** At most one download is outstanding for a key. *)
Lemma registry_ok_one_pending s p1 p2 pr1 pr2 :
  registry_ok s →
  lp_promises s !! p1 = Some pr1 → lp_promises s !! p2 = Some pr2 →
  pr_state pr1 = Pending → pr_state pr2 = Pending →
  pr_key pr1 = pr_key pr2 →
  p1 = p2.
Proof.
  intros [_ Hown _ Hpend] H1 H2 Hs1 Hs2 Hk.
  destruct (Hpend p1 pr1 H1 Hs1) as [c1 Hc1].
  destruct (Hpend p2 pr2 H2 Hs2) as [c2 Hc2].
  destruct (Hown _ _ _ Hc1) as [Hf1 _]. destruct (Hown _ _ _ Hc2) as [Hf2 _].
  rewrite Hk in Hf1. congruence.
Qed.

(** Misses of the cache. *)
Lemma cache_miss_get (cache : ChunkCache.t) key :
  cache_miss cache key →
  match (ChunkCache.get cache key).1 with
  | Some b => 0 <? Buffer_length b
  | None => false
  end = false.
Proof.
  unfold cache_miss. rewrite get_result.
  destruct (JsMap.get (ChunkCache.map cache) key) as [b|]; [|done].
  intros ->. done.
Qed.

Lemma cache_miss_after_get (cache : ChunkCache.t) key :
  cache_wf cache → cache_miss cache key →
  cache_miss (ChunkCache.get cache key).2 key.
Proof. intros Hwf. unfold cache_miss. by rewrite get_get. Qed.

(** A call that finds its key registered joins the download under way. *)
Lemma arrive_join videoId chunkIndex fileSize s p :
  let key := cacheKeyOf videoId chunkIndex in
  cache_miss (lp_cache s) key → lp_inFlight s !! key = Some p →
  arrive videoId chunkIndex fileSize s =
  mkLoop (ChunkCache.get (lp_cache s) key).2 (lp_inFlight s) (lp_promises s)
         (lp_calls s ++ [mkCall key (AwaitingOther p)]).
Proof.
  intros key Hmiss Hfl. unfold arrive. fold key.
  pose proof (cache_miss_get _ _ Hmiss) as Hget.
  destruct (ChunkCache.get (lp_cache s) key) as [cached cache'].
  cbn [fst snd] in *. by rewrite Hget, Hfl.
Qed.

(** A call that finds its key neither cached nor registered starts the
    download and registers it. *)
Lemma arrive_start videoId chunkIndex fileSize s :
  let key := cacheKeyOf videoId chunkIndex in
  cache_miss (lp_cache s) key → lp_inFlight s !! key = None →
  chunkIndex * CHUNK_SIZE < fileSize →
  arrive videoId chunkIndex fileSize s =
  mkLoop (ChunkCache.get (lp_cache s) key).2
         (<[key := length (lp_promises s)]> (lp_inFlight s))
         (lp_promises s ++ [mkPromise key Pending true])
         (lp_calls s ++ [mkCall key (AwaitingOwn (length (lp_promises s)))]).
Proof.
  intros key Hmiss Hfl Hlt. unfold arrive. fold key.
  pose proof (cache_miss_get _ _ Hmiss) as Hget.
  destruct (ChunkCache.get (lp_cache s) key) as [cached cache'].
  cbn [fst snd] in *. rewrite Hget, Hfl.
  destruct (Z.geb_spec (chunkIndex * CHUNK_SIZE) fileSize); [lia | done].
Qed.

(** Calls in a row for one chunk that is neither cached nor registered:
    the first starts the download, the others await it. *)
Lemma arrivals_one_fetch n videoId chunkIndex fileSize s :
  let key := cacheKeyOf videoId chunkIndex in
  cache_wf (lp_cache s) →
  cache_miss (lp_cache s) key → lp_inFlight s !! key = None →
  chunkIndex * CHUNK_SIZE < fileSize →
  let s' := arrivals n videoId chunkIndex fileSize s in
  let p := length (lp_promises s) in
  cache_wf (lp_cache s') ∧ cache_miss (lp_cache s') key ∧
  lp_inFlight s' = <[key := p]> (lp_inFlight s) ∧
  lp_promises s' = lp_promises s ++ [mkPromise key Pending true] ∧
  lp_calls s' =
    lp_calls s ++ mkCall key (AwaitingOwn p)
               :: replicate n (mkCall key (AwaitingOther p)).
Proof.
  intros key Hwf Hmiss Hfl Hlt.
  induction n as [|n IH]; cbn [arrivals].
  - rewrite arrive_start by done. cbn.
    split_and!; auto using get_wf, cache_miss_after_get.
  - destruct IH as (Hwf' & Hmiss' & Hfl' & Hpr' & Hcalls').
    set (s1 := arrivals n videoId chunkIndex fileSize s) in *.
    rewrite (arrive_join videoId chunkIndex fileSize s1 (length (lp_promises s)));
      [|done|by rewrite Hfl', lookup_insert_eq].
    cbn. split_and!; auto using get_wf, cache_miss_after_get.
    rewrite Hcalls', <- app_assoc. cbn. do 2 f_equal.
    change (?x :: replicate n ?x) with (replicate (S n) x).
    by rewrite replicate_S_end.
Qed.
End Registry.

(** C4.  In every state the event loop can reach: (1) for any key at most
    one download is outstanding; (2) a call of [downloadChunk] that misses
    the cache and finds its key in the in-flight registry awaits the promise
    registered there and starts nothing; (3) such a call returns the result
    that promise settles to; (4) [n + 1] calls made in a row for a chunk that
    is neither cached nor registered cause exactly one download, which the
    first call starts and the other [n] await. *)
Theorem C4_single_fetch_per_key (ts : list turn) (s : Loop) :
  loop_run (loop_init (ChunkCache.new CACHE_MAX_BYTES)) ts = Some s →
  (∀ p1 p2 pr1 pr2,
     lp_promises s !! p1 = Some pr1 → lp_promises s !! p2 = Some pr2 →
     pr_state pr1 = Pending → pr_state pr2 = Pending →
     pr_key pr1 = pr_key pr2 → p1 = p2) ∧
  (∀ videoId chunkIndex fileSize p,
     let key := cacheKeyOf videoId chunkIndex in
     cache_miss (lp_cache s) key → lp_inFlight s !! key = Some p →
     let s' := arrive videoId chunkIndex fileSize s in
     lp_promises s' = lp_promises s ∧
     lp_inFlight s' = lp_inFlight s ∧
     fetches key s' = fetches key s ∧
     lp_calls s' = lp_calls s ++ [mkCall key (AwaitingOther p)]) ∧
  (∀ c key p pr result,
     lp_calls s !! c = Some (mkCall key (AwaitingOther p)) →
     lp_promises s !! p = Some pr → pr_state pr = Settled result →
     ∃ s', resume c s = Some s' ∧
           lp_calls s' !! c = Some (mkCall key (Returned result)) ∧
           lp_promises s' = lp_promises s) ∧
  (∀ n videoId chunkIndex fileSize,
     let key := cacheKeyOf videoId chunkIndex in
     cache_miss (lp_cache s) key → lp_inFlight s !! key = None →
     chunkIndex * CHUNK_SIZE < fileSize →
     let s' := arrivals n videoId chunkIndex fileSize s in
     let p := length (lp_promises s) in
     fetches key s' = S (fetches key s) ∧
     lp_promises s' = lp_promises s ++ [mkPromise key Pending true] ∧
     lp_calls s' =
       lp_calls s ++ mkCall key (AwaitingOwn p)
                  :: replicate n (mkCall key (AwaitingOther p))).
Proof.
  intros Hrun.
  assert (registry_ok s) as Hok.
  { eapply registry_ok_run; [|exact Hrun]. apply registry_ok_init, new_wf. }
  split_and!.
  - intros *. by apply registry_ok_one_pending.
  - intros videoId chunkIndex fileSize p key Hmiss Hfl s'. subst s'.
    rewrite (arrive_join videoId chunkIndex fileSize s p) by done. done.
  - intros c key p pr result Hc Hp Hst. unfold resume. rewrite Hc, Hp.
    destruct pr as [k st remote]. cbn in Hst. subst st.
    eexists. split; [done|]. cbn. split; [|done].
    apply list_lookup_insert_eq. by eapply lookup_lt_Some.
  - intros n videoId chunkIndex fileSize key Hmiss Hfl Hlt s' p.
    destruct (arrivals_one_fetch n videoId chunkIndex fileSize s)
      as (_ & _ & _ & Hpr & Hcalls); [apply Hok | done..|].
    split_and!; [|done|done].
    subst s'. unfold fetches. rewrite Hpr, filter_app, length_app.
    rewrite filter_cons_True by done. cbn. lia.
Qed.

Lemma C4_single_fetch_per_key_witness :
  let s := arrive "v" 0 3145728 (loop_init (ChunkCache.new CACHE_MAX_BYTES)) in
  let s' := arrivals 19 "v" 1 3145728 s in
  lp_promises s' = lp_promises s ++ [mkPromise "v:1" Pending true] ∧
  fetches "v:1" s' = 1%nat.
Proof.
  intros s s'.
  destruct (C4_single_fetch_per_key [Arrive "v" 0 3145728] s)
    as (_ & _ & _ & Hn).
  - reflexivity.
  - destruct (Hn 19%nat "v"%string 1 3145728) as (Hf & Hp & _).
    + exact I.
    + reflexivity.
    + reflexivity.
    + split; [exact Hp | exact Hf].
Defined.

(** ** Authentication in the connection pool *)

Section PoolFacts.
Context (w : PoolWorld) (valid : string → Prop).
Context (Hrel : reliable w valid).
Implicit Types (st : PoolState) (log : list pool_event).

Local Ltac pool_simpl :=
  cbn [pool_set ps_log ps_sessionFile ps_clientPool] in *.

Lemma auth_exchanges_snoc log e :
  auth_exchanges (log ++ [e]) =
  auth_exchanges log ++
  match e with PeStart r reply => [(r, reply)] | _ => [] end.
Proof.
  unfold auth_exchanges. rewrite omap_app. f_equal. by destruct e.
Qed.

Lemma no_auth_trans st1 st2 st3 :
  no_auth st1 st2 → no_auth st2 st3 → no_auth st1 st3.
Proof. intros [] []. split; congruence. Qed.

Lemma no_auth_emit st e :
  (∀ r reply, e ≠ PeStart r reply) → no_auth st (pool_emit e st).
Proof.
  intros He. split; [done|]. cbn. rewrite auth_exchanges_snoc.
  destruct e; rewrite ?app_nil_r; try done. by destruct (He r reply).
Qed.

(** Connecting with a valid session succeeds without authentication. *)
Lemma createClient_valid r s st :
  valid s →
  ∃ c st', createClientWithSession w r s st = (inl c, st') ∧
           valid (session c) ∧ no_auth st st' ∧
           ps_clientPool st' = ps_clientPool st.
Proof.
  intros Hs. unfold createClientWithSession.
  rewrite (rel_nonempty _ _ Hrel s Hs). cbn [negb].
  rewrite (rel_connect _ _ Hrel _ s Hs).
  eexists _, _. split; [done|]. split_and!; [|by apply no_auth_emit|done].
  cbn. by apply (rel_session _ _ Hrel).
Qed.

Lemma saveSession_spec s st :
  ps_sessionFile (saveSession w s st) = Some s ∧
  auth_exchanges (ps_log (saveSession w s st)) = auth_exchanges (ps_log st) ∧
  ps_clientPool (saveSession w s st) = ps_clientPool st.
Proof.
  unfold saveSession. rewrite (rel_write _ _ Hrel). cbn.
  by rewrite auth_exchanges_snoc, app_nil_r.
Qed.

Lemma cloneClients_valid n s st :
  valid s →
  no_auth st (cloneClients n w s st).2 ∧
  ps_clientPool (cloneClients n w s st).2 = ps_clientPool st.
Proof.
  intros Hs. revert st. induction n as [|n IH]; intros st; [done|].
  cbn [cloneClients].
  destruct (createClient_valid Clone s st Hs) as (c & st' & -> & _ & Hna & Hp).
  destruct (IH st') as [Hna' Hp'].
  destruct (cloneClients n w s st') as [cs st'']. cbn [snd] in *.
  split; [by eapply no_auth_trans | congruence].
Qed.

(** The authentication loop: rejected exchanges of the primary, then an
    accepted one with a valid session, or an error. *)
Lemma authenticate_spec fuel st r st' :
  authenticate fuel w st = Some (r, st') →
  ps_sessionFile st' = ps_sessionFile st ∧
  ps_clientPool st' = ps_clientPool st ∧
  List.filter by_clone (auth_exchanges (ps_log st')) =
    List.filter by_clone (auth_exchanges (ps_log st)) ∧
  match r with
  | inl primary =>
      valid (session primary) ∧
      accepted (ps_log st') = S (accepted (ps_log st))
  | inr _ => accepted (ps_log st') = accepted (ps_log st)
  end.
Proof.
  revert st. induction fuel as [|fuel IH]; intros st; [done|].
  cbn [authenticate]. unfold createClientWithSession. cbn [string_empty negb].
  set (st1 := pool_emit (PeStart Primary (pw_start w (ps_clock st))) st).
  assert (List.filter by_clone (auth_exchanges (ps_log st1)) =
          List.filter by_clone (auth_exchanges (ps_log st))) as Hclone.
  { cbn. rewrite auth_exchanges_snoc, List.filter_app. cbn. apply app_nil_r. }
  assert (accepted (ps_log st1) =
          match pw_start w (ps_clock st) with
          | StartOk _ => S (accepted (ps_log st))
          | _ => accepted (ps_log st)
          end) as Hacc.
  { unfold accepted. cbn. rewrite auth_exchanges_snoc, List.filter_app, length_app.
    unfold is_accepted at 2. cbn.
    destruct (pw_start w (ps_clock st)); cbn; lia. }
  assert (ps_sessionFile st1 = ps_sessionFile st) as Hfile by done.
  assert (ps_clientPool st1 = ps_clientPool st) as Hpool by done.
  clearbody st1.
  destruct (pw_start w (ps_clock st)) as [s|seconds|] eqn:Hstart.
  - intros [= <- <-]. split_and!; [done | done | done | | done].
    apply (rel_start _ _ Hrel _ _ Hstart).
  - destruct (seconds =? 0).
    + intros [= <- <-]. split_and!; done.
    + set (st2 := if 0 <? seconds + 5 then _ else st1).
      assert (ps_sessionFile st2 = ps_sessionFile st ∧
              ps_clientPool st2 = ps_clientPool st ∧
              auth_exchanges (ps_log st2) = auth_exchanges (ps_log st1))
        as (Hf2 & Hp2 & Ha2).
      { subst st2. destruct (0 <? seconds + 5); [|done]. cbn.
        by rewrite auth_exchanges_snoc, app_nil_r. }
      intros Hrun. destruct (IH st2 Hrun) as (Hf & Hp & Hc & Hr).
      split_and!; [congruence | congruence | |].
      * rewrite Hc, Ha2. done.
      * unfold accepted in *. rewrite Ha2 in Hr.
        destruct r; [destruct Hr as [? Hr]; split; [done|] |]; lia.
  - intros [= <- <-]. split_and!; done.
Qed.
End PoolFacts.

Lemma demo_pool_world_reliable : reliable demo_pool_world (λ s, s = "k"%string).
Proof.
  split; cbn.
  - by intros s ->.
  - intros [|t] s; [done | by intros [= <-]].
  - done.
  - done.
  - done.
  - done.
Qed.

(** ** Calls of [ensureClientPool] that overlap *)

Section Counting.
Context {A : Type} (f : A → bool).
Implicit Types (l : list A).

Lemma filter_length_snoc l x :
  length (List.filter f (l ++ [x])) =
  (length (List.filter f l) + Nat.b2n (f x))%nat.
Proof. rewrite List.filter_app, length_app. cbn. by destruct (f x). Qed.

Lemma filter_length_insert l i x y :
  l !! i = Some x →
  (length (List.filter f (<[i := y]> l)) + Nat.b2n (f x) =
   length (List.filter f l) + Nat.b2n (f y))%nat.
Proof.
  intros Hi.
  assert (List.filter f l = List.filter f (take i l ++ x :: drop (S i) l))
    as -> by (by rewrite take_drop_middle).
  rewrite insert_take_drop by (by eapply lookup_lt_Some).
  rewrite !List.filter_app, !length_app. cbn [List.filter].
  destruct (f x), (f y); cbn [length Nat.b2n]; lia.
Qed.

Lemma filter_nil_lookup l i x :
  List.filter f l = [] → l !! i = Some x → f x = false.
Proof.
  revert i. induction l as [|a l IH]; intros [|i]; cbn; try done.
  - intros Hnil [= ->]. by destruct (f x).
  - intros Hnil Hi. destruct (f a); [done | by eapply IH].
Qed.

Lemma filter_nil_length l : length (List.filter f l) = 0%nat → List.filter f l = [].
Proof. by destruct (List.filter f l). Qed.
End Counting.

Section CallsFacts.
Context (w : PoolWorld) (valid : string → Prop).
Context (Hrel : reliable w valid).
Implicit Types (st : PoolState) (cs : Calls) (p : call_point) (c : pool_call).

Lemma accepted_emit st e :
  accepted (ps_log (pool_emit e st)) =
  (accepted (ps_log st) +
   match e with PeStart _ (StartOk _) => 1 | _ => 0 end)%nat.
Proof.
  unfold accepted. cbn. rewrite auth_exchanges_snoc, List.filter_app, length_app.
  destruct e as [r [s|sec|]| | | |]; cbn; lia.
Qed.

Lemma accepted_same st st' :
  auth_exchanges (ps_log st') = auth_exchanges (ps_log st) →
  accepted (ps_log st') = accepted (ps_log st).
Proof. unfold accepted. by intros ->. Qed.

Local Ltac early_same :=
  intros _; left; split_and!; first [done | lia | congruence].

Local Ltac early_saved := intros _; right; split; [by eexists | lia].

Local Ltac leaf :=
  split_and!; try done; try (cbn; lia); try (by eexists);
  try (by intros ? [= <-]); try congruence; try early_same; try early_saved.

(** One step of a call, on a reliable transport. *)
Lemma call_resume_spec fresh p st :
  (∀ s, ps_sessionFile st = Some s → valid s) →
  point_ok valid (mkPoolCall fresh p) →
  let r := call_resume w p st in
  (∀ s, ps_sessionFile r.2 = Some s → valid s) ∧
  List.filter by_clone (auth_exchanges (ps_log r.2)) =
    List.filter by_clone (auth_exchanges (ps_log st)) ∧
  point_ok valid (mkPoolCall fresh r.1) ∧
  (accepted (ps_log r.2) + Nat.b2n (authenticating (mkPoolCall fresh r.1)) <=
   accepted (ps_log st) + Nat.b2n (authenticating (mkPoolCall fresh p)))%nat ∧
  (accepted (ps_log st) <= accepted (ps_log r.2))%nat ∧
  (is_Some (ps_sessionFile st) → is_Some (ps_sessionFile r.2)) ∧
  (authenticating (mkPoolCall fresh p) = false →
   auth_exchanges (ps_log r.2) = auth_exchanges (ps_log st)) ∧
  (early (mkPoolCall fresh p) = true →
   (ps_sessionFile r.2 = ps_sessionFile st ∧
    ps_clientPool r.2 = ps_clientPool st ∧
    accepted (ps_log r.2) = accepted (ps_log st) ∧
    early (mkPoolCall fresh r.1) = true) ∨
   (is_Some (ps_sessionFile r.2) ∧ (1 <= accepted (ps_log r.2))%nat)).
Proof.
  intros Hfile Hok.
  destruct p as [saved|test saved| |waitSec|n master|o];
    cbn [call_resume point_ok pc_at pc_fresh] in *.
  - (* the test client connects *)
    destruct (createClient_valid w valid Hrel Primary saved st Hok)
      as (test & st1 & -> & Hvt & [Hf1 He1] & Hp1).
    cbn [fst snd]. unfold point_ok, authenticating, early. cbn [pc_at].
    rewrite (accepted_same st st1 He1), Hf1, He1.
    split_and!; try done; try (cbn; lia).
  - (* getMe resolves; the session is saved when it has changed *)
    rewrite (rel_getMe _ _ Hrel).
    set (st2 := pool_emit (PeGetMe true) st).
    assert (no_auth st st2) as [Hf2 He2] by (by apply no_auth_emit).
    rewrite (rel_nonempty _ _ Hrel _ Hok).
    set (st3 := if String.eqb (session test) saved then st2 else _).
    assert (auth_exchanges (ps_log st3) = auth_exchanges (ps_log st) ∧
            (ps_sessionFile st3 = ps_sessionFile st ∨
             ps_sessionFile st3 = Some (session test))) as [He3 Hf3].
    { subst st3. destruct (String.eqb (session test) saved).
      - split; [done | by left].
      - destruct (saveSession_spec w valid Hrel (session test) st2)
          as (-> & -> & _). split; [done | by right]. }
    cbn [fst snd pool_set ps_log ps_sessionFile].
    unfold point_ok, authenticating, early. cbn [pc_at].
    rewrite (accepted_same st st3 He3), He3.
    split_and!; try done.
    + intros s. destruct Hf3 as [-> | ->]; [by apply Hfile | by intros [= <-]].
    + destruct Hf3 as [-> | ->]; [done | by eexists].
  - (* the authentication exchange *)
    unfold createClientWithSession. cbn [string_empty negb].
    set (st1 := pool_emit (PeStart Primary (pw_start w (ps_clock st))) st).
    assert (ps_sessionFile st1 = ps_sessionFile st) as Hf1 by done.
    assert (ps_clientPool st1 = ps_clientPool st) as Hp1 by done.
    assert (List.filter by_clone (auth_exchanges (ps_log st1)) =
            List.filter by_clone (auth_exchanges (ps_log st))) as Hc1.
    { cbn. rewrite auth_exchanges_snoc, List.filter_app. cbn. apply app_nil_r. }
    pose proof (accepted_emit st (PeStart Primary (pw_start w (ps_clock st))))
      as Ha1. fold st1 in Ha1.
    clearbody st1.
    destruct (pw_start w (ps_clock st)) as [s|seconds|] eqn:Hstart.
    + (* accepted: the session is saved and the clones are started *)
      assert (valid s) as Hs by (apply (rel_start _ _ Hrel _ _ Hstart)).
      destruct (saveSession_spec w valid Hrel s st1) as (Hf2 & He2 & _).
      cbn [fst snd session pool_set ps_log ps_sessionFile].
      unfold point_ok, authenticating, early. cbn [pc_at].
      rewrite (accepted_same st1 _ He2), He2, Hf2, Ha1.
      leaf.
    + destruct (seconds =? 0).
      * cbn [fst snd]. unfold point_ok, authenticating, early. cbn [pc_at].
        rewrite Ha1, Hf1, Hp1.
        leaf.
      * destruct (0 <? seconds + 5).
        -- cbn [fst snd]. unfold point_ok, authenticating, early. cbn [pc_at pc_fresh].
           rewrite accepted_emit, Ha1.
           assert (auth_exchanges (ps_log (pool_emit (PeWait (seconds + 5)) st1))
                   = auth_exchanges (ps_log st1)) as ->.
           { cbn. by rewrite auth_exchanges_snoc, app_nil_r. }
           cbn [pool_emit ps_sessionFile ps_clientPool]. rewrite Hf1, Hp1.
           leaf.
        -- cbn [fst snd]. unfold point_ok, authenticating, early. cbn [pc_at pc_fresh].
           rewrite Ha1, Hf1, Hp1.
           leaf.
    + cbn [fst snd]. unfold point_ok, authenticating, early. cbn [pc_at].
      rewrite Ha1, Hf1, Hp1.
      leaf.
  - (* the countdown is over *)
    cbn [fst snd]. unfold point_ok, authenticating, early. cbn [pc_at pc_fresh].
    leaf.
  - (* the clones connect with the credential *)
    destruct (cloneClients_valid w valid Hrel n master st Hok) as [[Hf1 He1] Hp1].
    destruct (cloneClients n w master st) as [clones st1].
    cbn [fst snd pool_set ps_log ps_sessionFile] in *.
    unfold point_ok, authenticating, early. cbn [pc_at].
    rewrite (accepted_same st st1 He1), Hf1, He1.
    split_and!; try done; try (cbn; lia).
  - cbn [fst snd]. leaf.
Qed.

Lemma loadSavedSession_valid st :
  (∀ s, ps_sessionFile st = Some s → valid s) →
  if string_empty (loadSavedSession st)
  then ps_sessionFile st = None
  else ps_sessionFile st = Some (loadSavedSession st) ∧
       valid (loadSavedSession st).
Proof.
  intros Hfile. unfold loadSavedSession.
  destruct (ps_sessionFile st) as [s|]; [|done].
  rewrite (rel_nonempty _ _ Hrel s) by (by apply Hfile).
  split; [done | by apply Hfile].
Qed.

(** A call up to its first await: it is to authenticate exactly when it
    found no saved session, which needs an empty credential file. *)
Lemma call_start_spec st :
  (∀ s, ps_sessionFile st = Some s → valid s) →
  let c := call_start st in
  point_ok valid c ∧
  authenticating c = pc_fresh c ∧
  (ps_sessionFile st = None → early c = true) ∧
  (is_Some (ps_sessionFile st) → pc_fresh c = false).
Proof.
  intros Hfile. pose proof (loadSavedSession_valid st Hfile) as Hsaved.
  unfold call_start.
  destruct (alive (ps_clientPool st) >=? CLIENT_POOL_SIZE); [done|].
  destruct (string_empty (loadSavedSession st)); cbn [negb].
  - split_and!; [done | done | done |].
    rewrite Hsaved. by intros [? ?].
  - destruct Hsaved as [Hsome Hv]. split_and!; [done | done | | done].
    congruence.
Qed.

Lemma calls_step_inv file0 cs a :
  calls_inv valid file0 cs → calls_inv valid file0 (calls_step w cs a).
Proof.
  destruct cs as [st calls].
  intros (Hfile & Hclone & Hpoints & Hcount & Hcase).
  cbn [cs_pool cs_calls] in *.
  destruct a as [|i|slot up|]; cbn [calls_step cs_pool cs_calls].
  - (* a new call *)
    destruct (call_start_spec st Hfile) as (Hpc & Hb & He & Hnf).
    unfold calls_inv. cbn [cs_pool cs_calls].
    rewrite !filter_length_snoc, Hb.
    split_and!; [done | done | | lia |].
    { apply Forall_app. split; [done | by constructor]. }
    destruct Hcase as [(Hnone & Hpool & Hzero & Hf0 & Hall)|(Hsome & H1 & H2)].
    + left. split_and!; try done.
      apply Forall_app. split; [done|]. constructor; [by apply He | constructor].
    + right. split_and!; try done.
      intros Hs0. destruct (H2 Hs0) as [Hex Hnofresh]. split; [done|].
      rewrite List.filter_app, Hnofresh. cbn. by rewrite (Hnf Hsome).
  - (* a call goes on *)
    destruct (calls !! i) as [[fresh p]|] eqn:Hi;
      [|by split_and!].
    cbn [pc_at pc_fresh].
    pose proof (Forall_lookup_1 _ _ _ _ Hpoints Hi) as Hp.
    destruct (call_resume_spec fresh p st Hfile Hp)
      as (Hfile' & Hclone' & Hp' & Hacc & Hmono & Hsome' & Hquiet & Hearly).
    destruct (call_resume w p st) as [p' st']. cbn [fst snd] in *.
    pose proof (filter_length_insert authenticating calls i
                  (mkPoolCall fresh p) (mkPoolCall fresh p') Hi) as Hauth.
    pose proof (filter_length_insert pc_fresh calls i
                  (mkPoolCall fresh p) (mkPoolCall fresh p') Hi) as Hfresh.
    cbn [pc_fresh] in Hfresh.
    unfold calls_inv. cbn [cs_pool cs_calls].
    split_and!.
    + done.
    + congruence.
    + by apply Forall_insert.
    + lia.
    + destruct Hcase as [(Hnone & Hpool & Hzero & Hfile0 & Hall)|(Hsome & H1 & H2)].
      * pose proof (Forall_lookup_1 _ _ _ _ Hall Hi) as He. cbn beta in He.
        destruct (Hearly He) as [(Hf & Hpl & Ha & He')|[Hs Ha]].
        -- left. split_and!; [congruence | congruence | lia | done |].
           by apply Forall_insert.
        -- right. split_and!; [done | done |].
           intros Hs0. rewrite Hfile0 in Hs0. by destruct Hs0.
      * right. split_and!; [by apply Hsome' | intros H0; specialize (H1 H0); lia |].
        intros Hs0. destruct (H2 Hs0) as [Hex Hnofresh].
        pose proof (filter_nil_lookup pc_fresh calls i _ Hnofresh Hi) as Hnf.
        cbn [pc_fresh] in Hnf. subst fresh.
        assert (authenticating (mkPoolCall false p) = false) as Hna.
        { unfold point_ok in Hp. unfold authenticating.
          cbn [pc_at pc_fresh] in *. by destruct p. }
        split; [by rewrite (Hquiet Hna) |].
        apply filter_nil_length. rewrite Hnofresh in Hfresh.
        cbn in Hfresh. lia.
  - (* a connection goes down or comes back *)
    unfold calls_inv. cbn [cs_pool cs_calls pool_set ps_sessionFile ps_log
                             ps_clientPool].
    split_and!; try done.
    destruct Hcase as [(Hnone & Hpool & Hrest)|?]; [left | by right].
    rewrite Hpool. split_and!; [done | done | apply Hrest..].
  - unfold calls_inv. cbn [cs_pool cs_calls pool_set ps_sessionFile ps_log
                             ps_clientPool].
    split_and!; try done.
    destruct Hcase as [(Hnone & Hpool & Hrest)|?]; [left | by right].
    split_and!; [done | done | apply Hrest..].
Qed.

Lemma calls_run_inv file0 actions cs :
  calls_inv valid file0 cs → calls_inv valid file0 (calls_run w cs actions).
Proof.
  revert cs. induction actions as [|a actions IH]; intros cs Hinv; [done|].
  apply IH. by apply calls_step_inv.
Qed.

Lemma calls_inv_init file0 :
  (∀ s, file0 = Some s → valid s) → calls_inv valid file0 (calls_init file0).
Proof.
  intros Hv. split_and!; [done | done | constructor | cbn; lia |].
  destruct file0 as [s|]; [right | left].
  - split_and!; [by eexists | done | done].
  - split_and!; [done | done | done | done | constructor].
Qed.

Lemma returned_quiet (calls : list pool_call) :
  forallb returned calls = true → List.filter authenticating calls = [].
Proof.
  induction calls as [|[fresh p] calls IH]; [done|]. cbn.
  intros [Hr Hall]%andb_true_iff. unfold returned, authenticating in *.
  cbn [pc_at] in *. destruct p; try done. by apply IH.
Qed.

(** With calls that do not overlap there is never more than one
    authentication accepted or about to be made. *)
Lemma calls_step_awaited file0 cs a :
  calls_inv valid file0 cs →
  match a with NewCall => forallb returned (cs_calls cs) | _ => true end = true →
  (accepted (ps_log (cs_pool cs)) +
   length (List.filter authenticating (cs_calls cs)) <= 1)%nat →
  (accepted (ps_log (cs_pool (calls_step w cs a))) +
   length (List.filter authenticating (cs_calls (calls_step w cs a))) <= 1)%nat.
Proof.
  destruct cs as [st calls].
  intros (Hfile & Hclone & Hpoints & Hcount & Hcase) Hcall Hone.
  cbn [cs_pool cs_calls] in *.
  destruct a as [|i|slot up|]; cbn [calls_step cs_pool cs_calls]; [| |done|done].
  - destruct (call_start_spec st Hfile) as (_ & Hb & _ & Hnf).
    rewrite filter_length_snoc, Hb.
    rewrite (returned_quiet calls Hcall) in *. cbn [length] in *.
    destruct Hcase as [(_ & _ & -> & _)|(Hsome & _)].
    + destruct (pc_fresh (call_start st)); cbn; lia.
    + rewrite (Hnf Hsome). cbn. lia.
  - destruct (calls !! i) as [[fresh p]|] eqn:Hi; [|done].
    cbn [pc_at pc_fresh].
    pose proof (Forall_lookup_1 _ _ _ _ Hpoints Hi) as Hp.
    destruct (call_resume_spec fresh p st Hfile Hp)
      as (_ & _ & _ & Hacc & _).
    destruct (call_resume w p st) as [p' st']. cbn [fst snd cs_pool cs_calls] in *.
    pose proof (filter_length_insert authenticating calls i
                  (mkPoolCall fresh p) (mkPoolCall fresh p') Hi) as Hauth.
    lia.
Qed.

Lemma calls_run_awaited file0 actions cs :
  calls_inv valid file0 cs →
  awaited w cs actions = true →
  (accepted (ps_log (cs_pool cs)) +
   length (List.filter authenticating (cs_calls cs)) <= 1)%nat →
  (accepted (ps_log (cs_pool (calls_run w cs actions))) <= 1)%nat.
Proof.
  revert cs. induction actions as [|a actions IH]; intros cs Hinv Haw Hone.
  { cbn. lia. }
  cbn [awaited] in Haw. apply andb_true_iff in Haw as [Hcall Haw].
  apply (IH (calls_step w cs a)).
  - by apply calls_step_inv.
  - done.
  - by apply (calls_step_awaited file0).
Qed.
End CallsFacts.

Section Alone.
Context (w : PoolWorld).
Implicit Types (st : PoolState) (p : call_point).

Lemma call_finish_returned n o st :
  call_finish n w (Finished o) st = Some (o, st).
Proof. by destruct n. Qed.

Lemma call_finish_clones n k master st :
  call_finish (S n) w (AtClones k master) st =
  let '(clones, st') := cloneClients k w master st in
  Some (Resolved, pool_set (ps_clientPool st' ++ clones) st').
Proof.
  cbn [call_finish call_resume].
  destruct (cloneClients k w master st) as [clones st'].
  apply call_finish_returned.
Qed.

(** The loop of the authentication, step by step. *)
Lemma authenticate_alone fuel st r st1 :
  authenticate fuel w st = Some (r, st1) →
  ∃ n, ∀ m,
    call_finish (n + m) w AtStart st =
    match r with
    | inl primary =>
        let st2 := pool_set [primary] (saveSession w (session primary) st1) in
        call_finish m w (AtClones (clones_needed st2) (session primary)) st2
    | inr _ => Some (Rejected, st1)
    end.
Proof.
  revert st. induction fuel as [|fuel IH]; intros st; [done|].
  cbn [authenticate].
  destruct (createClientWithSession w Primary "" st) as [[primary|[seconds|]] st']
    eqn:Hcreate.
  - intros [= <- <-]. exists 1%nat. intros m.
    cbn [Nat.add call_finish call_resume]. by rewrite Hcreate.
  - destruct (seconds =? 0) eqn:Hzero.
    + intros [= <- <-]. exists 1%nat. intros m.
      cbn [Nat.add call_finish call_resume]. rewrite Hcreate, Hzero.
      apply call_finish_returned.
    + destruct (0 <? seconds + 5) eqn:Hwait; intros Hauth;
        destruct (IH _ Hauth) as (n & Hn).
      * exists (S (S n)). intros m.
        cbn [Nat.add call_finish call_resume]. rewrite Hcreate, Hzero, Hwait.
        apply Hn.
      * exists (S n). intros m.
        cbn [Nat.add call_finish call_resume]. rewrite Hcreate, Hzero, Hwait.
        apply Hn.
  - intros [= <- <-]. exists 1%nat. intros m.
    cbn [Nat.add call_finish call_resume]. rewrite Hcreate.
    apply call_finish_returned.
Qed.

(** A call that nothing interrupts is [ensureClientPool] run to its end. *)
Lemma ensureClientPool_alone fuel st r :
  ensureClientPool fuel w st = Some r →
  ∃ n, call_finish n w (pc_at (call_start st)) st = Some r.
Proof.
  unfold ensureClientPool, call_start.
  destruct (alive (ps_clientPool st) >=? CLIENT_POOL_SIZE).
  { intros [= <-]. by exists 0%nat. }
  assert (∀ stA,
            match
              match authenticate fuel w stA with
              | Some (inl primary, st1) =>
                  Some (inl (session primary,
                             pool_set [primary]
                               (saveSession w (session primary) st1)))
              | Some (inr _, st1) => Some (inr st1)
              | None => None
              end
            with
            | Some (inl (masterSession, stM)) =>
                let
                '(clones, st2) :=
                  cloneClients
                    (Z.to_nat (CLIENT_POOL_SIZE -
                               Z.of_nat (length (ps_clientPool stM))))
                    w masterSession stM in
                Some (Resolved, pool_set (ps_clientPool st2 ++ clones) st2)
            | Some (inr stR) => Some (Rejected, stR)
            | None => None
            end = Some r →
            ∃ n, call_finish n w AtStart stA = Some r) as Hauth.
  { intros stA.
    destruct (authenticate fuel w stA) as [[[primary|e] st1]|] eqn:Ha;
      [| |done].
    - destruct (authenticate_alone _ _ _ _ Ha) as (n & Hn).
      intros Hr. exists (n + 1)%nat. rewrite Hn.
      rewrite call_finish_clones. exact Hr.
    - destruct (authenticate_alone _ _ _ _ Ha) as (n & Hn).
      intros [= <-]. exists (n + 0)%nat. by rewrite Hn. }
  destruct (negb (string_empty (loadSavedSession st))) eqn:Hsaved; cbn [pc_at].
  2: { apply negb_false_iff in Hsaved. rewrite Hsaved. apply Hauth. }
  destruct (createClientWithSession w Primary (loadSavedSession st) st)
    as [[test|e] st1] eqn:Hcreate.
  2: { cbn [string_empty]. intros Hr. destruct (Hauth _ Hr) as (n & Hn).
       exists (S n). cbn [call_finish call_resume]. by rewrite Hcreate. }
  destruct (pw_getMe w (ps_clock st1)) eqn:HgetMe.
  2: { cbn [string_empty]. intros Hr. destruct (Hauth _ Hr) as (n & Hn).
       exists (S (S n)). cbn [call_finish call_resume].
       rewrite Hcreate. cbn [call_finish call_resume]. by rewrite HgetMe. }
  destruct (string_empty (session test)) eqn:Hupd.
  - intros Hr. destruct (Hauth _ Hr) as (n & Hn).
    exists (S (S n)). cbn [call_finish call_resume].
    rewrite Hcreate. cbn [call_finish call_resume]. by rewrite HgetMe, Hupd.
  - intros Hr. exists 3%nat. cbn [call_finish call_resume].
    rewrite Hcreate. cbn [call_finish call_resume]. rewrite HgetMe, Hupd.
    cbn [call_resume]. unfold clones_needed. revert Hr.
    by destruct (cloneClients _ w (session test) _) as [clones st2].
Qed.
End Alone.



(** ** More on the chunk cache *)

Section CacheMore.
Implicit Types (c : ChunkCache.t) (m : list (string * Buffer))
  (key k : string) (buf : Buffer).

Lemma filter_ext_in {A} (P1 P2 : A → Prop)
    `{!∀ x, Decision (P1 x), !∀ x, Decision (P2 x)} (l : list A) :
  (∀ x, x ∈ l → P1 x ↔ P2 x) → filter P1 l = filter P2 l.
Proof.
  induction l as [|a l IH]; intros Hiff; [done|].
  rewrite !filter_cons.
  rewrite IH by (intros x Hx; apply Hiff; by right).
  apply decide_ext, Hiff. by left.
Qed.

Lemma filter_all {A} (P : A → Prop) `{!∀ x, Decision (P x)} (l : list A) :
  (∀ x, x ∈ l → P x) → filter P l = l.
Proof.
  induction l as [|a l IH]; intros Hall; [done|].
  rewrite filter_cons_True by (apply Hall; by left).
  rewrite IH; [done|]. intros x Hx. apply Hall. by right.
Qed.

Lemma filter_none {A} (P : A → Prop) `{!∀ x, Decision (P x)} (l : list A) :
  (∀ x, x ∈ l → ¬ P x) → filter P l = [].
Proof.
  induction l as [|a l IH]; intros Hall; [done|].
  rewrite filter_cons_False by (apply Hall; by left).
  apply IH. intros x Hx. apply Hall. by right.
Qed.

Lemma JsMap_delete_filter m k :
  JsMap.delete m k = filter (λ kv, kv.1 ≠ k) m.
Proof.
  induction m as [|[k' v] m IH]; [done|]. cbn [JsMap.delete].
  rewrite filter_cons. cbn [fst]. rewrite eqb_decide.
  destruct (decide (k' = k)) as [->|Hne].
  - rewrite bool_decide_eq_true_2 by done.
    rewrite decide_False by (intros H; by apply H). done.
  - rewrite bool_decide_eq_false_2 by done.
    rewrite decide_True by done. by rewrite IH.
Qed.

Lemma JsMap_get_filter (P : string → Prop) {Hdec : ∀ x, Decision (P x)} m k :
  JsMap.get (filter (λ kv, P kv.1) m) k =
  if decide (P k) then JsMap.get m k else None.
Proof.
  induction m as [|[k' v] m IH]; [by destruct (decide (P k))|].
  rewrite filter_cons. cbn [fst JsMap.get].
  destruct (decide (P k')) as [Hk'|Hk']; cbn [JsMap.get];
    rewrite ?eqb_decide, IH; destruct (decide (k' = k)) as [->|Hne].
  - rewrite bool_decide_eq_true_2 by done. by rewrite decide_True.
  - by rewrite bool_decide_eq_false_2.
  - by destruct (decide (P k)).
  - by rewrite bool_decide_eq_false_2.
Qed.

Lemma JsMap_keys_filter (P : string → Prop) {Hdec : ∀ x, Decision (P x)} m :
  JsMap.keys (filter (λ kv, P kv.1) m) = filter P (JsMap.keys m).
Proof.
  induction m as [|[k' v] m IH]; [done|].
  unfold JsMap.keys in *. rewrite fmap_cons, !filter_cons. cbn [fst].
  destruct (decide (P k')); by rewrite ?fmap_cons, IH.
Qed.

(** The eviction loop removes the shortest run of oldest entries after
    which the new entry fits, or everything. *)
Lemma evict_minimal fuel c len :
  cache_wf c → (length (ChunkCache.map c) <= fuel)%nat →
  ∃ j : nat,
    ChunkCache.map (ChunkCache.evict fuel c len) = drop j (ChunkCache.map c) ∧
    (j <= length (ChunkCache.map c))%nat ∧
    (∀ i : nat, (i < j)%nat →
       resident_bytes (drop i (ChunkCache.map c)) + len > ChunkCache.maxBytes c) ∧
    (resident_bytes (drop j (ChunkCache.map c)) + len <= ChunkCache.maxBytes c ∨
     j = length (ChunkCache.map c)).
Proof.
  revert c. induction fuel as [|fuel IH]; intros c Hwf Hlen.
  - exists 0%nat. destruct (ChunkCache.map c) eqn:Hm; [|cbn in Hlen; lia].
    cbn [ChunkCache.evict]. rewrite Hm. split_and!; [done | done | lia | by right].
  - cbn [ChunkCache.evict].
    destruct (ChunkCache.usedBytes c + len >? ChunkCache.maxBytes c) eqn:Hgt;
      cbn [andb].
    2: { exists 0%nat. split_and!; [done | lia | lia |]. left.
         destruct Hwf as [_ Hu]. rewrite drop_0, <- Hu. lia. }
    destruct (ChunkCache.map c) as [|[k b] m] eqn:Hm.
    { exists 0%nat. change (JsMap.size (@nil (string * Buffer)) >? 0) with false.
      cbn iota. split_and!; [by rewrite Hm | done | lia | by right]. }
    replace (JsMap.size ((k, b) :: m) >? 0) with true
      by (unfold JsMap.size; cbn [length]; symmetry; apply Z.gtb_lt; lia).
    cbn [JsMap.first_key].
    pose proof (drop_entry_wf c k Hwf) as Hwf'.
    pose proof (drop_entry_head c k b m Hwf Hm) as Hm'.
    destruct (IH _ Hwf') as (j & Hj & Hjle & Hmin & Hstop).
    { rewrite Hm'. cbn in Hlen. lia. }
    rewrite Hm' in *. exists (S j). split_and!.
    + by rewrite Hj.
    + cbn [length]. lia.
    + intros [|i] Hi.
      * destruct Hwf as [_ Hu]. rewrite drop_0, <- Hm, <- Hu. lia.
      * cbn [drop]. apply Hmin. lia.
    + cbn [drop length]. destruct Hstop as [Hs | ->]; [by left | by right].
Qed.

Lemma deletePrefix_fold_map prefix ks c :
  cache_wf c →
  ChunkCache.map
    (fold_left
       (λ c key, if String.prefix prefix key
                 then ChunkCache.drop_entry c key else c) ks c) =
  filter (λ kv, ¬ (kv.1 ∈ ks ∧ String.prefix prefix kv.1 = true))
         (ChunkCache.map c).
Proof.
  revert c. induction ks as [|k0 ks IH]; intros c Hwf; cbn [fold_left];
    unfold JsMap.t in *.
  - symmetry. apply filter_all. intros kv _ [Hin _].
    by apply not_elem_of_nil in Hin.
  - destruct (String.prefix prefix k0) eqn:Hp.
    + rewrite IH by (by apply drop_entry_wf). cbn [ChunkCache.map ChunkCache.drop_entry].
      rewrite JsMap_delete_filter, list_filter_filter.
      apply list_filter_iff. intros [k v]. cbn [fst]. rewrite elem_of_cons.
      split.
      * intros [Hn Hne] [[->|Hin] Hpk]; [done | tauto].
      * intros Hn. split; [tauto|]. intros ->. tauto.
    + rewrite IH by done. apply list_filter_iff. intros [k v]. cbn [fst].
      rewrite elem_of_cons. split.
      * intros Hn [[->|Hin] Hpk]; [congruence | tauto].
      * tauto.
Qed.

Lemma deletePrefix_map prefix c :
  cache_wf c →
  ChunkCache.map (ChunkCache.deletePrefix c prefix) =
  filter (λ kv, String.prefix prefix kv.1 ≠ true) (ChunkCache.map c).
Proof.
  intros Hwf. unfold ChunkCache.deletePrefix.
  rewrite deletePrefix_fold_map by done. unfold JsMap.t in *.
  apply filter_ext_in. intros [k v] Hin. cbn [fst].
  assert (k ∈ JsMap.keys (ChunkCache.map c)) as Hk.
  { unfold JsMap.keys. apply list_elem_of_fmap. by exists (k, v). }
  tauto.
Qed.
End CacheMore.

(** X1.  Whatever sequence of [set], [get], [has], [deletePrefix] and
    [clear] a new cache has gone through, its keys are distinct,
    [usedBytes] is exactly the sum of the lengths of the stored buffers
    (so it is never negative) and [maxBytes] is the one of the constructor. *)
Theorem cache_accounting_exact (maxBytes : Z) (ops : list cache_op) :
  let c := cache_run (ChunkCache.new maxBytes) ops in
  NoDup (JsMap.keys (ChunkCache.map c)) ∧
  ChunkCache.usedBytes c = resident_bytes (ChunkCache.map c) ∧
  0 <= ChunkCache.usedBytes c ∧
  ChunkCache.maxBytes c = maxBytes.
Proof.
  intros c.
  assert (cache_wf c) as Hwf by apply cache_run_wf, new_wf.
  destruct Hwf as [Hnd Hu]. split_and!; [done | done | |].
  - rewrite Hu. apply resident_bytes_nonneg.
  - subst c. rewrite cache_run_maxBytes; [done | apply new_wf].
Qed.

(** X2.  In any cache reached from a new one, [set(key, buf)] followed by
    [get(key)] returns [buf], whatever its size; [has(key)] is true, the key
    is the most recent one, and it is stored once. *)
Theorem cache_set_then_get (maxBytes : Z) (ops : list cache_op)
    (key : string) (buf : Buffer) :
  let c := ChunkCache.set (cache_run (ChunkCache.new maxBytes) ops) key buf in
  (ChunkCache.get c key).1 = Some buf ∧
  ChunkCache.has c key = true ∧
  last (JsMap.keys (ChunkCache.map c)) = Some key ∧
  length (filter (λ k, k = key) (JsMap.keys (ChunkCache.map c))) = 1%nat.
Proof.
  intros c. set (c0 := cache_run (ChunkCache.new maxBytes) ops) in *.
  assert (cache_wf c0) as Hwf0 by apply cache_run_wf, new_wf.
  destruct (set_spec c0 key buf Hwf0) as ([Hnd _] & _ & [j Hj] & _).
  fold c in Hnd, Hj.
  assert (key ∉ JsMap.keys (drop j (JsMap.delete (ChunkCache.map c0) key))) as Hni.
  { rewrite JsMap_keys_drop. intros Hin%subseteq_drop.
    by apply JsMap_delete_not_in in Hin. }
  assert (JsMap.get (ChunkCache.map c) key = Some buf) as Hget.
  { rewrite Hj, JsMap_get_app.
    apply JsMap_get_None in Hni. rewrite Hni. cbn.
    by rewrite String.eqb_refl. }
  split_and!.
  - by rewrite get_result.
  - unfold ChunkCache.has, JsMap.has. by rewrite Hget.
  - rewrite Hj, JsMap_keys_app. cbn. by rewrite last_snoc.
  - rewrite Hj, JsMap_keys_app, filter_app, length_app.
    rewrite filter_none by (by intros k Hk ->).
    change (JsMap.keys [(key, buf)]) with [key].
    by rewrite filter_cons_True.
Qed.

(** X3.  [set(key, buf)] evicts oldest first and no more than it must.
    With [m0] the entries other than [key] in recency order, the cache
    afterwards holds [m0] without its [j] oldest entries, then [key]; every
    shorter eviction would have left the cache over budget with the new
    entry, and unless everything was evicted the new entry fits.  In
    particular an insert that fits evicts nothing. *)
Theorem cache_set_evicts_minimally (maxBytes : Z) (ops : list cache_op)
    (key : string) (buf : Buffer) :
  let c := cache_run (ChunkCache.new maxBytes) ops in
  let m0 := JsMap.delete (ChunkCache.map c) key in
  ∃ j : nat,
    ChunkCache.map (ChunkCache.set c key buf) = drop j m0 ++ [(key, buf)] ∧
    (j <= length m0)%nat ∧
    (∀ i : nat, (i < j)%nat →
       resident_bytes (drop i m0) + Buffer_length buf > maxBytes) ∧
    (resident_bytes (drop j m0) + Buffer_length buf <= maxBytes ∨
     j = length m0) ∧
    (resident_bytes m0 + Buffer_length buf <= maxBytes → j = 0%nat).
Proof.
  intros c m0.
  assert (cache_wf c) as Hwf by apply cache_run_wf, new_wf.
  assert (ChunkCache.maxBytes c = maxBytes) as Hmax.
  { subst c. rewrite cache_run_maxBytes; [done | apply new_wf]. }
  unfold ChunkCache.set.
  set (c1 := if JsMap.has _ _ then _ else _).
  assert (cache_wf c1 ∧ ChunkCache.maxBytes c1 = maxBytes ∧
          ChunkCache.map c1 = m0) as (Hwf1 & Hmax1 & Hmap1).
  { subst c1 m0. destruct (JsMap.has (ChunkCache.map c) key) eqn:Hhas.
    - split; [by apply drop_entry_wf | done].
    - apply JsMap_has_false in Hhas. by rewrite JsMap_delete_absent. }
  destruct (evict_minimal (length (ChunkCache.map c1)) c1 (Buffer_length buf)
              Hwf1 ltac:(lia)) as (j & Hj & Hjle & Hmin & Hstop).
  rewrite Hmap1, Hmax1 in *. exists j.
  assert (key ∉ JsMap.keys (drop j m0)) as Hni.
  { rewrite JsMap_keys_drop. intros Hin%subseteq_drop.
    by apply JsMap_delete_not_in in Hin. }
  split_and!; [| done | done | done |].
  - cbn [ChunkCache.map]. rewrite Hj. by apply JsMap_set_absent.
  - intros Hfit. destruct j as [|j]; [done|].
    specialize (Hmin 0%nat ltac:(lia)). rewrite drop_0 in Hmin. lia.
Qed.

(** X4.  In any cache reached from a new one, [get] changes neither what
    is stored under any key nor [usedBytes]; a miss returns [null] and leaves
    the cache as it is, and a hit only moves the key to the most recent
    position. *)
Theorem cache_get_keeps_contents (maxBytes : Z) (ops : list cache_op)
    (key : string) :
  let c := cache_run (ChunkCache.new maxBytes) ops in
  let r := ChunkCache.get c key in
  (∀ k, JsMap.get (ChunkCache.map r.2) k = JsMap.get (ChunkCache.map c) k) ∧
  ChunkCache.usedBytes r.2 = ChunkCache.usedBytes c ∧
  (r.1 = None → r.2 = c) ∧
  (∀ b, r.1 = Some b →
        JsMap.keys (ChunkCache.map r.2) =
        filter (λ k, k ≠ key) (JsMap.keys (ChunkCache.map c)) ++ [key]).
Proof.
  intros c r.
  assert (cache_wf c) as Hwf by apply cache_run_wf, new_wf.
  split_and!.
  - intros k. by apply get_get.
  - by apply get_bounds.
  - subst r. unfold ChunkCache.get.
    by destruct (JsMap.get (ChunkCache.map c) key).
  - intros b. subst r. unfold ChunkCache.get.
    destruct (JsMap.get (ChunkCache.map c) key) as [b'|]; [|done].
    intros _. cbn [snd ChunkCache.map].
    rewrite JsMap_set_absent by apply JsMap_delete_not_in.
    by rewrite JsMap_keys_app, JsMap_keys_delete.
Qed.

(** X5.  In any cache reached from a new one, [deletePrefix(prefix)]
    removes exactly the entries whose key starts with [prefix]: every other
    key keeps its buffer and its place in the recency order, and [usedBytes]
    is again the sum of the lengths that remain. *)
Theorem cache_deletePrefix_exact (maxBytes : Z) (ops : list cache_op)
    (prefix : string) :
  let c := cache_run (ChunkCache.new maxBytes) ops in
  let c' := ChunkCache.deletePrefix c prefix in
  (∀ k, JsMap.get (ChunkCache.map c') k =
        if String.prefix prefix k then None else JsMap.get (ChunkCache.map c) k) ∧
  JsMap.keys (ChunkCache.map c') =
    filter (λ k, String.prefix prefix k ≠ true) (JsMap.keys (ChunkCache.map c)) ∧
  ChunkCache.usedBytes c' = resident_bytes (ChunkCache.map c').
Proof.
  intros c c'.
  assert (cache_wf c) as Hwf by apply cache_run_wf, new_wf.
  pose proof (deletePrefix_map prefix c Hwf) as Hmap. fold c' in Hmap.
  unfold JsMap.t in *. split_and!.
  - intros k. rewrite Hmap.
    pose proof (JsMap_get_filter (λ k0, String.prefix prefix k0 ≠ true)
                  (ChunkCache.map c) k) as Hg.
    etrans; [exact Hg|]. clear Hg. cbn beta.
    destruct (String.prefix prefix k); destruct (decide _) as [H|H];
      [by destruct H | done | done | by destruct H].
  - rewrite Hmap.
    exact (JsMap_keys_filter (λ k, String.prefix prefix k ≠ true)
             (ChunkCache.map c)).
  - by destruct (deletePrefix_spec c prefix Hwf) as ([_ Hu] & _).
Qed.

(** ** More on the chunk fetcher *)

Section FetchMore.
Implicit Types (st : Runtime) (tr : list event) (pool : list Client).

Lemma download_slots_app tr1 tr2 :
  download_slots (tr1 ++ tr2) = download_slots tr1 ++ download_slots tr2.
Proof. apply omap_app. Qed.

Lemma connects_app tr1 tr2 : connects (tr1 ++ tr2) = connects tr1 ++ connects tr2.
Proof. apply omap_app. Qed.

Lemma sleeps_app tr1 tr2 : sleeps (tr1 ++ tr2) = sleeps tr1 ++ sleeps tr2.
Proof. apply omap_app. Qed.

Lemma download_offsets_app tr1 tr2 :
  download_offsets (tr1 ++ tr2) = download_offsets tr1 ++ download_offsets tr2.
Proof. apply omap_app. Qed.

Lemma getClient_length pool pool' i :
  length pool = length pool' → getClient pool i = getClient pool' i.
Proof. intros Hlen. unfold getClient. by rewrite Hlen. Qed.

Lemma mark_connected_length slot pool :
  length (mark_connected slot pool) = length pool.
Proof.
  unfold mark_connected. destruct (pool !! slot); [|done].
  apply length_insert.
Qed.

Local Ltac shape_leaf :=
  eexists; split;
  [ cbn [snd trace emit tick with_cache with_pool]; rewrite <- ?app_assoc;
    first [reflexivity | symmetry; apply app_nil_r]
  | cbn; try apply sublist_nil_l; try reflexivity; try done.. ].

Lemma downloadAttempt_shape w cacheKey loc dcId chunkIndex offset attempt st :
  1 <= attempt <= MAX_RETRIES →
  ∃ tr,
    attempt_shape st
      (downloadAttempt w cacheKey loc dcId chunkIndex offset attempt st).2
      (option_list (getClient (clientPool st) (chunkIndex + attempt - 1)))
      offset (if attempt <? MAX_RETRIES then [backoff attempt] else []) tr.
Proof.
  intros Hatt. unfold downloadAttempt, on_attempt_error.
  assert ((attempt =? MAX_RETRIES) = negb (attempt <? MAX_RETRIES)) as ->.
  { destruct (Z.eqb_spec attempt MAX_RETRIES), (Z.ltb_spec attempt MAX_RETRIES);
      cbn; done || lia. }
  destruct (getClient (clientPool st) (chunkIndex + attempt - 1)) as [slot|].
  2: { destruct (attempt <? MAX_RETRIES); cbn [negb]; shape_leaf. }
  cbn zeta.
  destruct (match clientPool st !! slot with
            | Some c => connected c
            | None => true
            end).
  - destruct (w_iterDownload w (clock st) slot loc dcId offset) as [| |buf].
    + destruct (attempt <? MAX_RETRIES); cbn [negb]; shape_leaf.
      all: by repeat constructor.
    + shape_leaf. all: by repeat constructor.
    + destruct (0 <? Buffer_length buf); shape_leaf.
      all: by repeat constructor.
  - destruct (w_connect w (clock st) slot).
    + destruct (w_iterDownload w _ slot loc dcId offset) as [| |buf].
      * destruct (attempt <? MAX_RETRIES); cbn [negb]; shape_leaf.
        all: try (by repeat constructor). all: apply mark_connected_length.
      * shape_leaf. all: try (by repeat constructor).
        all: apply mark_connected_length.
      * destruct (0 <? Buffer_length buf); shape_leaf.
        all: try (by repeat constructor). all: apply mark_connected_length.
    + destruct (attempt <? MAX_RETRIES) eqn:Hlt.
      * shape_leaf. all: by repeat constructor.
      * destruct (w_iterDownload w _ slot loc dcId offset) as [| |buf].
        -- cbn [negb]. shape_leaf. all: by repeat constructor.
        -- shape_leaf. all: by repeat constructor.
        -- destruct (0 <? Buffer_length buf); shape_leaf.
           all: by repeat constructor.
Qed.

Lemma shape_refl st clients offset delays :
  attempt_shape st st clients offset delays [].
Proof.
  split; try done; try apply sublist_nil_l. by rewrite app_nil_r.
Qed.

Lemma shape_trans st st1 st2 c1 c2 offset p1 p2 tr1 tr2 :
  attempt_shape st st1 c1 offset p1 tr1 →
  attempt_shape st1 st2 c2 offset p2 tr2 →
  attempt_shape st st2 (c1 ++ c2) offset (p1 ++ p2) (tr1 ++ tr2).
Proof.
  intros [T1 S1 C1 P1 O1 F1 L1 I1] [T2 S2 C2 P2 O2 F2 L2 I2]. split.
  - rewrite app_assoc. congruence.
  - rewrite download_slots_app. by apply sublist_app.
  - rewrite connects_app. by apply sublist_app.
  - rewrite sleeps_app. by apply sublist_app.
  - rewrite download_offsets_app. by apply Forall_app.
  - rewrite fetch_calls_app. by rewrite F1, F2.
  - congruence.
  - congruence.
Qed.

Lemma shape_weaken st st' c c' offset p p' tr :
  attempt_shape st st' c offset p tr →
  attempt_shape st st' (c ++ c') offset (p ++ p') tr.
Proof. intros []. split; try done; by apply sublist_inserts_r. Qed.

Lemma rotation_cons pool chunkIndex first n :
  rotation pool chunkIndex first (S n) =
  option_list (getClient pool (chunkIndex + first - 1)) ++
  rotation pool chunkIndex (first + 1) n.
Proof.
  unfold rotation. rewrite seqZ_cons by lia.
  replace (Z.pred (Z.of_nat (S n))) with (Z.of_nat n) by lia.
  cbn [omap list_omap]. by destruct (getClient _ _).
Qed.

Lemma rotation_length pool pool' chunkIndex first n :
  length pool = length pool' →
  rotation pool chunkIndex first n = rotation pool' chunkIndex first n.
Proof.
  intros Hlen. unfold rotation. apply list_omap_ext, Forall2_same_length_lookup.
  split; [done|]. intros i x y Hx Hy. simplify_eq.
  by apply getClient_length.
Qed.

Lemma pauses_cons first n :
  pauses first (S n) =
  (if first <? MAX_RETRIES then [backoff first] else []) ++
  pauses (first + 1) n.
Proof.
  unfold pauses. rewrite seqZ_cons by lia.
  replace (Z.pred (Z.of_nat (S n))) with (Z.of_nat n) by lia.
  rewrite filter_cons.
  destruct (Z.ltb_spec first MAX_RETRIES).
  - by rewrite decide_True.
  - by rewrite decide_False by lia.
Qed.

(** The retry loop from attempt [MAX_RETRIES - remaining + 1] on. *)
Lemma retryLoop_shape remaining w cacheKey loc dcId chunkIndex offset st :
  (remaining <= Z.to_nat MAX_RETRIES)%nat →
  let first := MAX_RETRIES - Z.of_nat remaining + 1 in
  ∃ tr,
    attempt_shape st
      (retryLoop remaining w cacheKey loc dcId chunkIndex offset st).2
      (rotation (clientPool st) chunkIndex first remaining)
      offset (pauses first remaining) tr.
Proof.
  revert st. induction remaining as [|remaining IH]; intros st Hle first.
  { exists []. apply shape_refl. }
  cbn [retryLoop]. subst first.
  replace (MAX_RETRIES - Z.of_nat (S remaining) + 1)
    with (MAX_RETRIES - Z.of_nat remaining) by lia.
  set (attempt := MAX_RETRIES - Z.of_nat remaining).
  assert (1 <= attempt <= MAX_RETRIES) as Hatt.
  { subst attempt. unfold MAX_RETRIES in *. lia. }
  destruct (downloadAttempt_shape w cacheKey loc dcId chunkIndex offset
              attempt st Hatt) as [tr1 H1].
  rewrite rotation_cons, pauses_cons.
  destruct (downloadAttempt w cacheKey loc dcId chunkIndex offset attempt st)
    as [[buf|] st1]; cbn [snd] in *.
  - exists tr1. by apply shape_weaken.
  - destruct (IH st1 ltac:(lia)) as [tr2 H2].
    replace (MAX_RETRIES - Z.of_nat remaining + 1) with (attempt + 1) in H2
      by (subst attempt; lia).
    rewrite (rotation_length (clientPool st1) (clientPool st)) in H2
      by apply H1.
    exists (tr1 ++ tr2). by eapply shape_trans.
Qed.

(** The cache behind one round and behind the loop: a round that returns
    a buffer has stored it, a round that fails leaves the cache alone. *)
Lemma downloadAttempt_cache w cacheKey loc dcId chunkIndex offset attempt st :
  let r := downloadAttempt w cacheKey loc dcId chunkIndex offset attempt st in
  match r.1 with
  | Some buf =>
      0 < Buffer_length buf ∧
      chunkCache r.2 = ChunkCache.set (chunkCache st) cacheKey buf
  | None => chunkCache r.2 = chunkCache st
  end.
Proof.
  unfold downloadAttempt, on_attempt_error.
  destruct (getClient (clientPool st) (chunkIndex + attempt - 1)) as [slot|].
  2: { by destruct (attempt =? MAX_RETRIES). }
  cbn zeta.
  destruct (match clientPool st !! slot with
            | Some c => connected c
            | None => true
            end).
  - destruct (w_iterDownload w (clock st) slot loc dcId offset) as [| |buf];
      [by destruct (attempt =? MAX_RETRIES) | done |].
    destruct (Z.ltb_spec 0 (Buffer_length buf)); done.
  - destruct (w_connect w (clock st) slot).
    + destruct (w_iterDownload w _ slot loc dcId offset) as [| |buf];
        [by destruct (attempt =? MAX_RETRIES) | done |].
      destruct (Z.ltb_spec 0 (Buffer_length buf)); done.
    + destruct (attempt <? MAX_RETRIES); [done|].
      destruct (w_iterDownload w _ slot loc dcId offset) as [| |buf];
        [by destruct (attempt =? MAX_RETRIES) | done |].
      destruct (Z.ltb_spec 0 (Buffer_length buf)); done.
Qed.

Lemma retryLoop_cache remaining w cacheKey loc dcId chunkIndex offset st :
  let r := retryLoop remaining w cacheKey loc dcId chunkIndex offset st in
  match r.1 with
  | Some buf =>
      0 < Buffer_length buf ∧
      chunkCache r.2 = ChunkCache.set (chunkCache st) cacheKey buf
  | None => chunkCache r.2 = chunkCache st
  end.
Proof.
  revert st. induction remaining as [|remaining IH]; intros st; [done|].
  cbn [retryLoop].
  pose proof (downloadAttempt_cache w cacheKey loc dcId chunkIndex offset
                (MAX_RETRIES - Z.of_nat remaining) st) as H1.
  destruct (downloadAttempt w cacheKey loc dcId chunkIndex offset
              (MAX_RETRIES - Z.of_nat remaining) st) as [[buf|] st1];
    cbn [fst snd] in *; [done|].
  specialize (IH st1). cbn zeta in IH. rewrite H1 in IH. exact IH.
Qed.

Lemma retryLoop_inFlight remaining w cacheKey loc dcId chunkIndex offset st :
  (remaining <= Z.to_nat MAX_RETRIES)%nat →
  inFlight (retryLoop remaining w cacheKey loc dcId chunkIndex offset st).2 =
  inFlight st.
Proof.
  intros Hle.
  destruct (retryLoop_shape remaining w cacheKey loc dcId chunkIndex offset
              st Hle) as [tr H].
  apply H.
Qed.
End FetchMore.

(** X6.  Whatever the transport answers, one call of [downloadChunk] asks
    for at most four downloads, on the clients of slots
    [(chunkIndex + t - 1) % pool size] for [t = 1, 2, 3, 4] in this order
    (some may be left out); it reconnects clients of these slots only; its
    pauses are among 200, 400 and 800 ms, in this order; every download asks
    for the offset [chunkIndex * CHUNK_SIZE]; and the pool keeps its size. *)
Theorem downloadChunk_attempts_bounded (w : World) (videoId : string)
    (loc : InputLocation) (chunkIndex fileSize : Z) (dcId : option Z)
    (st : Runtime) :
  let r := downloadChunk w videoId loc chunkIndex fileSize dcId st in
  let slots :=
    omap (λ t, getClient (clientPool st) (chunkIndex + t - 1)) [1; 2; 3; 4] in
  ∃ tr,
    trace r.2 = trace st ++ EvDownloadChunk videoId chunkIndex :: tr ∧
    sublist (download_slots tr) slots ∧
    sublist (connects tr) slots ∧
    sublist (sleeps tr) [200; 400; 800] ∧
    Forall (eq (chunkIndex * CHUNK_SIZE)) (download_offsets tr) ∧
    (length (download_slots tr) <= 4)%nat ∧
    length (clientPool r.2) = length (clientPool st).
Proof.
  intros r slots.
  assert (∃ tr,
            trace r.2 = trace (emit (EvDownloadChunk videoId chunkIndex) st) ++ tr ∧
            sublist (download_slots tr) slots ∧
            sublist (connects tr) slots ∧
            sublist (sleeps tr) [200; 400; 800] ∧
            Forall (eq (chunkIndex * CHUNK_SIZE)) (download_offsets tr) ∧
            length (clientPool r.2) = length (clientPool st))
    as (tr & Htr & Hslots & Hconn & Hsleeps & Hoff & Hpool).
  { subst r. unfold downloadChunk.
    set (st0 := emit (EvDownloadChunk videoId chunkIndex) st).
    destruct (ChunkCache.get (chunkCache st0) (cacheKeyOf videoId chunkIndex))
      as [cached cache'].
    set (st1 := with_cache cache' st0).
    destruct (match cached with
              | Some b => 0 <? Buffer_length b
              | None => false
              end).
    { exists []. split_and!; try done; try apply sublist_nil_l.
      cbn. by rewrite app_nil_r. }
    destruct (inFlight st1 !! cacheKeyOf videoId chunkIndex) as [settled|].
    { exists []. split_and!; try done; try apply sublist_nil_l.
      cbn. by rewrite app_nil_r. }
    unfold _downloadChunkImpl.
    destruct (chunkIndex * CHUNK_SIZE >=? fileSize).
    { exists []. split_and!; try done; try apply sublist_nil_l.
      cbn. by rewrite app_nil_r. }
    destruct (retryLoop_shape (Z.to_nat MAX_RETRIES) w
                (cacheKeyOf videoId chunkIndex) loc dcId chunkIndex
                (chunkIndex * CHUNK_SIZE) st1 ltac:(lia))
      as [tr [T S C P O F L I]].
    destruct (retryLoop _ w _ loc dcId chunkIndex _ st1) as [result st2].
    cbn [snd] in *. exists tr. split_and!; done. }
  exists tr. split_and!; try done.
  - rewrite Htr. cbn. by rewrite <- app_assoc.
  - apply sublist_length in Hslots.
    assert (length slots <= 4)%nat; [|lia].
    subst slots. cbn [omap list_omap].
    repeat destruct (getClient _ _); cbn; lia.
Qed.


(** ** What [downloadChunk] leaves behind *)

Section FetchOutcome.
Implicit Types (st : Runtime) (c : ChunkCache.t) (key k : string)
  (buf b : Buffer).

Lemma set_lookup_key c key buf :
  cache_wf c →
  JsMap.get (ChunkCache.map (ChunkCache.set c key buf)) key = Some buf.
Proof.
  intros Hwf. destruct (set_spec c key buf Hwf) as (_ & _ & [j Hj] & _).
  rewrite Hj, JsMap_get_app.
  assert (key ∉ JsMap.keys (drop j (JsMap.delete (ChunkCache.map c) key)))
    as Hni.
  { rewrite JsMap_keys_drop. intros Hin%subseteq_drop.
    by apply JsMap_delete_not_in in Hin. }
  apply JsMap_get_None in Hni. rewrite Hni. cbn. by rewrite String.eqb_refl.
Qed.

Lemma set_lookup_other c key buf k b :
  cache_wf c → k ≠ key →
  JsMap.get (ChunkCache.map (ChunkCache.set c key buf)) k = Some b →
  JsMap.get (ChunkCache.map c) k = Some b.
Proof.
  intros Hwf Hne Hget.
  by destruct (set_get c key buf k b Hwf Hget) as [[-> _]|[_ H]].
Qed.

Lemma set_wf c key buf : cache_wf c → cache_wf (ChunkCache.set c key buf).
Proof. intros Hwf. by destruct (set_spec c key buf Hwf). Qed.
End FetchOutcome.

(** X7.  What one call of [downloadChunk] leaves behind, whatever the
    transport answers.  The cache stays well formed; bytes that are returned
    are in the cache under the key of the chunk; no other key gets a new
    buffer; the other in-flight entries are untouched; and unless the call
    was answered from the cache, the in-flight registry has no entry for the
    key when the call returns.  An empty buffer is returned only for a chunk
    that starts at or behind the end of the file, or when the download the
    call piggy-backed on produced one. *)
Theorem downloadChunk_outcome (w : World) (videoId : string)
    (loc : InputLocation) (chunkIndex fileSize : Z) (dcId : option Z)
    (st : Runtime) :
  cache_wf (chunkCache st) →
  let key := cacheKeyOf videoId chunkIndex in
  let r := downloadChunk w videoId loc chunkIndex fileSize dcId st in
  cache_wf (chunkCache r.2) ∧
  (∀ b, r.1 = Some b → 0 < Buffer_length b →
        JsMap.get (ChunkCache.map (chunkCache r.2)) key = Some b) ∧
  (∀ k b, k ≠ key →
          JsMap.get (ChunkCache.map (chunkCache r.2)) k = Some b →
          JsMap.get (ChunkCache.map (chunkCache st)) k = Some b) ∧
  (∀ k, k ≠ key → inFlight r.2 !! k = inFlight st !! k) ∧
  (inFlight r.2 !! key = None ∨
   inFlight r.2 = inFlight st ∧
   ∃ b, 0 < Buffer_length b ∧ r.1 = Some b ∧
        JsMap.get (ChunkCache.map (chunkCache st)) key = Some b) ∧
  (∀ b, r.1 = Some b → Buffer_length b = 0 →
        fileSize <= chunkIndex * CHUNK_SIZE ∨
        inFlight st !! key = Some (Some b)).
Proof.
  intros Hwf key r. subst r. unfold downloadChunk. fold key.
  set (st0 := emit (EvDownloadChunk videoId chunkIndex) st).
  change (chunkCache st0) with (chunkCache st).
  pose proof (get_result (chunkCache st) key) as Hres.
  pose proof (λ k, get_get (chunkCache st) key k Hwf) as Hsame.
  pose proof (get_wf (chunkCache st) key Hwf) as Hwf'.
  destruct (ChunkCache.get (chunkCache st) key) as [cached cache'].
  cbn [fst snd] in *.
  set (st1 := with_cache cache' st0).
  destruct (match cached with
            | Some b => 0 <? Buffer_length b
            | None => false
            end) eqn:Hhit.
  { (* answered from the cache *)
    destruct cached as [b0|]; [|done]. apply Z.ltb_lt in Hhit.
    cbn [fst snd]. split_and!.
    - done.
    - intros b [= <-] _. cbn. by rewrite Hsame.
    - intros k b _. cbn. by rewrite Hsame.
    - done.
    - right. split; [done|]. by exists b0.
    - intros b [= <-]. lia. }
  change (inFlight st1) with (inFlight st).
  destruct (inFlight st !! key) as [settled|] eqn:Hfl.
  { (* piggy-back *)
    unfold awaitInFlight. cbn [fst snd].
    set (cache'' := match settled with
                    | Some buf => if 0 <? Buffer_length buf then _ else _
                    | None => _
                    end).
    assert (cache_wf cache'' ∧
            (∀ b, settled = Some b → 0 < Buffer_length b →
                  JsMap.get (ChunkCache.map cache'') key = Some b) ∧
            (∀ k b, k ≠ key → JsMap.get (ChunkCache.map cache'') k = Some b →
                    JsMap.get (ChunkCache.map cache') k = Some b))
      as (Hwf2 & Hkey & Hother).
    { subst cache''. cbn. destruct settled as [buf|]; [|done].
      destruct (Z.ltb_spec 0 (Buffer_length buf)).
      - split_and!.
        + by apply set_wf.
        + intros b [= <-] _. by apply set_lookup_key.
        + intros k b Hne. by apply set_lookup_other.
      - split_and!; [done | | done]. intros b [= <-]. lia. }
    split_and!.
    - done.
    - done.
    - intros k b Hne Hk. rewrite <- Hsame. by apply Hother.
    - intros k Hne. cbn. by rewrite lookup_delete_ne.
    - left. cbn. apply lookup_delete_eq.
    - intros b -> _. by right. }
  (* a download of its own *)
  unfold _downloadChunkImpl.
  destruct (Z.geb_spec (chunkIndex * CHUNK_SIZE) fileSize) as [Hout|Hin].
  { cbn [fst snd]. split_and!.
    - done.
    - intros b [= <-] Hpos. unfold Buffer_length in Hpos. cbn in Hpos. lia.
    - intros k b _. cbn. by rewrite Hsame.
    - intros k Hne. cbn. by rewrite lookup_delete_ne, lookup_insert_ne.
    - left. cbn. apply lookup_delete_eq.
    - intros b _ _. left. lia. }
  pose proof (retryLoop_cache (Z.to_nat MAX_RETRIES) w key loc dcId chunkIndex
                (chunkIndex * CHUNK_SIZE) st1) as Hcache.
  pose proof (retryLoop_inFlight (Z.to_nat MAX_RETRIES) w key loc dcId
                chunkIndex (chunkIndex * CHUNK_SIZE) st1 ltac:(lia)) as Hreg.
  destruct (retryLoop (Z.to_nat MAX_RETRIES) w key loc dcId chunkIndex
              (chunkIndex * CHUNK_SIZE) st1) as [result st2].
  cbn [fst snd] in *. change (chunkCache st1) with cache' in Hcache.
  change (inFlight st1) with (inFlight st) in Hreg.
  split_and!.
  - cbn. destruct result as [buf|]; [|by rewrite Hcache].
    destruct Hcache as [_ ->]. by apply set_wf.
  - intros b -> _. cbn. destruct Hcache as [_ ->]. by apply set_lookup_key.
  - intros k b Hne. cbn. destruct result as [buf|].
    + destruct Hcache as [_ ->]. intros Hk. rewrite <- Hsame.
      by eapply set_lookup_other.
    + rewrite Hcache. by rewrite Hsame.
  - intros k Hne. cbn. by rewrite lookup_delete_ne, lookup_insert_ne, Hreg.
  - left. cbn. apply lookup_delete_eq.
  - intros b -> Hzero. destruct Hcache as [Hpos _]. lia.
Qed.

Lemma downloadChunk_outcome_witness :
  let r := downloadChunk demo_world "v" demo_location 0 8 None demo_state in
  cache_wf (chunkCache r.2) ∧
  JsMap.get (ChunkCache.map (chunkCache r.2)) (cacheKeyOf "v" 0) =
    Some demo_content ∧
  inFlight r.2 !! cacheKeyOf "v" 0 = None.
Proof.
  destruct (downloadChunk_outcome demo_world "v" demo_location 0 8 None
              demo_state) as (Hwf & Hkey & _ & _ & Hreg & _).
  - apply new_wf.
  - split_and!.
    + exact Hwf.
    + apply Hkey; [vm_compute; reflexivity | vm_compute; reflexivity].
    + vm_compute. reflexivity.
Defined.

(** X8.  [downloadChunk] does not touch the transport when the chunk is in
    the cache with at least one byte, when a download of the chunk is in
    flight, or when the chunk starts at or behind the end of the file: the
    call leaves no event but its own, and the pool and the clock are as they
    were.  It returns the cached buffer in the first case, what the
    in-flight download settles to in the second and an empty buffer in the
    third. *)
Theorem downloadChunk_without_transport (w : World) (videoId : string)
    (loc : InputLocation) (chunkIndex fileSize : Z) (dcId : option Z)
    (st : Runtime) (local : option Buffer) :
  let key := cacheKeyOf videoId chunkIndex in
  let cached := JsMap.get (ChunkCache.map (chunkCache st)) key in
  let hit := match cached with
             | Some b => 0 <? Buffer_length b
             | None => false
             end in
  (if hit then local = cached
   else match inFlight st !! key with
        | Some settled => local = settled
        | None => fileSize <= chunkIndex * CHUNK_SIZE ∧ local = Some []
        end) →
  let r := downloadChunk w videoId loc chunkIndex fileSize dcId st in
  r.1 = local ∧
  trace r.2 = trace st ++ [EvDownloadChunk videoId chunkIndex] ∧
  clientPool r.2 = clientPool st ∧
  clock r.2 = clock st.
Proof.
  intros key cached hit Hlocal r. subst r cached hit.
  unfold downloadChunk. fold key.
  set (st0 := emit (EvDownloadChunk videoId chunkIndex) st).
  change (chunkCache st0) with (chunkCache st).
  pose proof (get_result (chunkCache st) key) as Hres.
  destruct (ChunkCache.get (chunkCache st) key) as [cached cache'].
  cbn [fst snd] in *. subst cached.
  destruct (match JsMap.get (ChunkCache.map (chunkCache st)) key with
            | Some b => 0 <? Buffer_length b
            | None => false
            end).
  { by subst local. }
  change (inFlight (with_cache cache' st0)) with (inFlight st).
  destruct (inFlight st !! key) as [settled|].
  { by subst local. }
  destruct Hlocal as [Hout ->]. unfold _downloadChunkImpl.
  destruct (Z.geb_spec (chunkIndex * CHUNK_SIZE) fileSize); [done | lia].
Qed.

Lemma downloadChunk_without_transport_witness :
  let r := downloadChunk demo_world "v" demo_location 1 8 None demo_state in
  r.1 = Some [] ∧ trace r.2 = [EvDownloadChunk "v" 1].
Proof.
  destruct (downloadChunk_without_transport demo_world "v" demo_location 1 8
              None demo_state (Some [])) as (Hres & Htr & _).
  - vm_compute. split; [discriminate | reflexivity].
  - split; [exact Hres | exact Htr].
Defined.

(** ** The parallel fetcher and the pre-buffer *)

Section ParallelResults.
Context (w : World) (videoId : string) (loc : InputLocation)
  (fileSize : Z) (dcId : option Z).
Implicit Types (st : Runtime) (results : gmap Z (option Buffer)).

Lemma fetchQueued_result results st idx :
  ∃ v, (fetchQueued w videoId loc fileSize dcId (results, st) idx).1 =
       <[idx := v]> results ∧ result_ok v.
Proof.
  unfold fetchQueued.
  destruct (ChunkCache.get (chunkCache st) (cacheKeyOf videoId idx))
    as [c cache'].
  destruct c as [b|].
  - destruct (Z.ltb_spec 0 (Buffer_length b)).
    + by exists (Some b).
    + destruct (downloadChunk _ _ _ _ _ _ _) as [[b'|] st']; cbn [fst].
      * destruct (Z.ltb_spec 0 (Buffer_length b')); eexists; by split.
      * eexists; by split.
  - destruct (downloadChunk _ _ _ _ _ _ _) as [[b'|] st']; cbn [fst].
    + destruct (Z.ltb_spec 0 (Buffer_length b')); eexists; by split.
    + eexists; by split.
Qed.

Lemma fetchQueued_fold_results indices results st :
  let r := fold_left (fetchQueued w videoId loc fileSize dcId) indices
             (results, st) in
  (∀ i, is_Some (r.1 !! i) ↔ is_Some (results !! i) ∨ i ∈ indices) ∧
  (map_Forall (λ _, result_ok) results → map_Forall (λ _, result_ok) r.1).
Proof.
  revert results st. induction indices as [|idx indices IH];
    intros results st; cbn [fold_left].
  { split; [|done]. intros i. rewrite elem_of_nil. tauto. }
  destruct (fetchQueued_result results st idx) as (v & Hv & Hok).
  destruct (fetchQueued w videoId loc fileSize dcId (results, st) idx)
    as [results1 st1]. cbn [fst] in Hv. subst results1.
  destruct (IH (<[idx := v]> results) st1) as [IH1 IH2]. split.
  - intros i. rewrite IH1, elem_of_cons.
    destruct (decide (i = idx)) as [->|Hne].
    + rewrite lookup_insert_eq. split; [intros _; right; by left|].
      intros _. left. by eexists.
    + rewrite lookup_insert_ne by done. split.
      * intros [H|H]; [by left | right; by right].
      * intros [H|[H|H]]; [by left | done | by right].
  - intros Hall. apply IH2. by apply map_Forall_insert_2.
Qed.
End ParallelResults.

Section PrefetchIndices.

Lemma ceil_div_gt a i :
  i < ceil_div a CHUNK_SIZE ↔ i * CHUNK_SIZE < a.
Proof.
  unfold ceil_div, CHUNK_SIZE.
  pose proof (Z.div_mod (- a) (1024 * 1024) ltac:(lia)) as Hdm.
  pose proof (Z.mod_pos_bound (- a) (1024 * 1024) ltac:(lia)) as Hb.
  lia.
Qed.

Lemma elem_of_prefetchIndices fileSize i :
  i ∈ prefetchIndices fileSize ↔
  0 <= i < ceil_div fileSize CHUNK_SIZE ∧
  (i < PREFETCH_CHUNKS ∨ ceil_div fileSize CHUNK_SIZE - TAIL_CHUNKS <= i).
Proof.
  unfold prefetchIndices. rewrite elem_of_app, !elem_of_seqZ.
  unfold PREFETCH_CHUNKS, TAIL_CHUNKS. lia.
Qed.

Lemma NoDup_prefetchIndices fileSize : NoDup (prefetchIndices fileSize).
Proof.
  unfold prefetchIndices. apply NoDup_app. split_and!.
  - apply NoDup_seqZ.
  - intros i. rewrite !elem_of_seqZ. lia.
  - apply NoDup_seqZ.
Qed.

Lemma length_prefetchIndices fileSize :
  Z.of_nat (length (prefetchIndices fileSize)) <= PREFETCH_CHUNKS + TAIL_CHUNKS.
Proof.
  unfold prefetchIndices. rewrite length_app, !length_seqZ.
  unfold PREFETCH_CHUNKS, TAIL_CHUNKS. lia.
Qed.
End PrefetchIndices.

Section Fill.
Context (w : World) (videoId : string) (content : Buffer).
Context (Hserves : serves w content).
Implicit Types (st : Runtime) (c : ChunkCache.t) (i : Z).

Lemma evict_fits fuel c len :
  ChunkCache.usedBytes c + len <= ChunkCache.maxBytes c →
  ChunkCache.evict fuel c len = c.
Proof.
  intros Hfit. destruct fuel; [done|]. cbn [ChunkCache.evict].
  by destruct (Z.gtb_spec (ChunkCache.usedBytes c + len) (ChunkCache.maxBytes c));
    [lia|].
Qed.

(** An insert that fits under a new key appends and evicts nothing. *)
Lemma set_fits c key buf :
  ChunkCache.has c key = false →
  ChunkCache.usedBytes c + Buffer_length buf <= ChunkCache.maxBytes c →
  ChunkCache.map (ChunkCache.set c key buf) = ChunkCache.map c ++ [(key, buf)] ∧
  ChunkCache.usedBytes (ChunkCache.set c key buf) =
    ChunkCache.usedBytes c + Buffer_length buf ∧
  ChunkCache.maxBytes (ChunkCache.set c key buf) = ChunkCache.maxBytes c.
Proof.
  intros Hhas Hfit. unfold ChunkCache.set. unfold ChunkCache.has in Hhas.
  rewrite Hhas, evict_fits by done. cbn. split; [|done].
  apply JsMap_set_absent. by apply JsMap_has_false.
Qed.

Lemma chunk_of_le i :
  0 <= i → i * CHUNK_SIZE < Buffer_length content →
  Buffer_length (chunk_of content i) <= CHUNK_SIZE.
Proof. intros Hi Hlt. rewrite chunk_of_length by done. lia. Qed.

Lemma downloadChunk_fresh loc dcId i st :
  healthy videoId content st → 0 <= i →
  i * CHUNK_SIZE < Buffer_length content →
  inFlight st !! cacheKeyOf videoId i = None →
  ChunkCache.has (chunkCache st) (cacheKeyOf videoId i) = false →
  let r := downloadChunk w videoId loc i (Buffer_length content) dcId st in
  r.1 = Some (chunk_of content i) ∧
  chunkCache r.2 =
    ChunkCache.set (chunkCache st) (cacheKeyOf videoId i) (chunk_of content i) ∧
  (∀ k, inFlight r.2 !! k =
        if decide (k = cacheKeyOf videoId i) then None else inFlight st !! k).
Proof.
  intros Hh Hi Hlt Hfl Hhas. unfold downloadChunk.
  set (st0 := emit (EvDownloadChunk videoId i) st).
  change (chunkCache st0) with (chunkCache st).
  rewrite (get_miss_of_has _ _ Hhas). cbn iota.
  change (inFlight (with_cache (chunkCache st) st0)) with (inFlight st).
  rewrite Hfl. unfold _downloadChunkImpl.
  destruct (Z.geb_spec (i * CHUNK_SIZE) (Buffer_length content)); [lia|].
  change (Z.to_nat MAX_RETRIES) with 4%nat. cbn [retryLoop].
  assert (healthy videoId content (with_cache (chunkCache st) st0)) as Hh1.
  { destruct Hh. by split. }
  destruct (downloadAttempt_ok w videoId content Hserves loc dcId i
              (MAX_RETRIES - Z.of_nat 3) (with_cache (chunkCache st) st0))
    as (slot & _ & ->); [done | done | done | unfold MAX_RETRIES; lia |].
  cbn [fst snd]. split_and!; [done | done |].
  intros k. cbn. destruct (decide (k = cacheKeyOf videoId i)) as [->|Hne].
  - apply lookup_delete_eq.
  - by rewrite lookup_delete_ne, lookup_insert_ne.
Qed.

Lemma fill_step loc dcId results st0 st n idx :
  filled videoId content st0 st n →
  0 <= idx → idx * CHUNK_SIZE < Buffer_length content →
  ChunkCache.usedBytes (chunkCache st0) + (n + 1) * CHUNK_SIZE
    <= ChunkCache.maxBytes (chunkCache st0) →
  let st' := (fetchQueued w videoId loc (Buffer_length content) dcId
                (results, st) idx).2 in
  filled videoId content st0 st' (n + 1) ∧
  JsMap.get (ChunkCache.map (chunkCache st')) (cacheKeyOf videoId idx) =
    Some (chunk_of content idx).
Proof.
  intros (Hh & Hkeep & Hused & Hmax & Hfl) Hi Hlt Hbudget.
  unfold fetchQueued. set (key := cacheKeyOf videoId idx).
  pose proof (h_wf _ _ _ Hh) as Hwf.
  destruct (ChunkCache.has (chunkCache st) key) eqn:Hhas.
  - (* cached: promoted *)
    pose proof (get_result (chunkCache st) key) as Hres.
    pose proof (λ k, get_get (chunkCache st) key k Hwf) as Hsame.
    pose proof (get_bounds (chunkCache st) key Hwf) as [Hmax' Hused'].
    pose proof (healthy_get videoId content st key Hh) as Hh1.
    unfold ChunkCache.has, JsMap.has in Hhas.
    destruct (JsMap.get (ChunkCache.map (chunkCache st)) key) as [b|] eqn:Hb;
      [|done].
    assert (b = chunk_of content idx) as -> by (by eapply (h_cache _ _ _ Hh)).
    destruct (ChunkCache.get (chunkCache st) key) as [c cache'].
    cbn [fst snd] in *. subst c.
    rewrite chunk_of_nonempty by done. cbn [snd].
    split; [split_and!|].
    + done.
    + intros k b Hk. cbn. rewrite Hsame. by apply Hkeep.
    + cbn. unfold CHUNK_SIZE in *. lia.
    + cbn. congruence.
    + done.
    + cbn. by rewrite Hsame.
  - (* not cached: downloaded and stored *)
    rewrite (get_miss_of_has _ _ Hhas). cbn iota.
    assert (with_cache (chunkCache st) st = st) as -> by (by destruct st).
    destruct (downloadChunk_fresh loc dcId idx st Hh Hi Hlt (Hfl idx) Hhas)
      as (Hres & Hcache & Hreg).
    destruct (downloadChunk_ok w videoId content Hserves loc dcId idx
                (Buffer_length content) st Hh eq_refl Hi) as [Hh' _].
    destruct (downloadChunk w videoId loc idx (Buffer_length content) dcId st)
      as [buf st']. cbn [fst snd] in *. subst buf.
    pose proof (chunk_of_le idx Hi Hlt) as Hle.
    destruct (set_fits (chunkCache st) key (chunk_of content idx) Hhas
                ltac:(fold key in Hcache; lia)) as (Hmap & Hu & Hm).
    fold key in Hcache. rewrite <- Hcache in Hmap, Hu, Hm.
    split; [split_and!|].
    + done.
    + intros k b Hk. rewrite Hmap, JsMap_get_app. by rewrite (Hkeep k b Hk).
    + unfold CHUNK_SIZE in *. lia.
    + congruence.
    + intros j. rewrite Hreg. by destruct (decide _).
    + rewrite Hmap, JsMap_get_app.
      unfold ChunkCache.has, JsMap.has in Hhas.
      destruct (JsMap.get (ChunkCache.map (chunkCache st)) key); [done|].
      cbn. by rewrite String.eqb_refl.
Qed.

Lemma filled_refl st :
  healthy videoId content st →
  (∀ j, inFlight st !! cacheKeyOf videoId j = None) →
  filled videoId content st st 0.
Proof. intros Hh Hfl. split_and!; [done | done | lia | done | done]. Qed.

(** A run of fetches within the budget: every chunk asked for is in the
    cache at the end, and nothing was evicted on the way. *)
Lemma fill_all loc dcId indices :
  Forall (λ i, 0 <= i ∧ i * CHUNK_SIZE < Buffer_length content) indices →
  ∀ results st,
    healthy videoId content st →
    (∀ j, inFlight st !! cacheKeyOf videoId j = None) →
    ChunkCache.usedBytes (chunkCache st) +
      Z.of_nat (length indices) * CHUNK_SIZE
      <= ChunkCache.maxBytes (chunkCache st) →
    let st' := (fold_left
                  (fetchQueued w videoId loc (Buffer_length content) dcId)
                  indices (results, st)).2 in
    filled videoId content st st' (Z.of_nat (length indices)) ∧
    ∀ i, i ∈ indices →
         JsMap.get (ChunkCache.map (chunkCache st')) (cacheKeyOf videoId i) =
           Some (chunk_of content i).
Proof.
  induction 1 as [|idx indices [Hi Hlt] Hall IH];
    intros results st Hh Hfl Hbudget; cbn [fold_left].
  { split; [by apply filled_refl|]. intros i Hin.
    by apply not_elem_of_nil in Hin. }
  cbn [length] in *.
  destruct (fill_step loc dcId results st st 0 idx (filled_refl st Hh Hfl)
              Hi Hlt ltac:(unfold CHUNK_SIZE in *; lia))
    as [(Hh1 & Hkeep1 & Hu1 & Hm1 & Hfl1) Hget1].
  destruct (fetchQueued w videoId loc (Buffer_length content) dcId
              (results, st) idx) as [results1 st1]. cbn [snd] in *.
  destruct (IH results1 st1 Hh1 Hfl1
              ltac:(unfold CHUNK_SIZE in *; lia))
    as [(Hh2 & Hkeep2 & Hu2 & Hm2 & Hfl2) Hget2].
  split; [split_and!|].
  - done.
  - intros k b Hk. by apply Hkeep2, Hkeep1.
  - unfold CHUNK_SIZE in *. lia.
  - congruence.
  - done.
  - intros i [->|Hin]%elem_of_cons; [by apply Hkeep2 | by apply Hget2].
Qed.
End Fill.

(** X9.  [downloadChunksParallel] returns a map with one result for each
    index it was given and for no other index (an index given twice has one
    entry); a result is [null] or a buffer with at least one byte, never an
    empty buffer; and for an empty list of indices it does nothing at all.
    Nothing is said about the order of the entries, which is the order in
    which the downloads complete. *)
Theorem downloadChunksParallel_results (w : World) (videoId : string)
    (loc : InputLocation) (indices : list Z) (fileSize : Z) (dcId : option Z)
    (st : Runtime) :
  let r := downloadChunksParallel w videoId loc indices fileSize dcId st in
  (∀ i, is_Some (r.1 !! i) ↔ i ∈ indices) ∧
  (∀ i v, r.1 !! i = Some v → result_ok v) ∧
  (indices = [] → r = (∅, st)).
Proof.
  intros r. subst r. unfold downloadChunksParallel.
  destruct indices as [|idx indices].
  { change (Z.min PARALLEL_WORKERS (Z.of_nat (length (@nil Z))) <=? 0)
      with true. cbn [fst fold_left].
    split_and!; [|done|done]. intros i. rewrite lookup_empty, elem_of_nil.
    split; [by intros [? ?] | done]. }
  destruct (Z.leb_spec (Z.min PARALLEL_WORKERS
                          (Z.of_nat (length (idx :: indices)))) 0) as [Hle|_].
  { cbn [length] in Hle. unfold PARALLEL_WORKERS, CLIENT_POOL_SIZE,
      WORKERS_PER_CONN in Hle. lia. }
  destruct (fetchQueued_fold_results w videoId loc fileSize dcId
              (idx :: indices) ∅ st) as [H1 H2].
  split_and!; [|by apply H2, map_Forall_empty | done].
  intros i. rewrite H1, lookup_empty. split; [|by right].
  intros [[? ?]|H]; done.
Qed.

(** X10.  The chunks the pre-buffer asks for: an index is among them
    exactly when it is a chunk of the file and is one of the first
    [PREFETCH_CHUNKS] or of the last [TAIL_CHUNKS]; no index is asked for
    twice, and there are at most 53 of them. *)
Theorem prefetchIndices_spec (fileSize : Z) :
  let totalChunks := ceil_div fileSize CHUNK_SIZE in
  (∀ i, i ∈ prefetchIndices fileSize ↔
        0 <= i < totalChunks ∧
        (i < PREFETCH_CHUNKS ∨ totalChunks - TAIL_CHUNKS <= i)) ∧
  (∀ i, i ∈ prefetchIndices fileSize → i * CHUNK_SIZE < fileSize) ∧
  NoDup (prefetchIndices fileSize) ∧
  (length (prefetchIndices fileSize) <= 53)%nat.
Proof.
  intros totalChunks. split_and!.
  - apply elem_of_prefetchIndices.
  - intros i [[_ Hlt] _]%elem_of_prefetchIndices. by apply ceil_div_gt.
  - apply NoDup_prefetchIndices.
  - pose proof (length_prefetchIndices fileSize) as Hlen.
    unfold PREFETCH_CHUNKS, TAIL_CHUNKS in Hlen. lia.
Qed.

(** X11.  The pre-buffer fills the cache.  When the transport serves the
    stream, the pool is connected, no download of the stream is in flight and
    the cache has room for 53 chunks, then after [prefetchInitialChunks]
    every chunk of the pre-buffer is in the cache with its bytes, every entry
    the cache had is still there, and the runtime is as fit as before. *)
Theorem prefetch_fills_cache (w : World) (videoId : string) (content : Buffer)
    (loc : InputLocation) (dcId : option Z) (st : Runtime) :
  healthy videoId content st →
  serves w content →
  (∀ j, inFlight st !! cacheKeyOf videoId j = None) →
  ChunkCache.usedBytes (chunkCache st) +
    (PREFETCH_CHUNKS + TAIL_CHUNKS) * CHUNK_SIZE
    <= ChunkCache.maxBytes (chunkCache st) →
  let st' := prefetchInitialChunks w videoId loc (Buffer_length content) dcId st in
  (∀ i, i ∈ prefetchIndices (Buffer_length content) →
        JsMap.get (ChunkCache.map (chunkCache st')) (cacheKeyOf videoId i) =
          Some (chunk_of content i)) ∧
  (∀ k b, JsMap.get (ChunkCache.map (chunkCache st)) k = Some b →
          JsMap.get (ChunkCache.map (chunkCache st')) k = Some b) ∧
  healthy videoId content st'.
Proof.
  intros Hh Hserves Hfl Hbudget st'. subst st'.
  unfold prefetchInitialChunks, downloadChunksParallel.
  destruct (_ <=? 0) eqn:Hempty.
  { assert (prefetchIndices (Buffer_length content) = []) as ->.
    { apply Z.leb_le in Hempty.
      destruct (prefetchIndices (Buffer_length content)); [done|].
      cbn [length] in Hempty. unfold PARALLEL_WORKERS, CLIENT_POOL_SIZE,
        WORKERS_PER_CONN in Hempty. lia. }
    split_and!; [|done|done]. intros i Hin. by apply not_elem_of_nil in Hin. }
  pose proof (length_prefetchIndices (Buffer_length content)) as Hlen.
  destruct (fill_all w videoId content Hserves loc dcId
              (prefetchIndices (Buffer_length content))) with (results := (∅ : gmap Z (option Buffer))) (st := st)
    as [(Hh' & Hkeep & _) Hget].
  - apply Forall_forall. intros i Hin.
    apply elem_of_prefetchIndices in Hin as [[Hi Hlt] _].
    split; [done | by apply ceil_div_gt].
  - done.
  - done.
  - unfold CHUNK_SIZE, PREFETCH_CHUNKS, TAIL_CHUNKS in *. lia.
  - done.
Qed.

Lemma prefetch_fills_cache_witness :
  let st' := prefetchInitialChunks demo_world "v" demo_location
               (Buffer_length demo_content) None demo_state in
  JsMap.get (ChunkCache.map (chunkCache st')) (cacheKeyOf "v" 0) =
    Some (chunk_of demo_content 0).
Proof.
  destruct (prefetch_fills_cache demo_world "v" demo_content demo_location
              None demo_state) as (Hget & _).
  - exact demo_healthy.
  - exact demo_serves.
  - intros j. reflexivity.
  - vm_compute. discriminate.
  - apply Hget. vm_compute. by left.
Defined.

(** ** The background downloader hands out chunks *)

Section NextChunk.
Context (cache : ChunkCache.t) (registry : gmap string (option Buffer)).
Implicit Types (d : StreamDownloader.t) (idx j : Z).

Lemma with_cursor_same d : with_cursor d (StreamDownloader._cursor d) = d.
Proof. by destruct d. Qed.

Lemma free_chunk_test d idx :
  negb (ChunkCache.has cache (cacheKeyOf (StreamDownloader.videoId d) idx))
  && negb (bool_decide (is_Some (registry !! cacheKeyOf (StreamDownloader.videoId d) idx)))
  = true ↔ free_chunk cache registry (StreamDownloader.videoId d) idx.
Proof.
  unfold free_chunk. rewrite andb_true_iff, !negb_true_iff.
  rewrite bool_decide_eq_false, <- eq_None_not_Some. done.
Qed.

(** The scan from the cursor on. *)
Lemma scanNextChunk_spec fuel limit scanned d :
  let r := scanNextChunk fuel cache registry limit scanned d in
  let free := free_chunk cache registry (StreamDownloader.videoId d) in
  let cursor := StreamDownloader._cursor d in
  let cursor' := StreamDownloader._cursor r.2 in
  r.2 = with_cursor d cursor' ∧
  match r.1 with
  | Some idx =>
      cursor' = idx + 1 ∧
      cursor <= idx < StreamDownloader.totalChunks d ∧
      idx <= limit ∧
      scanned + (idx - cursor) < LOOKAHEAD_CHUNKS ∧
      free idx ∧
      ∀ j, cursor <= j < idx → ¬ free j
  | None =>
      cursor <= cursor' ∧
      (∀ j, cursor <= j < cursor' → ¬ free j) ∧
      (LOOKAHEAD_CHUNKS - scanned <= Z.of_nat fuel →
       StreamDownloader.totalChunks d <= cursor' ∨ limit < cursor' ∨
       LOOKAHEAD_CHUNKS <= scanned + (cursor' - cursor))
  end.
Proof.
  revert scanned d. induction fuel as [|fuel IH]; intros scanned d;
    cbn [scanNextChunk].
  { cbn [fst snd]. split; [by rewrite with_cursor_same|].
    split_and!; [lia | intros; lia | intros; lia]. }
  destruct (Z.ltb_spec (StreamDownloader._cursor d)
              (StreamDownloader.totalChunks d)) as [Hlt|Hge]; cbn [andb].
  2: { cbn [fst snd]. split; [by rewrite with_cursor_same|].
       split_and!; [lia | intros; lia | intros; lia]. }
  destruct (Z.leb_spec (StreamDownloader._cursor d) limit) as [Hle|Hgt];
    cbn [andb].
  2: { cbn [fst snd]. split; [by rewrite with_cursor_same|].
       split_and!; [lia | intros; lia | intros; lia]. }
  destruct (Z.ltb_spec scanned LOOKAHEAD_CHUNKS) as [Hsc|Hsc].
  2: { cbn [fst snd]. split; [by rewrite with_cursor_same|].
       split_and!; [lia | intros; lia | intros; lia]. }
  cbn zeta. fold (with_cursor d (StreamDownloader._cursor d + 1)).
  change (StreamDownloader.videoId
            (with_cursor d (StreamDownloader._cursor d + 1)))
    with (StreamDownloader.videoId d).
  destruct (negb _ && negb _) eqn:Hfree.
  - apply free_chunk_test in Hfree. cbn [fst snd].
    split; [done|]. split_and!; try done; try lia.
  - assert (¬ free_chunk cache registry (StreamDownloader.videoId d)
                (StreamDownloader._cursor d)) as Hnot.
    { intros Hf%free_chunk_test. congruence. }
    specialize (IH (scanned + 1)
                  (with_cursor d (StreamDownloader._cursor d + 1))).
    cbn zeta in IH.
    destruct (scanNextChunk fuel cache registry limit (scanned + 1)
                (with_cursor d (StreamDownloader._cursor d + 1)))
      as [[idx|] d'].
    + cbn [fst snd] in *.
      destruct IH as (Hd' & Hc & Hidx & Hlim & Hsc' & Hf & Hbefore).
      cbn [with_cursor StreamDownloader._cursor StreamDownloader.totalChunks
           StreamDownloader.videoId] in Hc, Hidx, Hsc', Hf, Hbefore.
      split; [exact Hd'|]. split_and!; try done; try lia.
      intros j Hj.
      destruct (decide (j = StreamDownloader._cursor d)) as [->|Hne]; [done|].
      apply Hbefore. lia.
    + cbn [fst snd] in *. destruct IH as (Hd' & Hc & Hbefore & Hend).
      cbn [with_cursor StreamDownloader._cursor StreamDownloader.totalChunks
           StreamDownloader.videoId] in Hc, Hbefore, Hend.
      split; [exact Hd'|]. split_and!.
      * lia.
      * intros j Hj.
        destruct (decide (j = StreamDownloader._cursor d)) as [->|Hne]; [done|].
        apply Hbefore. lia.
      * intros Hfuel. destruct Hend as [H|[H|H]]; [lia | tauto | tauto | lia].
Qed.
End NextChunk.

(** X12.  [_getNextChunk] changes nothing of the downloader but its
    cursor.  The index it hands out is the first one at or after the cursor
    that is neither cached nor in flight; it is a chunk of the file, at most
    [LOOKAHEAD_CHUNKS] ahead of the playback position and less than that
    ahead of the cursor, and the cursor is left just behind it.  It hands
    out nothing only when every index between the old and the new cursor is
    cached or in flight and the new cursor is at the end of the file, beyond
    the look-ahead window or [LOOKAHEAD_CHUNKS] further on. *)
Theorem getNextChunk_spec (cache : ChunkCache.t)
    (registry : gmap string (option Buffer)) (d : StreamDownloader.t) :
  let r := _getNextChunk cache registry d in
  let free := free_chunk cache registry (StreamDownloader.videoId d) in
  let cursor := StreamDownloader._cursor d in
  let cursor' := StreamDownloader._cursor r.2 in
  let limit := StreamDownloader.playbackChunk d + LOOKAHEAD_CHUNKS in
  r.2 = with_cursor d cursor' ∧
  match r.1 with
  | Some idx =>
      cursor' = idx + 1 ∧
      cursor <= idx < StreamDownloader.totalChunks d ∧
      idx <= limit ∧ idx < cursor + LOOKAHEAD_CHUNKS ∧
      free idx ∧
      ∀ j, cursor <= j < idx → ¬ free j
  | None =>
      cursor <= cursor' ∧
      (∀ j, cursor <= j < cursor' → ¬ free j) ∧
      (StreamDownloader.totalChunks d <= cursor' ∨ limit < cursor' ∨
       cursor + LOOKAHEAD_CHUNKS <= cursor')
  end.
Proof.
  intros r free cursor cursor' limit. subst r cursor'.
  unfold _getNextChunk. fold limit.
  pose proof (scanNextChunk_spec cache registry (Z.to_nat LOOKAHEAD_CHUNKS)
                limit 0 d) as Hspec.
  cbn zeta in Hspec.
  destruct (scanNextChunk (Z.to_nat LOOKAHEAD_CHUNKS) cache registry limit 0 d)
    as [[idx|] d']; cbn [fst snd] in *.
  - destruct Hspec as (Hd' & Hc & Hidx & Hlim & Hsc & Hf & Hbefore).
    split; [done|]. split_and!; try done; lia.
  - destruct Hspec as (Hd' & Hc & Hbefore & Hend).
    split; [done|]. split_and!; try done.
    destruct Hend as [H|[H|H]]; [lia | by left | by right; left |].
    right; right. lia.
Qed.

Section Reposition.
Context (cache : ChunkCache.t) (registry : gmap string (option Buffer)).
Implicit Types (d : StreamDownloader.t) (idx j : Z).

(** With the cursor on a free chunk of the file inside the window, the
    scan hands out the first free index of the window. *)
Lemma getNextChunk_first_free d idx :
  let free := free_chunk cache registry (StreamDownloader.videoId d) in
  let cursor := StreamDownloader._cursor d in
  cursor <= idx < StreamDownloader.totalChunks d →
  idx <= StreamDownloader.playbackChunk d + LOOKAHEAD_CHUNKS →
  idx < cursor + LOOKAHEAD_CHUNKS →
  free idx → (∀ j, cursor <= j < idx → ¬ free j) →
  (_getNextChunk cache registry d).1 = Some idx.
Proof.
  intros free cursor Hidx Hlim Hwin Hfree Hleast. unfold _getNextChunk.
  pose proof (scanNextChunk_spec cache registry (Z.to_nat LOOKAHEAD_CHUNKS)
                (StreamDownloader.playbackChunk d + LOOKAHEAD_CHUNKS) 0 d)
    as Hspec.
  cbn zeta in Hspec. fold free cursor in Hspec.
  destruct (scanNextChunk _ cache registry _ 0 d) as [[idx'|] d'];
    cbn [fst snd] in *.
  - destruct Hspec as (_ & _ & Hidx' & _ & _ & Hf' & Hbefore').
    f_equal. destruct (Z.lt_trichotomy idx' idx) as [Hlt|[->|Hgt]]; [|done|].
    + destruct (Hleast idx'); [lia | done].
    + destruct (Hbefore' idx); [lia | done].
  - destruct Hspec as (_ & Hc & Hbefore & Hend).
    destruct (Hbefore idx); [|done].
    destruct Hend as [H|[H|H]]; lia.
Qed.
End Reposition.

(** X13.  After [seekTo(i)] the next chunk the downloader hands out is the
    first index at or after [i] that is neither cached nor in flight,
    provided there is one among the chunks of the file less than
    [LOOKAHEAD_CHUNKS] after [i]. *)
Theorem seekTo_then_next (cache : ChunkCache.t)
    (registry : gmap string (option Buffer)) (d : StreamDownloader.t)
    (i idx : Z) :
  let free := free_chunk cache registry (StreamDownloader.videoId d) in
  i <= idx < StreamDownloader.totalChunks d →
  idx < i + LOOKAHEAD_CHUNKS →
  free idx → (∀ j, i <= j < idx → ¬ free j) →
  (_getNextChunk cache registry (StreamDownloader.seekTo d i)).1 = Some idx.
Proof.
  intros free Hidx Hwin Hfree Hleast.
  apply getNextChunk_first_free; cbn; try done; lia.
Qed.

Lemma seekTo_then_next_witness :
  (_getNextChunk (ChunkCache.new CACHE_MAX_BYTES) ∅
     (StreamDownloader.seekTo demo_downloader 0)).1 = Some 0.
Proof.
  apply (seekTo_then_next (ChunkCache.new CACHE_MAX_BYTES) ∅ demo_downloader 0 0).
  - vm_compute. split; [discriminate | reflexivity].
  - reflexivity.
  - split; reflexivity.
  - intros j Hj. lia.
Defined.

(** X14.  [notifyPlayback(i)] for a chunk [i] of the file records the
    playback position and leaves the cursor on a chunk of the file that is
    at most [LOOKAHEAD_CHUNKS] ahead of [i]; it moves the cursor (to [i]) and
    starts a new seek generation exactly when the cursor was at the end of
    the file or further ahead than that.  Hence the downloader is not left
    idle: when the chunk under the cursor is neither cached nor in flight, it
    is the next one handed out. *)
Theorem notifyPlayback_keeps_window (cache : ChunkCache.t)
    (registry : gmap string (option Buffer)) (d : StreamDownloader.t) (i : Z) :
  0 <= i < StreamDownloader.totalChunks d →
  let d' := StreamDownloader.notifyPlayback d i in
  let cursor := StreamDownloader._cursor d in
  let cursor' := StreamDownloader._cursor d' in
  let moved := StreamDownloader.totalChunks d <= cursor ∨
               i + LOOKAHEAD_CHUNKS < cursor in
  StreamDownloader.playbackChunk d' = i ∧
  cursor' < StreamDownloader.totalChunks d ∧
  cursor' <= i + LOOKAHEAD_CHUNKS ∧
  (moved → cursor' = i ∧
           StreamDownloader._seekGeneration d' =
           StreamDownloader._seekGeneration d + 1) ∧
  (¬ moved → cursor' = cursor ∧
             StreamDownloader._seekGeneration d' =
             StreamDownloader._seekGeneration d) ∧
  (free_chunk cache registry (StreamDownloader.videoId d) cursor' →
   (_getNextChunk cache registry d').1 = Some cursor').
Proof.
  intros Hi d' cursor cursor' moved.
  assert (StreamDownloader.playbackChunk d' = i) as Hplay by done.
  assert (if decide moved
          then cursor' = i ∧
               StreamDownloader._seekGeneration d' =
               StreamDownloader._seekGeneration d + 1
          else cursor' = cursor ∧
               StreamDownloader._seekGeneration d' =
               StreamDownloader._seekGeneration d) as Hcase.
  { subst d' cursor' moved cursor. unfold StreamDownloader.notifyPlayback.
    cbn [StreamDownloader._cursor StreamDownloader._seekGeneration].
    destruct (Z.geb_spec (StreamDownloader._cursor d)
                (StreamDownloader.totalChunks d));
      destruct (Z.gtb_spec (StreamDownloader._cursor d) (i + LOOKAHEAD_CHUNKS));
      cbn [orb].
    - by rewrite decide_True by lia.
    - by rewrite decide_True by lia.
    - by rewrite decide_True by lia.
    - by rewrite decide_False by lia. }
  assert (cursor' < StreamDownloader.totalChunks d ∧
          cursor' <= i + LOOKAHEAD_CHUNKS) as [Hlt Hle].
  { destruct (decide moved) as [Hm|Hm]; destruct Hcase as [-> _];
      unfold LOOKAHEAD_CHUNKS in *; subst moved cursor; lia. }
  split_and!; try done.
  - intros Hm. by rewrite decide_True in Hcase.
  - intros Hm. by rewrite decide_False in Hcase.
  - intros Hfree.
    apply getNextChunk_first_free; fold cursor'.
    + change (StreamDownloader.totalChunks d')
        with (StreamDownloader.totalChunks d). lia.
    + rewrite Hplay. lia.
    + unfold LOOKAHEAD_CHUNKS. lia.
    + done.
    + intros j Hj. lia.
Qed.

Lemma notifyPlayback_keeps_window_witness :
  StreamDownloader._cursor (StreamDownloader.notifyPlayback demo_downloader 0)
    = 0 ∧
  (_getNextChunk (ChunkCache.new CACHE_MAX_BYTES) ∅
     (StreamDownloader.notifyPlayback demo_downloader 0)).1 = Some 0.
Proof.
  destruct (notifyPlayback_keeps_window (ChunkCache.new CACHE_MAX_BYTES) ∅
              demo_downloader 0) as (_ & _ & _ & Hmoved & _ & Hnext).
  - vm_compute. split; [discriminate | reflexivity].
  - assert (StreamDownloader._cursor
              (StreamDownloader.notifyPlayback demo_downloader 0) = 0) as Hc.
    { apply Hmoved. left. vm_compute. discriminate. }
    split; [exact Hc|].
    transitivity (Some (StreamDownloader._cursor
                          (StreamDownloader.notifyPlayback demo_downloader 0)));
      [|by rewrite Hc].
    apply Hnext. rewrite Hc. split; reflexivity.
Defined.

(** ** More on the request handler *)

Section ServerMore.
Implicit Types (st : Runtime) (tr : list event) (info : StreamInfo).

Lemma parseRange_absent range fileSize :
  header_present range = false → parseRange range fileSize = (0, fileSize - 1).
Proof.
  intros Habs. unfold parseRange.
  destruct range as [h|]; cbn in Habs.
  - apply negb_false_iff in Habs. rewrite Habs.
    destruct (Z.geb_spec (fileSize - 1) fileSize); [lia | done].
  - destruct (Z.geb_spec (fileSize - 1) fileSize); [lia | done].
Qed.

Lemma Buffer_slice_le (b : Buffer) from to :
  Buffer_length (Buffer_slice b from to) <= Z.max 0 (to - from).
Proof.
  unfold Buffer_slice, Buffer_length. rewrite length_take. lia.
Qed.

(** The body loop never writes more than what is left of the range. *)
Lemma serveLoop_bound w videoId info targetEnd fuel :
  ∀ bytePos consecutiveFailures round st st',
    serveLoop fuel w videoId info targetEnd bytePos consecutiveFailures
      round st = Some st' →
    ∃ tr, trace st' = trace st ++ tr ∧
          Buffer_length (body_of tr) <= Z.max 0 (targetEnd - bytePos).
Proof.
  induction fuel as [|fuel IH];
    intros bytePos cf round st st'; cbn [serveLoop]; [done|].
  destruct ((bytePos <? targetEnd) && negb (w_destroyed w round)) eqn:Hgo.
  2: { intros [= <-]. exists []. rewrite app_nil_r. split; [done|].
       change (Buffer_length (body_of [])) with 0. lia. }
  apply andb_true_iff in Hgo as [Hlt%Z.ltb_lt _].
  destruct (notify_same info (bytePos / CHUNK_SIZE) st) as (Htr0 & _).
  set (st0 := match si_downloader info with Some _ => _ | None => st end) in *.
  destruct (obtainChunk_frame w videoId info (bytePos / CHUNK_SIZE) st0)
    as [tr1 [Htr1 Hw1 _ _ _ _ _]].
  destruct (obtainChunk w videoId info (bytePos / CHUNK_SIZE) st0)
    as [chunkBuf st1]. cbn [snd] in *.
  destruct (match chunkBuf with
            | Some b => Buffer_length b =? 0
            | None => true
            end).
  - destruct (cf + 1 >=? MAX_CONSECUTIVE_FAILURES).
    + intros [= <-]. exists tr1. split; [congruence|].
      rewrite body_of_quiet by done. change (Buffer_length []) with 0. lia.
    + intros Hrun. destruct (IH _ _ _ _ _ Hrun) as (tr2 & Htr2 & Hb2).
      exists (tr1 ++ [EvSleep 500] ++ tr2). split.
      * rewrite Htr2. cbn. rewrite Htr1, Htr0, <- !app_assoc. done.
      * rewrite !body_of_app, (body_of_quiet tr1) by done. cbn [app].
        rewrite (body_of_quiet [EvSleep 500]) by done. done.
  - set (buf := default [] chunkBuf).
    set (offsetInChunk := Z.rem bytePos CHUNK_SIZE).
    set (toWrite := Z.min (Buffer_length buf - offsetInChunk)
                      (targetEnd - bytePos)).
    destruct (Z.leb_spec toWrite 0) as [Hz|Hpos].
    + intros [= <-]. exists tr1. split; [congruence|].
      rewrite body_of_quiet by done. change (Buffer_length []) with 0. lia.
    + intros Hrun. destruct (IH _ _ _ _ _ Hrun) as (tr2 & Htr2 & Hb2).
      exists (tr1 ++ [EvWrite (Buffer_slice buf offsetInChunk
                                 (offsetInChunk + toWrite))] ++ tr2).
      split.
      * rewrite Htr2. cbn. rewrite Htr1, Htr0, <- !app_assoc. done.
      * rewrite !body_of_app, (body_of_quiet tr1) by done. cbn [app].
        rewrite body_of_write. unfold Buffer_length in *.
        rewrite length_app.
        pose proof (Buffer_slice_le buf offsetInChunk (offsetInChunk + toWrite))
          as Hs. unfold Buffer_length in Hs. lia.
Qed.
End ServerMore.





(** ** Serving while the transport is down *)

Section Down.
Context (w : World) (Hdown : transport_down w).
Implicit Types (st : Runtime) (tr : list event) (info : StreamInfo).

Lemma downloadAttempt_down cacheKey loc dcId chunkIndex offset attempt st :
  (downloadAttempt w cacheKey loc dcId chunkIndex offset attempt st).1 = None.
Proof.
  unfold downloadAttempt.
  destruct (getClient (clientPool st) (chunkIndex + attempt - 1)) as [slot|];
    [|done].
  cbn zeta.
  assert (∀ t st2,
            (match w_iterDownload w t slot loc dcId offset with
             | DlThrow => (None, on_attempt_error attempt st2)
             | DlNone => (None, st2)
             | DlChunk buf =>
                 if 0 <? Buffer_length buf
                 then (Some buf,
                       with_cache (ChunkCache.set (chunkCache st2) cacheKey buf)
                         st2)
                 else (None, st2)
             end).1 = None) as Hreply.
  { intros t st2. pose proof (Hdown t slot loc dcId offset) as Hd.
    destruct (w_iterDownload w t slot loc dcId offset) as [| |buf];
      [done | done |].
    by destruct (Z.ltb_spec 0 (Buffer_length buf)); [lia|]. }
  destruct (match clientPool st !! slot with
            | Some c => connected c
            | None => true
            end); [apply Hreply|].
  destruct (w_connect w (clock st) slot); [apply Hreply|].
  destruct (attempt <? MAX_RETRIES); [done | apply Hreply].
Qed.

Lemma retryLoop_down remaining cacheKey loc dcId chunkIndex offset st :
  (retryLoop remaining w cacheKey loc dcId chunkIndex offset st).1 = None.
Proof.
  revert st. induction remaining as [|remaining IH]; intros st; [done|].
  cbn [retryLoop].
  pose proof (downloadAttempt_down cacheKey loc dcId chunkIndex offset
                (MAX_RETRIES - Z.of_nat remaining) st) as H1.
  destruct (downloadAttempt w cacheKey loc dcId chunkIndex offset
              (MAX_RETRIES - Z.of_nat remaining) st) as [[buf|] st1];
    [done | apply IH].
Qed.

(** A fetch of its own brings no byte and leaves cache and registry as
    they were. *)
Lemma downloadChunk_down videoId loc chunkIndex fileSize dcId st :
  ChunkCache.has (chunkCache st) (cacheKeyOf videoId chunkIndex) = false →
  inFlight st !! cacheKeyOf videoId chunkIndex = None →
  let r := downloadChunk w videoId loc chunkIndex fileSize dcId st in
  match r.1 with
  | Some b => Buffer_length b = 0
  | None => True
  end ∧
  chunkCache r.2 = chunkCache st ∧ inFlight r.2 = inFlight st.
Proof.
  intros Hhas Hfl. unfold downloadChunk.
  set (st0 := emit (EvDownloadChunk videoId chunkIndex) st).
  change (chunkCache st0) with (chunkCache st).
  rewrite (get_miss_of_has _ _ Hhas). cbn iota.
  change (inFlight (with_cache (chunkCache st) st0)) with (inFlight st).
  rewrite Hfl. unfold _downloadChunkImpl.
  destruct (chunkIndex * CHUNK_SIZE >=? fileSize).
  { cbn. split_and!; [done | done | by apply delete_insert_id]. }
  set (st1 := with_cache (chunkCache st) st0).
  pose proof (retryLoop_down (Z.to_nat MAX_RETRIES)
                (cacheKeyOf videoId chunkIndex) loc dcId chunkIndex
                (chunkIndex * CHUNK_SIZE) st1) as Hnone.
  pose proof (retryLoop_cache (Z.to_nat MAX_RETRIES) w
                (cacheKeyOf videoId chunkIndex) loc dcId chunkIndex
                (chunkIndex * CHUNK_SIZE) st1) as Hcache.
  pose proof (retryLoop_inFlight (Z.to_nat MAX_RETRIES) w
                (cacheKeyOf videoId chunkIndex) loc dcId chunkIndex
                (chunkIndex * CHUNK_SIZE) st1 ltac:(lia)) as Hreg.
  destruct (retryLoop (Z.to_nat MAX_RETRIES) w _ loc dcId chunkIndex _ st1)
    as [result st2]. cbn [fst snd] in *. subst result.
  split_and!; [done | done |]. cbn. rewrite Hreg. by apply delete_insert_id.
Qed.

Lemma cold_after videoId st st' :
  chunkCache st' = chunkCache st → inFlight st' = inFlight st →
  cold videoId st → cold videoId st'.
Proof. intros Hc Hf [H1 H2]. split; intros i; by rewrite ?Hc, ?Hf. Qed.

Lemma fetchQueued_down videoId loc fileSize dcId results st idx :
  cold videoId st →
  let st' := (fetchQueued w videoId loc fileSize dcId (results, st) idx).2 in
  chunkCache st' = chunkCache st ∧ inFlight st' = inFlight st.
Proof.
  intros [Hcache Hreg]. unfold fetchQueued.
  rewrite (get_miss_of_has _ _ (Hcache idx)). cbn iota.
  assert (with_cache (chunkCache st) st = st) as -> by (by destruct st).
  destruct (downloadChunk_down videoId loc idx fileSize dcId st
              (Hcache idx) (Hreg idx)) as (_ & Hc & Hf).
  by destruct (downloadChunk w videoId loc idx fileSize dcId st).
Qed.

Lemma downloadChunksParallel_down videoId loc indices fileSize dcId st :
  cold videoId st →
  let st' := (downloadChunksParallel w videoId loc indices fileSize dcId st).2 in
  chunkCache st' = chunkCache st ∧ inFlight st' = inFlight st.
Proof.
  intros Hcold. unfold downloadChunksParallel.
  destruct (_ <=? 0); [done|].
  generalize (∅ : gmap Z (option Buffer)).
  assert (∀ st1, chunkCache st1 = chunkCache st → inFlight st1 = inFlight st →
            ∀ results,
              let st' := (fold_left (fetchQueued w videoId loc fileSize dcId)
                            indices (results, st1)).2 in
              chunkCache st' = chunkCache st ∧ inFlight st' = inFlight st)
    as Hgen; [|by apply Hgen].
  induction indices as [|idx indices IH]; intros st1 Hc Hf results;
    cbn [fold_left]; [done|].
  destruct (fetchQueued_down videoId loc fileSize dcId results st1 idx)
    as [Hc1 Hf1]; [by eapply cold_after|].
  destruct (fetchQueued w videoId loc fileSize dcId (results, st1) idx)
    as [results1 st2]. cbn [snd] in *.
  apply IH; congruence.
Qed.

Lemma seekBurst_down videoId info start st :
  cold videoId st →
  let st' := seekBurst w videoId info start st in
  chunkCache st' = chunkCache st ∧ inFlight st' = inFlight st.
Proof.
  intros Hcold. unfold seekBurst.
  destruct (negb _); [|done].
  set (st1 := match si_downloader info with Some _ => _ | None => st end).
  assert (chunkCache st1 = chunkCache st ∧ inFlight st1 = inFlight st)
    as [Hc1 Hf1] by (subst st1; by destruct (si_downloader info)).
  destruct (0 <? _); [|done].
  destruct (downloadChunksParallel_down videoId (si_inputLocation info)
              (burstIndices (chunkCache st1) videoId (start / CHUNK_SIZE)
                 (Z.min (start / CHUNK_SIZE + SEEK_PREBUF_CHUNKS)
                    (ceil_div (si_fileSize info) CHUNK_SIZE)))
              (si_fileSize info) (si_dcId info) st1) as [Hc Hf];
    [by eapply cold_after|].
  split; congruence.
Qed.

(** One round of the body loop: the inline download is made and fails. *)
Lemma obtainChunk_down videoId info chunkIndex st :
  cold videoId st →
  let r := obtainChunk w videoId info chunkIndex st in
  match r.1 with
  | Some b => Buffer_length b = 0
  | None => True
  end ∧
  chunkCache r.2 = chunkCache st ∧ inFlight r.2 = inFlight st ∧
  ∃ tr, trace r.2 = trace st ++ tr ∧ writes tr = [] ∧ heads tr = [] ∧
        fetch_calls tr = [chunkIndex].
Proof.
  intros [Hcache Hreg]. unfold obtainChunk.
  rewrite (get_miss_of_has _ _ (Hcache chunkIndex)).
  assert (with_cache (chunkCache st) st = st) as -> by (by destruct st).
  rewrite (Hreg chunkIndex).
  destruct (downloadChunk_down videoId (si_inputLocation info) chunkIndex
              (si_fileSize info) (si_dcId info) st
              (Hcache chunkIndex) (Hreg chunkIndex)) as (Hres & Hc & Hf).
  destruct (downloadChunk_frame w videoId (si_inputLocation info) chunkIndex
              (si_fileSize info) (si_dcId info) st) as (tr & Hframe & Hcalls).
  destruct (downloadChunk w videoId (si_inputLocation info) chunkIndex
              (si_fileSize info) (si_dcId info) st) as [result st'].
  cbn [fst snd] in *. split_and!; [done | done | done |].
  exists tr. destruct Hframe. by split_and!.
Qed.

(** The body loop gives up: with [n] failures to go it makes [n] inline
    downloads of the chunk under the cursor, writes nothing and stops. *)
Lemma serveLoop_down videoId info targetEnd bytePos (n : nat) :
  (∀ k, w_destroyed w k = false) →
  bytePos < targetEnd →
  ∀ fuel consecutiveFailures round st,
    cold videoId st →
    (1 <= n)%nat → (n <= fuel)%nat →
    consecutiveFailures = MAX_CONSECUTIVE_FAILURES - Z.of_nat n →
    ∃ st' tr,
      serveLoop fuel w videoId info targetEnd bytePos consecutiveFailures
        round st = Some st' ∧
      trace st' = trace st ++ tr ∧ writes tr = [] ∧ heads tr = [] ∧
      fetch_calls tr = replicate n (bytePos / CHUNK_SIZE) ∧
      chunkCache st' = chunkCache st.
Proof.
  intros Halive Hlt. induction n as [|n IH];
    intros fuel cf round st Hcold Hn Hfuel Hcf; [lia|].
  destruct fuel as [|fuel]; [lia|]. cbn [serveLoop].
  rewrite Halive. apply Z.ltb_lt in Hlt as Hlt'. rewrite Hlt'. cbn [andb negb].
  destruct (notify_same info (bytePos / CHUNK_SIZE) st) as (Ht0 & Hc0 & Hf0 & _).
  set (st0 := match si_downloader info with Some _ => _ | None => st end) in *.
  assert (cold videoId st0) as Hcold0 by (by eapply cold_after).
  destruct (obtainChunk_down videoId info (bytePos / CHUNK_SIZE) st0 Hcold0)
    as (Hres & Hc1 & Hf1 & tr1 & Htr1 & Hw1 & Hh1 & Hcalls1).
  destruct (obtainChunk w videoId info (bytePos / CHUNK_SIZE) st0)
    as [chunkBuf st1]. cbn [fst snd] in *.
  assert (match chunkBuf with
          | Some b => Buffer_length b =? 0
          | None => true
          end = true) as ->.
  { destruct chunkBuf as [b|]; [|done]. by apply Z.eqb_eq. }
  destruct (Z.geb_spec (cf + 1) MAX_CONSECUTIVE_FAILURES) as [Hlast|Hmore].
  - assert (n = 0%nat) as -> by lia.
    exists st1, tr1. split_and!; [done | congruence | done | done | done |].
    congruence.
  - assert (cold videoId (emit (EvSleep 500) st1)) as Hcold1.
    { eapply (cold_after _ st0); [| |done]; cbn; congruence. }
    destruct (IH fuel (cf + 1) (S round) (emit (EvSleep 500) st1) Hcold1)
      as (st' & tr & Hrun & Htr & Hw & Hh & Hcalls & Hc); [lia | lia | lia |].
    exists st', (tr1 ++ [EvSleep 500] ++ tr).
    split_and!; [done | | | | |].
    + rewrite Htr. cbn. rewrite Htr1, Ht0, <- !app_assoc. done.
    + by rewrite !writes_app, Hw1, Hw.
    + by rewrite !heads_app, Hh1, Hh.
    + rewrite !fetch_calls_app, Hcalls1, Hcalls. done.
    + rewrite Hc. cbn. congruence.
Qed.
End Down.



(** ** Routes and life cycle of a stream *)

Section Routes.
Implicit Types (s p r : string) (f : ascii → bool).

Lemma strip_prefix_app p r : strip_prefix p (p ++ r) = Some r.
Proof.
  induction p as [|a p IH]; [done|].
  rewrite append_cons. cbn [strip_prefix]. by rewrite Ascii.eqb_refl.
Qed.

Lemma strip_prefix_Some p s r :
  strip_prefix p s = Some r → s = (p ++ r)%string.
Proof.
  revert s. induction p as [|a p IH]; intros s; cbn [strip_prefix].
  - by intros [= ->].
  - destruct s as [|b s]; [done|].
    destruct (Ascii.eqb_spec a b) as [->|]; [|done].
    intros Hs. rewrite append_cons. by rewrite (IH s Hs).
Qed.

Lemma take_drop_while f s : (take_while f s ++ drop_while f s)%string = s.
Proof.
  induction s as [|a s IH]; [done|]. cbn [take_while drop_while].
  destruct (f a); [|done]. by rewrite append_cons, IH.
Qed.

Lemma take_while_all f s : string_all f (take_while f s) = true.
Proof.
  induction s as [|a s IH]; [done|]. cbn [take_while].
  destruct (f a) eqn:Hf; [|done]. cbn [string_all]. by rewrite Hf.
Qed.

Lemma drop_while_head f s :
  match drop_while f s with
  | EmptyString => True
  | String a _ => f a = false
  end.
Proof.
  induction s as [|a s IH]; [done|]. cbn [drop_while].
  by destruct (f a) eqn:Hf.
Qed.

Lemma take_while_app f s r :
  string_all f s = true →
  match r with EmptyString => True | String a _ => f a = false end →
  take_while f (s ++ r) = s.
Proof.
  intros Hall Hr. induction s as [|a s IH].
  - destruct r as [|b r]; [done|]. cbn. change (("" ++ String b r)%string)
      with (String b r). cbn [take_while]. by rewrite Hr.
  - cbn [string_all] in Hall. apply andb_true_iff in Hall as [Ha Hall].
    rewrite append_cons. cbn [take_while]. by rewrite Ha, IH.
Qed.
End Routes.

(** X18.  The route of the server.  A URL is routed to the stream [id]
    exactly when it is [/stream/], then [id], then nothing or something that
    begins with [/] or [?], where [id] is not empty and holds neither [/]
    nor [?].  So a stream whose identifier holds one of these two characters
    cannot be reached under its own name. *)
Theorem match_stream_url_spec (url id : string) :
  match_stream_url url = Some id ↔
  string_empty id = false ∧ string_all id_char id = true ∧
  ∃ rest, url = ("/stream/" ++ id ++ rest)%string ∧
          match rest with
          | EmptyString => True
          | String a _ => id_char a = false
          end.
Proof.
  unfold match_stream_url. fold id_char. split.
  - destruct (strip_prefix "/stream/" url) as [r|] eqn:Hstrip; [|done].
    apply strip_prefix_Some in Hstrip as ->.
    destruct (string_empty (take_while id_char r)) eqn:Hne; [done|].
    intros [= <-]. split_and!; [done | apply take_while_all |].
    exists (drop_while id_char r). split; [|apply drop_while_head].
    by rewrite take_drop_while.
  - intros (Hne & Hall & rest & -> & Hrest).
    rewrite strip_prefix_app, take_while_app by done. by rewrite Hne.
Qed.

Section Lifecycle.
Implicit Types (st : Runtime) (videoId : string).

Lemma stopStream_trace videoId st : trace (stopStream videoId st) = trace st.
Proof.
  unfold stopStream. destruct (activeStreams st !! videoId) as [info|]; [|done].
  by destruct (si_downloader info).
Qed.

Lemma handleRequest_unregistered w req videoId st :
  match_stream_url (req_url req) = Some videoId →
  activeStreams st !! videoId = None →
  handleRequest w req st = Some (notRegistered st).
Proof. intros Hurl Hreg. unfold handleRequest. by rewrite Hurl, Hreg. Qed.

(** The downloaders after the loop of [destroy] over the streams [m]. *)
Lemma destroy_downloaders (m : gmap string StreamInfo)
    (ds : gmap nat StreamDownloader.t) ref d :
  ds !! ref = Some d →
  let ds' :=
    map_fold
      (λ (_ : string) info ds,
         match si_downloader info with
         | Some downloader => alter StreamDownloader.stop downloader ds
         | None => ds
         end) ds m in
  (ds' !! ref = Some d ∨ ds' !! ref = Some (StreamDownloader.stop d)) ∧
  ((∃ v info, m !! v = Some info ∧ si_downloader info = Some ref) →
   ds' !! ref = Some (StreamDownloader.stop d)).
Proof.
  intros Hd. cbn zeta.
  apply (map_fold_weak_ind
           (λ ds' (m : gmap string StreamInfo),
              (ds' !! ref = Some d ∨ ds' !! ref = Some (StreamDownloader.stop d)) ∧
              ((∃ v info, m !! v = Some info ∧ si_downloader info = Some ref) →
               ds' !! ref = Some (StreamDownloader.stop d)))).
  - split; [by left|]. intros (v & info & Hv & _).
    by rewrite lookup_empty in Hv.
  - intros v info m' ds' Hfresh [Hor Hstop].
    destruct (si_downloader info) as [r0|] eqn:Hr0.
    + destruct (decide (r0 = ref)) as [->|Hne].
      * rewrite lookup_alter_eq.
        assert (alter StreamDownloader.stop ref ds' !! ref =
                Some (StreamDownloader.stop d)) as Hgoal.
        { rewrite lookup_alter_eq. by destruct Hor as [-> | ->]. }
        rewrite lookup_alter_eq in Hgoal. split; [by right | done].
      * rewrite lookup_alter_ne by done. split; [done|].
        intros (v' & info' & Hv' & Hd').
        apply Hstop. destruct (decide (v = v')) as [->|Hvne].
        -- rewrite lookup_insert_eq in Hv'. congruence.
        -- rewrite lookup_insert_ne in Hv' by done. by exists v', info'.
    + split; [done|]. intros (v' & info' & Hv' & Hd').
      apply Hstop. destruct (decide (v = v')) as [->|Hvne].
      * rewrite lookup_insert_eq in Hv'. congruence.
      * rewrite lookup_insert_ne in Hv' by done. by exists v', info'.
Qed.

Lemma first_connected_spec (pool : list Client) (k : nat) :
  match first_connected pool k with
  | Some slot =>
      (k <= slot)%nat ∧
      (∃ c, pool !! (slot - k)%nat = Some c ∧ connected c = true) ∧
      ∀ j c, (j < slot - k)%nat → pool !! j = Some c → connected c = false
  | None => Forall (λ c, connected c = false) pool
  end.
Proof.
  revert k. induction pool as [|c pool IH]; intros k; cbn [first_connected].
  { constructor. }
  destruct (connected c) eqn:Hc.
  - split; [lia|]. rewrite Nat.sub_diag. split; [by exists c|].
    intros j c' Hj. lia.
  - specialize (IH (S k)). destruct (first_connected pool (S k)) as [slot|].
    + destruct IH as (Hle & (c' & Hc' & Hconn) & Hbefore).
      split; [lia|].
      replace (slot - k)%nat with (S (slot - S k)) by lia.
      split; [by exists c'|].
      intros [|j] c'' Hj; cbn; [by intros [= <-]|].
      apply Hbefore. lia.
    + by constructor.
Qed.
End Lifecycle.

(** X19.  After [stopStream(s)] a request for [s] finds no stream: the
    answer is 404 with the body [Stream not registered], and nothing else
    happens; the other streams stay registered as they were. *)
Theorem stopStream_then_request (w : World) (req : Request)
    (videoId : string) (st : Runtime) :
  match_stream_url (req_url req) = Some videoId →
  let st1 := stopStream videoId st in
  handleRequest w req st1 = Some (notRegistered st1) ∧
  trace (notRegistered st1) =
    trace st ++ [EvWriteHead 404 []; EvEnd "Stream not registered"] ∧
  ∀ v, v ≠ videoId → activeStreams st1 !! v = activeStreams st !! v.
Proof.
  intros Hurl st1. split_and!.
  - apply (handleRequest_unregistered w req videoId); [done|].
    subst st1. rewrite stopStream_streams. apply lookup_delete_eq.
  - subst st1. unfold notRegistered. cbn [trace emit].
    rewrite stopStream_trace, <- app_assoc. done.
  - intros v Hne. subst st1. rewrite stopStream_streams.
    by apply lookup_delete_ne.
Qed.

Lemma stopStream_then_request_witness :
  handleRequest demo_world (demo_get None) (stopStream "v" demo_state) =
  Some (notRegistered (stopStream "v" demo_state)).
Proof.
  destruct (stopStream_then_request demo_world (demo_get None) "v" demo_state)
    as (Hrun & _).
  - reflexivity.
  - exact Hrun.
Defined.


(** X21.  [getAnyClient()] returns the first connected client of the pool
    when there is one; when no client is connected it returns the client of
    slot 0, which is not connected; and it returns [undefined] only for an
    empty pool. *)
Theorem getAnyClient_spec (pool : list Client) :
  match getAnyClient pool with
  | Some slot =>
      ∃ c, pool !! slot = Some c ∧
           (connected c = true ∧
            (∀ j c', (j < slot)%nat → pool !! j = Some c' → connected c' = false)
            ∨
            slot = 0%nat ∧ Forall (λ c', connected c' = false) pool)
  | None => pool = []
  end.
Proof.
  unfold getAnyClient.
  pose proof (first_connected_spec pool 0) as Hspec.
  destruct (first_connected pool 0) as [slot|].
  - destruct Hspec as (_ & (c & Hc & Hconn) & Hbefore).
    rewrite Nat.sub_0_r in *. exists c. split; [done|]. left. split; [done|].
    intros j c' Hj. apply Hbefore. lia.
  - destruct pool as [|c pool]; [done|].
    exists c. split; [done|]. by right.
Qed.

(** ** More on the connection pool *)

Section PoolShape.
Context (w : PoolWorld).
Implicit Types (st : PoolState) (c : Client).

Lemma createClient_state r s st :
  let res := createClientWithSession w r s st in
  ps_clientPool res.2 = ps_clientPool st ∧
  ps_sessionFile res.2 = ps_sessionFile st ∧
  match res.1 with
  | inl c => connected c = true
  | inr _ => True
  end.
Proof.
  unfold createClientWithSession. destruct (negb (string_empty s)).
  - by destruct (pw_connect w (ps_clock st) s).
  - by destruct (pw_start w (ps_clock st)).
Qed.

Lemma saveSession_state s st :
  ps_clientPool (saveSession w s st) = ps_clientPool st ∧
  ((∀ t, pw_write w t = true) → ps_sessionFile (saveSession w s st) = Some s).
Proof.
  unfold saveSession. split.
  - by destruct (pw_write w (ps_clock st)).
  - intros Hwrite. by rewrite Hwrite.
Qed.

Lemma cloneClients_state n s st :
  let res := cloneClients n w s st in
  (length res.1 <= n)%nat ∧
  Forall (λ c, connected c = true) res.1 ∧
  ps_clientPool res.2 = ps_clientPool st ∧
  ps_sessionFile res.2 = ps_sessionFile st.
Proof.
  revert st. induction n as [|n IH]; intros st; cbn [cloneClients].
  { split_and!; [done | constructor | done | done]. }
  pose proof (createClient_state Clone s st) as (Hp & Hf & Hc).
  destruct (createClientWithSession w Clone s st) as [[c|e] st1];
    cbn [fst snd] in *.
  - specialize (IH st1). cbn zeta in IH.
    destruct (cloneClients n w s st1) as [cs st2]. cbn [fst snd] in *.
    destruct IH as (Hlen & Hall & Hp2 & Hf2).
    split_and!; [cbn; lia | by constructor | congruence | congruence].
  - specialize (IH st1). cbn zeta in IH.
    destruct IH as (Hlen & Hall & Hp2 & Hf2).
    split_and!; [lia | done | congruence | congruence].
Qed.

Lemma authenticate_state fuel st r st' :
  authenticate fuel w st = Some (r, st') →
  ps_clientPool st' = ps_clientPool st ∧
  ps_sessionFile st' = ps_sessionFile st ∧
  match r with
  | inl c => connected c = true
  | inr _ => True
  end.
Proof.
  revert st. induction fuel as [|fuel IH]; intros st; [done|].
  cbn [authenticate].
  pose proof (createClient_state Primary "" st) as (Hp & Hf & Hc).
  destruct (createClientWithSession w Primary "" st) as [[c|[seconds|]] st1];
    cbn [fst snd] in *.
  - by intros [= <- <-].
  - destruct (seconds =? 0); [by intros [= <- <-]|].
    intros Hrun. apply IH in Hrun as (Hp' & Hf' & Hc').
    destruct (0 <? seconds + 5); cbn in Hp', Hf'; split_and!; congruence || done.
  - by intros [= <- <-].
Qed.

(** The clones are added to a pool that holds the primary alone. *)
Lemma finish_rebuilt master stM primary :
  ps_clientPool stM = [primary] → connected primary = true →
  ((∀ t, pw_write w t = true) → ps_sessionFile stM = Some (session primary)) →
  let res := cloneClients
               (Z.to_nat (CLIENT_POOL_SIZE - Z.of_nat (length (ps_clientPool stM))))
               w master stM in
  rebuilt w (pool_set (ps_clientPool res.2 ++ res.1) res.2).
Proof.
  intros Hpool Hconn Hfile. cbn zeta.
  pose proof (cloneClients_state
                (Z.to_nat (CLIENT_POOL_SIZE - Z.of_nat (length (ps_clientPool stM))))
                master stM) as (Hlen & Hall & Hp & Hf).
  destruct (cloneClients _ w master stM) as [clones st']. cbn [fst snd] in *.
  exists primary, clones. rewrite Hp, Hpool. split_and!.
  - done.
  - rewrite Hpool in Hlen. cbn in Hlen. done.
  - by constructor.
  - intros Hwrite. cbn. rewrite Hf. by apply Hfile.
Qed.

Lemma authenticate_rebuilt fuel stA primary st1 :
  authenticate fuel w stA = Some (inl primary, st1) →
  let stM := pool_set [primary] (saveSession w (session primary) st1) in
  ps_clientPool stM = [primary] ∧ connected primary = true ∧
  ((∀ t, pw_write w t = true) → ps_sessionFile stM = Some (session primary)).
Proof.
  intros Hauth. apply authenticate_state in Hauth as (_ & _ & Hconn).
  split_and!; [done | done |]. intros Hwrite. cbn.
  by apply saveSession_state.
Qed.

Lemma ensureClientPool_rebuilt fuel st st' :
  alive (ps_clientPool st) < CLIENT_POOL_SIZE →
  ensureClientPool fuel w st = Some (Resolved, st') →
  rebuilt w st'.
Proof.
  intros Halive. unfold ensureClientPool.
  destruct (Z.geb_spec (alive (ps_clientPool st)) CLIENT_POOL_SIZE); [lia|].
  (* the end of every path: authentication, then the clones *)
  assert (∀ stA,
            match
              match authenticate fuel w stA with
              | Some (inl primary, st1) =>
                  Some (inl (session primary,
                             pool_set [primary]
                               (saveSession w (session primary) st1)))
              | Some (inr _, st1) => Some (inr st1)
              | None => None
              end
            with
            | Some (inl (masterSession, stM)) =>
                let
                '(clones, st2) :=
                  cloneClients
                    (Z.to_nat (CLIENT_POOL_SIZE -
                               Z.of_nat (length (ps_clientPool stM))))
                    w masterSession stM in
                Some (Resolved, pool_set (ps_clientPool st2 ++ clones) st2)
            | Some (inr stR) => Some (Rejected, stR)
            | None => None
            end = Some (Resolved, st') → rebuilt w st') as Hauth.
  { intros stA.
    destruct (authenticate fuel w stA) as [[[primary|e] st1]|] eqn:Ha;
      [|done|done].
    destruct (authenticate_rebuilt fuel stA primary st1 Ha) as (Hp & Hc & Hf).
    pose proof (finish_rebuilt (session primary) _ primary Hp Hc Hf) as Hfin.
    cbn zeta in Hfin.
    destruct (cloneClients _ w (session primary) _) as [clones st2].
    cbn [fst snd] in Hfin. by intros [= <-]. }
  destruct (negb (string_empty (loadSavedSession st))) eqn:Hsaved.
  2: { apply negb_false_iff in Hsaved. rewrite Hsaved. apply Hauth. }
  pose proof (createClient_state Primary (loadSavedSession st) st)
    as (Hp1 & Hf1 & Hc1).
  destruct (createClientWithSession w Primary (loadSavedSession st) st)
    as [[test|e] st1]; cbn [fst snd] in *.
  2: { cbn [string_empty]. apply Hauth. }
  destruct (pw_getMe w (ps_clock st1)).
  2: { cbn [string_empty]. apply Hauth. }
  set (st2 := pool_emit (PeGetMe true) st1).
  set (st3 := if String.eqb (session test) (loadSavedSession st)
              then st2 else saveSession w (session test) st2).
  destruct (string_empty (session test)) eqn:Hupd; [apply Hauth|].
  assert (ps_clientPool (pool_set [test] st3) = [test]) as Hp by done.
  assert ((∀ t, pw_write w t = true) →
          ps_sessionFile (pool_set [test] st3) = Some (session test)) as Hf.
  { intros Hwrite. cbn. subst st3.
    destruct (String.eqb_spec (session test) (loadSavedSession st)) as [Heq|Hne].
    - cbn. rewrite Hf1. unfold loadSavedSession in Heq, Hsaved.
      destruct (ps_sessionFile st) as [s|]; [congruence|].
      cbn in Hsaved. done.
    - by apply saveSession_state. }
  pose proof (finish_rebuilt (session test) _ test Hp Hc1 Hf) as Hfin.
  cbn zeta in Hfin.
  destruct (cloneClients _ w (session test) _) as [clones st4].
  cbn [fst snd] in Hfin. by intros [= <-].
Qed.
End PoolShape.



(** X23.  When the credential file can be written, a call of
    [ensureClientPool] that rebuilds the pool and resolves leaves on disk the
    session of the client in slot 0: the credential the next start of the
    process replays is the one the pool runs on. *)
Theorem ensureClientPool_persists_primary (fuel : nat) (w : PoolWorld)
    (st st' : PoolState) :
  (∀ t, pw_write w t = true) →
  alive (ps_clientPool st) < CLIENT_POOL_SIZE →
  ensureClientPool fuel w st = Some (Resolved, st') →
  ∃ primary clones,
    ps_clientPool st' = primary :: clones ∧
    ps_sessionFile st' = Some (session primary).
Proof.
  intros Hwrite Hlt Hrun.
  destruct (ensureClientPool_rebuilt w fuel st st' Hlt Hrun)
    as (primary & clones & Hpool & _ & _ & Hfile).
  exists primary, clones. split; [done | by apply Hfile].
Qed.

Lemma ensureClientPool_persists_primary_witness :
  ∃ st' primary clones,
    ensureClientPool 2 demo_pool_world (pool_init None) = Some (Resolved, st') ∧
    ps_clientPool st' = primary :: clones ∧
    ps_sessionFile st' = Some (session primary).
Proof.
  eexists.
  destruct (ensureClientPool_persists_primary 2 demo_pool_world
              (pool_init None) _ ltac:(reflexivity)
              ltac:(vm_compute; reflexivity) ltac:(vm_compute; reflexivity))
    as (primary & clones & Hpool & Hfile).
  exists primary, clones. split; [reflexivity|]. split; [exact Hpool | exact Hfile].
Defined.

Section PoolReliable.
Context (w : PoolWorld) (valid : string → Prop).
Context (Hrel : reliable w valid).
Implicit Types (st : PoolState).

Lemma cloneClients_all n s st :
  valid s →
  length (cloneClients n w s st).1 = n.
Proof.
  intros Hs. revert st. induction n as [|n IH]; intros st; [done|].
  cbn [cloneClients].
  destruct (createClient_valid w valid Hrel Clone s st Hs)
    as (c & st1 & -> & _).
  specialize (IH st1). destruct (cloneClients n w s st1) as [cs st2].
  cbn [fst] in *. cbn [length]. by rewrite IH.
Qed.

Lemma authenticate_valid fuel st primary st1 :
  authenticate fuel w st = Some (inl primary, st1) → valid (session primary).
Proof.
  intros Hauth.
  by destruct (authenticate_spec w valid Hrel fuel st _ _ Hauth)
    as (_ & _ & _ & Hv & _).
Qed.

Lemma alive_all (pool : list Client) :
  Forall (λ c, connected c = true) pool → alive pool = Z.of_nat (length pool).
Proof.
  intros Hall. unfold alive. f_equal. f_equal.
  induction Hall as [|c pool Hc Hall IH]; [done|].
  rewrite filter_cons_True by done. cbn. by rewrite IH.
Qed.

(** On a reliable transport a rebuild is complete. *)
Lemma ensureClientPool_complete fuel st st' :
  (∀ s, ps_sessionFile st = Some s → valid s) →
  alive (ps_clientPool st) < CLIENT_POOL_SIZE →
  ensureClientPool fuel w st = Some (Resolved, st') →
  length (ps_clientPool st') = 3%nat.
Proof.
  intros Hfile Halive. unfold ensureClientPool.
  destruct (Z.geb_spec (alive (ps_clientPool st)) CLIENT_POOL_SIZE); [lia|].
  assert (∀ master stM primary,
            valid master → ps_clientPool stM = [primary] →
            ∀ st2,
              (let '(clones, st2) :=
                 cloneClients
                   (Z.to_nat (CLIENT_POOL_SIZE -
                              Z.of_nat (length (ps_clientPool stM))))
                   w master stM in
               Some (Resolved, pool_set (ps_clientPool st2 ++ clones) st2))
              = Some (Resolved, st2) →
              length (ps_clientPool st2) = 3%nat) as Hfin.
  { intros master stM primary Hv Hp st2.
    pose proof (cloneClients_all
                  (Z.to_nat (CLIENT_POOL_SIZE -
                             Z.of_nat (length (ps_clientPool stM))))
                  master stM Hv) as Hlen.
    pose proof (cloneClients_state w
                  (Z.to_nat (CLIENT_POOL_SIZE -
                             Z.of_nat (length (ps_clientPool stM))))
                  master stM) as (_ & _ & Hp2 & _).
    destruct (cloneClients _ w master stM) as [clones st3].
    cbn [fst snd] in *. intros [= <-]. cbn.
    rewrite Hp2, Hp, length_app, Hlen, Hp. done. }
  unfold loadSavedSession.
  destruct (ps_sessionFile st) as [s|] eqn:Hs.
  - assert (valid s) as Hv by (by apply Hfile).
    rewrite (rel_nonempty _ _ Hrel s Hv). cbn [negb].
    destruct (createClient_valid w valid Hrel Primary s st Hv)
      as (test & st1 & -> & Hvt & _).
    rewrite (rel_getMe _ _ Hrel), (rel_nonempty _ _ Hrel _ Hvt).
    by apply (Hfin (session test) _ test).
  - cbn [string_empty negb].
    destruct (authenticate fuel w st) as [[[primary|e] st1]|] eqn:Ha;
      [|done|done].
    apply (Hfin (session primary) _ primary); [|done].
    by eapply authenticate_valid.
Qed.
End PoolReliable.

(** X24.  On a transport on which valid credentials stay usable, and with
    a valid credential on disk if any, a call of [ensureClientPool] that
    resolves leaves [CLIENT_POOL_SIZE] = 3 connected clients in the pool, and
    a call made right after it does nothing: it resolves at once, with no
    connection and no authentication. *)
Theorem ensureClientPool_idempotent (w : PoolWorld) (valid : string → Prop)
    (fuel fuel' : nat) (st st' : PoolState) :
  reliable w valid →
  (∀ s, ps_sessionFile st = Some s → valid s) →
  ensureClientPool fuel w st = Some (Resolved, st') →
  CLIENT_POOL_SIZE <= alive (ps_clientPool st') ∧
  ensureClientPool fuel' w st' = Some (Resolved, st').
Proof.
  intros Hrel Hfile Hrun.
  assert (CLIENT_POOL_SIZE <= alive (ps_clientPool st')) as Hfull.
  { destruct (Z.lt_ge_cases (alive (ps_clientPool st)) CLIENT_POOL_SIZE)
      as [Hlt|Hge].
    - destruct (ensureClientPool_rebuilt w fuel st st' Hlt Hrun)
        as (primary & clones & Hpool & _ & Hall & _).
      rewrite <- Hpool in Hall. rewrite alive_all by done.
      rewrite (ensureClientPool_complete w valid Hrel fuel st st' Hfile Hlt Hrun).
      done.
    - unfold ensureClientPool in Hrun.
      destruct (Z.geb_spec (alive (ps_clientPool st)) CLIENT_POOL_SIZE); [|lia].
      by injection Hrun as <-. }
  split; [done|]. unfold ensureClientPool.
  by destruct (Z.geb_spec (alive (ps_clientPool st')) CLIENT_POOL_SIZE); [|lia].
Qed.

Lemma ensureClientPool_idempotent_witness :
  ∃ st',
    ensureClientPool 2 demo_pool_world (pool_init (Some "k"%string))
      = Some (Resolved, st') ∧
    ensureClientPool 0 demo_pool_world st' = Some (Resolved, st').
Proof.
  eexists. split; [vm_compute; reflexivity|].
  apply (ensureClientPool_idempotent demo_pool_world (λ s, s = "k"%string)
           2 0 (pool_init (Some "k"%string))).
  - exact demo_pool_world_reliable.
  - by intros s [= <-].
  - vm_compute. reflexivity.
Defined.

Section Overlap.
Context (w : PoolWorld).
Implicit Types (st : PoolState).

Lemma saveSession_exchanges s st :
  auth_exchanges (ps_log (saveSession w s st)) = auth_exchanges (ps_log st).
Proof.
  unfold saveSession. destruct (pw_write w (ps_clock st)); cbn;
    by rewrite auth_exchanges_snoc, app_nil_r.
Qed.

(** A call that is resumed in its authentication performs one exchange,
    as primary, whatever has happened meanwhile. *)
Lemma call_resume_start_exchanges st :
  auth_exchanges (ps_log (call_resume w AtStart st).2) =
  auth_exchanges (ps_log st) ++ [(Primary, pw_start w (ps_clock st))].
Proof.
  cbn [call_resume]. unfold createClientWithSession. cbn [string_empty negb].
  set (st1 := pool_emit (PeStart Primary (pw_start w (ps_clock st))) st).
  assert (auth_exchanges (ps_log st1) =
          auth_exchanges (ps_log st) ++ [(Primary, pw_start w (ps_clock st))])
    as Hst1 by (cbn; by rewrite auth_exchanges_snoc).
  clearbody st1.
  destruct (pw_start w (ps_clock st)) as [s|seconds|].
  - cbn [snd pool_set ps_log]. by rewrite saveSession_exchanges.
  - destruct (seconds =? 0); [done|].
    destruct (0 <? seconds + 5); [|done].
    cbn. by rewrite auth_exchanges_snoc, app_nil_r.
  - done.
Qed.
End Overlap.

(** X26.  Nothing guards [ensureClientPool] against calls that overlap.
    When two calls start before either has been resumed, with no credential
    file and fewer than [CLIENT_POOL_SIZE] live clients, each of them
    performs its own authentication exchange as primary when it is resumed,
    whatever the transport answers: the second call does not see the
    credential the first has persisted meanwhile. *)
Theorem overlapping_calls_both_authenticate (w : PoolWorld) (st : PoolState) :
  alive (ps_clientPool st) < CLIENT_POOL_SIZE →
  ps_sessionFile st = None →
  let cs1 := calls_run w (mkCalls st []) [NewCall; NewCall; ResumeCall 0] in
  let cs2 := calls_step w cs1 (ResumeCall 1) in
  auth_exchanges (ps_log (cs_pool cs1)) =
    auth_exchanges (ps_log st) ++ [(Primary, pw_start w (ps_clock st))] ∧
  auth_exchanges (ps_log (cs_pool cs2)) =
    auth_exchanges (ps_log (cs_pool cs1)) ++
    [(Primary, pw_start w (ps_clock (cs_pool cs1)))].
Proof.
  intros Halive Hfile.
  assert (call_start st = mkPoolCall true AtStart) as Hstart.
  { unfold call_start, loadSavedSession. rewrite Hfile.
    by destruct (Z.geb_spec (alive (ps_clientPool st)) CLIENT_POOL_SIZE); [lia|]. }
  cbn [calls_run fold_left calls_step cs_pool cs_calls app].
  rewrite Hstart. cbn [lookup list_lookup pc_at pc_fresh].
  pose proof (call_resume_start_exchanges w st) as H1.
  destruct (call_resume w AtStart st) as [p1 st1]. cbn [snd] in H1.
  cbn [cs_pool cs_calls insert list_insert lookup list_lookup pc_at pc_fresh].
  pose proof (call_resume_start_exchanges w st1) as H2.
  destruct (call_resume w AtStart st1) as [p2 st2]. cbn [snd] in H2.
  done.
Qed.

Lemma overlapping_calls_both_authenticate_witness :
  accepted
    (ps_log
       (cs_pool
          (calls_run
             (mkPoolWorld (λ _, StartOk "k") (λ _ _, true) (λ _ s, s)
                (λ _, true) (λ _, true))
             (calls_init None)
             [NewCall; NewCall; ResumeCall 0; ResumeCall 1]))) = 2%nat.
Proof.
  destruct (overlapping_calls_both_authenticate
              (mkPoolWorld (λ _, StartOk "k") (λ _ _, true) (λ _ s, s)
                 (λ _, true) (λ _, true))
              (pool_init None)) as [_ H2].
  - vm_compute. reflexivity.
  - reflexivity.
  - unfold accepted.
    change (calls_run ?w (calls_init None)
              [NewCall; NewCall; ResumeCall 0; ResumeCall 1])
      with (calls_step w
              (calls_run w (mkCalls (pool_init None) [])
                 [NewCall; NewCall; ResumeCall 0]) (ResumeCall 1)).
    rewrite H2. vm_compute. reflexivity.
Defined.

(** ** Range headers written in decimal *)

Section Decimal.
Implicit Types (d : Decimal.uint) (s r : string) (f : ascii → bool).

Lemma parse_digits_acc d (acc : positive) :
  parse_digits (Z.pos acc) (NilEmpty.string_of_uint d) =
  Z.pos (Pos.of_uint_acc d acc).
Proof.
  revert acc. induction d as [|d IH|d IH|d IH|d IH|d IH|d IH|d IH|d IH|d IH|d IH];
    intros acc; cbn [NilEmpty.string_of_uint parse_digits Pos.of_uint_acc];
    [done|..];
    match goal with
    | |- parse_digits ?a _ = _ =>
        match goal with
        | |- _ = Z.pos (Pos.of_uint_acc _ ?p) =>
            replace a with (Z.pos p) by (vm_compute Z.of_nat; lia)
        end
    end; apply IH.
Qed.

Lemma parse_digits_of_uint d :
  parse_digits 0 (NilEmpty.string_of_uint d) = Z.of_N (Pos.of_uint d).
Proof.
  induction d as [|d IH|d IH|d IH|d IH|d IH|d IH|d IH|d IH|d IH|d IH];
    cbn [NilEmpty.string_of_uint parse_digits Pos.of_uint]; [done|exact IH|..];
    match goal with
    | |- parse_digits ?a _ = Z.of_N (N.pos (Pos.of_uint_acc _ ?p)) =>
        change a with (Z.pos p)
    end; apply parse_digits_acc.
Qed.

Lemma digits_of_uint d : string_all is_digit (NilEmpty.string_of_uint d) = true.
Proof.
  induction d as [|d IH|d IH|d IH|d IH|d IH|d IH|d IH|d IH|d IH|d IH];
    cbn [NilEmpty.string_of_uint string_all]; [done|..];
    by rewrite IH.
Qed.

(** The decimal numeral of a number that is not negative: digits, at
    least one, and [parseInt] reads the number back. *)
Lemma num_to_string_digits n :
  0 <= n →
  string_empty (num_to_string n) = false ∧
  string_all is_digit (num_to_string n) = true ∧
  parseInt (num_to_string n) = n.
Proof.
  intros Hn. unfold num_to_string, parseInt.
  destruct n as [|p|p]; [done| |lia].
  cbn [Z.to_int NilZero.string_of_int].
  pose proof (Unsigned.to_uint_nonnil p) as Hnil.
  pose proof (Unsigned.of_to p) as Hback.
  unfold NilZero.string_of_uint.
  destruct (Pos.to_uint p) as [|d|d|d|d|d|d|d|d|d|d] eqn:Hd; [done|..];
    (split; [done|]); (split; [apply digits_of_uint|]);
    rewrite parse_digits_of_uint, Hback; done.
Qed.

Lemma drop_while_app f s r :
  string_all f s = true →
  match r with EmptyString => True | String a _ => f a = false end →
  drop_while f (s ++ r) = r.
Proof.
  intros Hall Hr. induction s as [|a s IH].
  - destruct r as [|b r]; [done|].
    change (("" ++ String b r)%string) with (String b r).
    cbn [drop_while]. by rewrite Hr.
  - cbn [string_all] in Hall. apply andb_true_iff in Hall as [Ha Hall].
    rewrite append_cons. cbn [drop_while]. by rewrite Ha, IH.
Qed.

Lemma append_empty_r s : (s ++ "")%string = s.
Proof. induction s as [|a s IH]; [done|]. by rewrite append_cons, IH. Qed.

(** The pattern on [bytes=], a numeral, a dash and digits or nothing. *)
Lemma match_range_decimal (first : Z) (last : string) :
  0 <= first → string_all is_digit last = true →
  match_range ("bytes=" ++ num_to_string first ++ "-" ++ last) =
  Some (num_to_string first, last).
Proof.
  intros Hfirst Hlast.
  destruct (num_to_string_digits first Hfirst) as (Hne & Hdigits & _).
  assert (match_range_tail (num_to_string first ++ "-" ++ last) =
          Some (num_to_string first, last)) as Htail.
  { unfold match_range_tail.
    rewrite take_while_app, drop_while_app, Hne by done.
    change (("-" ++ last)%string) with (String "-" last).
    f_equal. f_equal.
    rewrite <- (append_empty_r last) at 1. by apply take_while_app. }
  change (("bytes=" ++ num_to_string first ++ "-" ++ last)%string)
    with (String "b" (String "y" (String "t" (String "e" (String "s"
            (String "=" (num_to_string first ++ "-" ++ last))))))).
  cbn [match_range strip_prefix]. cbn [Ascii.eqb Bool.eqb]. cbn iota.
  by rewrite Htail.
Qed.
End Decimal.

(** X25.  A Range header written in decimal is read back as the numbers it
    was written from (as long as they are safe integers): [bytes=S-E] gives
    [start = S] and [end = min(E, fileSize - 1)], and [bytes=S-] gives
    [start = S] and [end = fileSize - 1].  The start is taken as it is, also
    when it lies behind the end or at or behind the end of the file. *)
Theorem parseRange_decimal (S E fileSize : Z) :
  0 <= S <= 9007199254740991 →
  0 <= E <= 9007199254740991 →
  parseRange (Some ("bytes=" ++ num_to_string S ++ "-" ++ num_to_string E)%string)
    fileSize = (S, Z.min E (fileSize - 1)) ∧
  parseRange (Some ("bytes=" ++ num_to_string S ++ "-")%string) fileSize
    = (S, fileSize - 1).
Proof.
  intros [HS _] [HE _].
  destruct (num_to_string_digits S HS) as (_ & _ & HpS).
  destruct (num_to_string_digits E HE) as (HneE & HdE & HpE).
  split.
  - rewrite (parseRange_closed _ (num_to_string S) (num_to_string E));
      [by rewrite HpS, HpE | by apply match_range_decimal | done].
  - rewrite (parseRange_open _ (num_to_string S));
      [by rewrite HpS | by apply (match_range_decimal S "")].
Qed.

Lemma parseRange_decimal_witness :
  parseRange (Some "bytes=7-3"%string) 5 = (7, 3) ∧
  parseRange (Some "bytes=7-"%string) 5 = (7, 4).
Proof.
  apply (parseRange_decimal 7 3 5); lia.
Defined.
